(** * wet: a server-side web template engine

    A shallow embedding of [src/htmlparser.js] (placeholder protector,
    tokenizer, tree builder, node model) and [src/engine.js] (directive
    interpreter, expression interpolation, template cache, tree-session
    store), followed by the properties of the natural-language
    specification stated and settled over that embedding.

    Modelling conventions.
    - JavaScript strings are [string]s of Latin-1 characters.
    - Objects that the code mutates and shares (Node instances, the
      module-level tables [PLACEHOLDERS] and [DOM_CACHE], the per-engine
      [TREE_CACHE]) live in explicit stores; a Node reference is its index
      in the node heap.
    - A thrown exception is the left injection of a sum.
    - An [async] function is a function returning a promise: the part up
      to its first [await] runs at the call, the rest is a continuation
      run later from the job queue. *)

From Stdlib Require Import String Ascii NArith ZArith Lia.
From stdpp Require Import base strings list gmap pretty.

Set Warnings "-register-all".

Open Scope string_scope.

(** ** Exceptions *)

Inductive Exn : Type :=
| TypeError (message : string)
| Error (message : string)
| ParseError (message : string) (level : nat).

Definition Res (A : Type) : Type := Exn + A.

Definition ret {A} (a : A) : Res A := inr a.
Definition throw {A} (e : Exn) : Res A := inl e.
Definition bind {A B} (m : Res A) (k : A -> Res B) : Res B :=
  match m with inl e => inl e | inr a => k a end.

Notation "'let!' x ':=' m 'in' k" := (bind m (fun x => k))
  (at level 10, x name, m at level 200, k at level 200, only parsing).
Notation "'let!' ' p ':=' m 'in' k" := (bind m (fun x => let 'p := x in k))
  (at level 10, p pattern, m at level 200, k at level 200, only parsing).

(** A computation on a state that may throw: the state is kept as the
    throw finds it, as the mutations of a JavaScript object are. *)
Definition SRes (S A : Type) : Type := S -> S * Res A.

Definition sret {S A} (a : A) : SRes S A := fun st => (st, inr a).
Definition sthrow {S A} (e : Exn) : SRes S A := fun st => (st, inl e).
Definition sbind {S A B} (m : SRes S A) (k : A -> SRes S B) : SRes S B :=
  fun st =>
    match m st with
    | (st1, inl e) => (st1, inl e)
    | (st1, inr a) => k a st1
    end.

Notation "'let*' x ':=' m 'in' k" := (sbind m (fun x => k))
  (at level 10, x name, m at level 200, k at level 200, only parsing).

Definition message_of (e : Exn) : string :=
  match e with
  | TypeError m => m
  | Error m => m
  | ParseError m _ => m
  end.

(** ** Characters and strings *)

Module Str.

Definition code (c : ascii) : nat := nat_of_ascii c.

(** The double-quote character and the one-character string of it. *)
Definition dquote : ascii := ascii_of_nat 34.
Definition dq : string := String dquote EmptyString.

(** The regular-expression class [\s] on Latin-1 characters. *)
Definition is_space (c : ascii) : bool :=
  let n := code c in
  (Nat.leb 9 n && Nat.leb n 13) || Nat.eqb n 32 || Nat.eqb n 160.

(** What [.] refuses: the line terminators. *)
Definition is_line_terminator (c : ascii) : bool :=
  let n := code c in Nat.eqb n 10 || Nat.eqb n 13.

Definition is_digit (c : ascii) : bool :=
  let n := code c in Nat.leb 48 n && Nat.leb n 57.

Definition is_upper (c : ascii) : bool :=
  let n := code c in Nat.leb 65 n && Nat.leb n 90.

Definition is_lower (c : ascii) : bool :=
  let n := code c in Nat.leb 97 n && Nat.leb n 122.

Definition to_lower (c : ascii) : ascii :=
  if is_upper c then ascii_of_nat (code c + 32) else c.

Definition to_upper (c : ascii) : ascii :=
  if is_lower c then ascii_of_nat (code c - 32) else c.

Fixpoint map (f : ascii -> ascii) (s : string) : string :=
  match s with
  | EmptyString => EmptyString
  | String c s' => String (f c) (map f s')
  end.

Definition toUpperCase : string -> string := map to_upper.

Definition eqc (ci : bool) (a b : ascii) : bool :=
  if ci then Ascii.eqb (to_lower a) (to_lower b) else Ascii.eqb a b.

(** [starts ci p s]: [p] is a prefix of [s], ignoring case when [ci]. *)
Fixpoint starts (ci : bool) (p s : string) : bool :=
  match p, s with
  | EmptyString, _ => true
  | String a p', String b s' => eqc ci a b && starts ci p' s'
  | String _ _, EmptyString => false
  end.

Definition startsWith (s p : string) : bool := starts false p s.

(** Offset of the first occurrence of [p] in [s]. *)
Fixpoint find (ci : bool) (p s : string) : option nat :=
  if starts ci p s then Some 0
  else match s with
       | EmptyString => None
       | String _ s' => option_map S (find ci p s')
       end.

Fixpoint take (n : nat) (s : string) : string :=
  match n, s with
  | S k, String c s' => String c (take k s')
  | _, _ => EmptyString
  end.

Fixpoint drop (n : nat) (s : string) : string :=
  match n, s with
  | S k, String _ s' => drop k s'
  | _, _ => s
  end.

(** Longest prefix whose characters all satisfy [p], and what follows. *)
Fixpoint span (p : ascii -> bool) (s : string) : string * string :=
  match s with
  | String c s' =>
      if p c then let '(a, b) := span p s' in (String c a, b)
      else (EmptyString, s)
  | EmptyString => (EmptyString, EmptyString)
  end.

Fixpoint rev_onto (s acc : string) : string :=
  match s with
  | EmptyString => acc
  | String c s' => rev_onto s' (String c acc)
  end.

Definition rev (s : string) : string := rev_onto s EmptyString.

(** [s.replace(/[p]+$/, '')] *)
Definition strip_end (p : ascii -> bool) (s : string) : string :=
  rev (snd (span p (rev s))).

(** [s.trim()] *)
Definition trim (s : string) : string :=
  strip_end is_space (snd (span is_space s)).

Fixpoint concat (l : list string) : string :=
  match l with
  | [] => EmptyString
  | x :: r => x +:+ concat r
  end.

(** [l.join(sep)] *)
Fixpoint join (sep : string) (l : list string) : string :=
  match l with
  | [] => EmptyString
  | [x] => x
  | x :: r => x +:+ sep +:+ join sep r
  end.

Fixpoint repeat (c : ascii) (n : nat) : string :=
  match n with
  | O => EmptyString
  | S k => String c (repeat c k)
  end.

(** [s.padStart(n, ' ')] *)
Definition padStart (n : nat) (s : string) : string :=
  repeat " "%char (n - String.length s) +:+ s.

End Str.

(** ** Global regular-expression replacement

    [s.replace(re, callback)] with the [g] flag: at each position the
    matcher is tried on the remaining text; on a match the callback's
    result is emitted and the scan resumes after the match, otherwise the
    character is copied.  Every matcher below matches at least one
    character.  The callback may update a state and may throw. *)

Section Gsub.
Context {S : Type}.
(** The matcher returns the matched text and its capture group. *)
Variable matcher : string -> option (string * string).
Variable callback : string -> string -> SRes S string.

Fixpoint gsub (skip : nat) (s : string) : SRes S string :=
  match s with
  | EmptyString => sret EmptyString
  | String c s' =>
      match skip with
      | Datatypes.S k => gsub k s'
      | O =>
          match matcher s with
          | Some (input, cap) =>
              let* r := callback input cap in
              let* out := gsub (String.length input - 1) s' in
              sret (r +:+ out)
          | None =>
              let* out := gsub 0 s' in
              sret (String c out)
          end
      end
  end.

Definition replace_all (s : string) : SRes S string := gsub 0 s.
End Gsub.

(** ** Inherited properties

    [PLACEHOLDERS], [TREE_CACHE], the attribute map of a Node and the
    contexts are plain objects: reading a key that is not an own property
    falls through to [Object.prototype], where these names are found.
    [__proto__] reads the prototype itself, the others are methods. *)

Definition Object_prototype : list string :=
  ["constructor"; "__defineGetter__"; "__defineSetter__"; "hasOwnProperty";
   "__lookupGetter__"; "__lookupSetter__"; "isPrototypeOf";
   "propertyIsEnumerable"; "toString"; "valueOf"; "__proto__";
   "toLocaleString"].

Definition inherited (key : string) : bool :=
  existsb (String.eqb key) Object_prototype.

(** ** htmlparser.js *)

Module htmlParser.

(** *** Placeholder table

    [PLACEHOLDERS] and [placeholderIndex] are module-level variables: one
    table and one counter for the whole process. *)

Record PState : Type := mkPState {
  PLACEHOLDERS : gmap string string;
  placeholderIndex : N
}.

Definition initial_pstate : PState := mkPState ∅ 0.

(** [getPlaceholder()] *)
Definition getPlaceholder (st : PState) : string * PState :=
  let i := (placeholderIndex st + 1)%N in
  ("_@#!" +:+ pretty i +:+ "!#@_", mkPState (PLACEHOLDERS st) i).

(** The callback shared by the masking passes: a fresh placeholder is
    bound to [stored] and [prefix ++ placeholder] replaces the match. *)
Definition mask (prefix stored : string) : SRes PState string :=
  fun st =>
    let '(p, st1) := getPlaceholder st in
    (mkPState (<[p := stored]> (PLACEHOLDERS st1)) (placeholderIndex st1),
     inr (prefix +:+ p)).

(** *** The matchers of [preProcess] and [decode] *)

(** [[\s\S]+?] followed by [close]: one character at least, then up to
    the first occurrence of [close].  Returns the lazily matched text and
    the number of characters consumed, [close] included. *)
Definition lazy_until (ci : bool) (close : string) (s : string)
  : option (string * nat) :=
  match s with
  | EmptyString => None
  | String c s' =>
      match Str.find ci close s' with
      | Some k => Some (String c (Str.take k s'), 1 + k + String.length close)
      | None => None
      end
  end.

(** [/\\./] *)
Definition m_escape (s : string) : option (string * string) :=
  match s with
  | String "\" (String c _) =>
      if Str.is_line_terminator c then None
      else Some (String "\" (String c EmptyString), EmptyString)
  | _ => None
  end.

(** [/<(name1|name2)[\s\S]+?CLOSE/i] where CLOSE is [>] or, with
    [backref], [<\/\1>]. *)
Definition m_tag_block (names : list string) (backref : bool) (s : string)
  : option (string * string) :=
  match s with
  | String "<" r =>
      let try_name (nm : string) : option (string * string) :=
        if Str.starts true nm r then
          let n := String.length nm in
          let captured := Str.take n r in
          let close :=
            if backref then "</" +:+ captured +:+ ">" else ">" in
          match lazy_until true close (Str.drop n r) with
          | Some (_, k) => Some (Str.take (1 + n + k) s, captured)
          | None => None
          end
        else None in
      (fix alt (l : list string) : option (string * string) :=
         match l with
         | [] => None
         | nm :: l' =>
             match try_name nm with
             | Some r => Some r
             | None => alt l'
             end
         end) names
  | _ => None
  end.

(** [/<(style|script)[\s\S]+?<\/\1>/i] *)
Definition m_style_script : string -> option (string * string) :=
  m_tag_block ["style"; "script"] true.

(** [/<(link|meta)[\s\S]+?>/i] *)
Definition m_link_meta : string -> option (string * string) :=
  m_tag_block ["link"; "meta"] false.

(** [/\{\{[\s\S]+?\}\}/]; the capture is the text between the braces. *)
Definition m_expression (s : string) : option (string * string) :=
  match s with
  | String "{" (String "{" r) =>
      match lazy_until false "}}" r with
      | Some (e, k) => Some (Str.take (2 + k) s, e)
      | None => None
      end
  | _ => None
  end.

(** [/=\s*(Q)([\s\S]*?)\1/] where Q is a single or a double quote; the
    capture is the quoted value. *)
Definition m_attr_value (s : string) : option (string * string) :=
  match s with
  | String "=" r =>
      let '(ws, r1) := Str.span Str.is_space r in
      match r1 with
      | String q r2 =>
          if Ascii.eqb q "'" || Ascii.eqb q Str.dquote then
            match Str.find false (String q EmptyString) r2 with
            | Some k =>
                Some (Str.take (1 + String.length ws + 1 + k + 1) s,
                      Str.take k r2)
            | None => None
            end
          else None
      | EmptyString => None
      end
  | _ => None
  end.

(** [/_@#![0-9]+!#@_/] *)
Definition m_placeholder (s : string) : option (string * string) :=
  if Str.starts false "_@#!" s then
    let '(ds, r) := Str.span Str.is_digit (Str.drop 4 s) in
    match ds with
    | EmptyString => None
    | _ =>
        if Str.starts false "!#@_" r
        then Some (Str.take (4 + String.length ds + 4) s, EmptyString)
        else None
    end
  else None.

(** *** [preProcess(content)] *)
Definition preProcess (content : string) : SRes PState string :=
  let* c1 :=
    replace_all m_escape (fun input _ => mask EmptyString input) content in
  let* c2 :=
    replace_all m_style_script (fun input _ => mask EmptyString input) c1 in
  let* c3 :=
    replace_all m_link_meta (fun input _ => mask EmptyString input) c2 in
  let* c4 :=
    replace_all m_expression (fun input _ => mask EmptyString input) c3 in
  replace_all m_attr_value (fun _ value => mask "=" value) c4.

(** *** [decode(text, remove)]

    [text] is [None] when the caller passes [undefined]; reading
    [undefined.replace] throws.  A placeholder missing from the table is
    replaced by the text [undefined]. *)
Definition decode (text : option string) (remove : bool)
  : SRes PState string :=
  match text with
  | None =>
      sthrow (TypeError
        "Cannot read properties of undefined (reading 'replace')")
  | Some t =>
      replace_all m_placeholder
        (fun placeholder _ st0 =>
           let value := default "undefined" (PLACEHOLDERS st0 !! placeholder) in
           let st1 :=
             if remove
             then mkPState (delete placeholder (PLACEHOLDERS st0))
                           (placeholderIndex st0)
             else st0 in
           (st1, inr value))
        t
  end.

(** *** Entities *)

Inductive NODE_TYPES : Type :=
| ELEMENT_NODE
| TEXT_NODE
| CDATA_SECTION_NODE
| PROCESSING_INSTRUCTION_NODE
| COMMENT_NODE
| DOCUMENT_TYPE_NODE.

Definition NODE_TYPES_eqb (a b : NODE_TYPES) : bool :=
  match a, b with
  | ELEMENT_NODE, ELEMENT_NODE
  | TEXT_NODE, TEXT_NODE
  | CDATA_SECTION_NODE, CDATA_SECTION_NODE
  | PROCESSING_INSTRUCTION_NODE, PROCESSING_INSTRUCTION_NODE
  | COMMENT_NODE, COMMENT_NODE
  | DOCUMENT_TYPE_NODE, DOCUMENT_TYPE_NODE => true
  | _, _ => false
  end.

Inductive EntityState : Type := open | close.

Record Entity : Type := mkEntity {
  e_type : NODE_TYPES;
  e_state : option EntityState;
  e_data : string
}.

(** [/^<[a-z_\-\/]/i] *)
Definition element_start (data : string) : bool :=
  match data with
  | String "<" (String c _) =>
      Str.is_lower (Str.to_lower c)
      || Ascii.eqb c "_" || Ascii.eqb c "-" || Ascii.eqb c "/"
  | _ => false
  end.

Definition _getEntityType (data : string) : NODE_TYPES :=
  if Str.startsWith data "<!--" then COMMENT_NODE
  else if Str.startsWith data "<!CDATA[[" then CDATA_SECTION_NODE
  else if Str.startsWith data "<?" then PROCESSING_INSTRUCTION_NODE
  else if Str.starts true "<!doctype " data then DOCUMENT_TYPE_NODE
  else if element_start data then ELEMENT_NODE
  else TEXT_NODE.

Definition Entity_new (data : string) : Entity :=
  let type := _getEntityType data in
  let state :=
    match type with
    | ELEMENT_NODE =>
        match data with
        | String _ (String "/" _) => Some close
        | _ => Some open
        end
    | _ => None
    end in
  mkEntity type state data.

(** *** Tokenizer: [getNextEntity(content, offset)]

    [scan] is the [for] loop over the text from [offset] on; [empty] says
    whether the buffer is still empty. *)
Fixpoint scan (ltFound empty : bool) (s : string) : string :=
  match s with
  | EmptyString => EmptyString
  | String c s' =>
      if Ascii.eqb c "<" then
        if negb empty then EmptyString
        else String c (scan true false s')
      else if Ascii.eqb c ">" && ltFound then String c EmptyString
      else String c (scan ltFound false s')
  end.

Definition getNextEntity (rest : string) : Entity :=
  Entity_new (scan false true rest).

(** *** Nodes

    A Node reference is an index into the heap.  [__condition__] is the
    own property the interpreter adds to a Node; [None] is its absence. *)

Abbreviation ref := nat.

Record Node : Type := mkNode {
  _children : list ref;
  _raw : string;
  _isElement : bool;
  _type : option NODE_TYPES;
  _tag : string;
  _attrs : list (string * string);
  _closed : bool;
  _index : nat;
  _parent : option ref;
  __condition__ : option bool
}.

(** [new Node()] without an entity. *)
Definition Node_empty : Node :=
  mkNode [] EmptyString false None EmptyString [] false 0 None None.

Definition isElement (n : Node) : bool :=
  match _type n with Some ELEMENT_NODE => true | _ => false end.

(** **** Plain objects

    A plain object is the list of its own properties.  Assigning an
    existing key keeps the key's place, and enumeration lists keys that
    are array indices first, in ascending order, then the others in
    insertion order. *)
Module Obj.
Section Obj.
Context {A : Type}.

Fixpoint get (k : string) (o : list (string * A)) : option A :=
    match o with
    | [] => None
    | (k', v) :: r => if String.eqb k k' then Some v else get k r
    end.

Fixpoint put (k : string) (v : A) (o : list (string * A))
    : list (string * A) :=
    match o with
    | [] => [(k, v)]
    | (k', v') :: r =>
        if String.eqb k k' then (k, v) :: r else (k', v') :: put k v r
    end.

Definition hasOwnProperty (k : string) (o : list (string * A)) : bool :=
    match get k o with Some _ => true | None => false end.

Fixpoint insert_sorted (e : N * (string * A))
    (l : list (N * (string * A))) : list (N * (string * A)) :=
    match l with
    | [] => [e]
    | x :: r => if (fst e <=? fst x)%N then e :: l else x :: insert_sorted e r
    end.
End Obj.

Fixpoint digits_value (s : string) (acc : N) : N :=
  match s with
  | EmptyString => acc
  | String c r => digits_value r (acc * 10 + N.of_nat (Str.code c - 48))%N
  end.

(** The key is a canonical array index: decimal, no leading zero, below
    [2^32 - 1]. *)
Definition array_index (k : string) : option N :=
  match k with
  | EmptyString => None
  | String c r =>
      if String.eqb (snd (Str.span Str.is_digit k)) EmptyString then
        if Ascii.eqb c "0" && negb (String.eqb r EmptyString) then None
        else if Nat.ltb 10 (String.length k) then None
        else let n := digits_value k 0 in
             if (n <? 4294967295)%N then Some n else None
      else None
  end.

(** The own properties in [for ... in] order. *)
Definition entries {A} (o : list (string * A)) : list (string * A) :=
  let idx :=
    foldr (fun e acc =>
             match array_index (fst e) with
             | Some n => insert_sorted (n, e) acc
             | None => acc
             end) [] o in
  (List.map snd idx ++
   List.filter (fun e => match array_index (fst e) with
                         | Some _ => false | None => true end) o)%list.

(** [o[k] = v] for a string [v]: the key [__proto__] reaches the
    prototype setter, which ignores a string. *)
Definition set (k v : string) (o : list (string * string))
  : list (string * string) :=
  if String.eqb k "__proto__" then o else put k v o.

End Obj.

(** [get attrsString()] *)
Definition attrsString (n : Node) : string :=
  let temp :=
    List.map (fun '(key, v) => key +:+ "=" +:+ Str.dq +:+ v +:+ Str.dq)
             (Obj.entries (_attrs n)) in
  match temp with
  | [] => EmptyString
  | _ => " " +:+ Str.join " " temp
  end.

(** **** [Node._resolve(entity)] *)

(** The successive matches of [attrReg] in the attribute text: a [name]
    group, a run of characters other than white space and [=], then
    optionally [=] and a [value] group, a run of characters other than
    white space.  Each match is listed with its [name] and with its
    [value] when that group took part. *)
Fixpoint attr_matches (skip : nat) (s : string)
  : list (string * option string) :=
  match s with
  | EmptyString => []
  | String c s' =>
      match skip with
      | S k => attr_matches k s'
      | O =>
          if Str.is_space c || Ascii.eqb c "=" then attr_matches 0 s'
          else
            let '(name, r) :=
              Str.span (fun x => negb (Str.is_space x || Ascii.eqb x "=")) s in
            match r with
            | String "=" r' =>
                let value := fst (Str.span (fun x => negb (Str.is_space x)) r') in
                (name, Some value)
                  :: attr_matches
                       (String.length name + String.length value) s'
            | _ =>
                (name, None) :: attr_matches (String.length name - 1) s'
            end
      end
  end.

(** [PLACEHOLDERS[key]]: the text bound to a placeholder, or a method
    or the prototype inherited from [Object.prototype], or
    [undefined]. *)
Inductive Slot : Type :=
| bound (v : string)
| builtin
| unbound.

Definition slot (st : PState) (key : string) : Slot :=
  match PLACEHOLDERS st !! key with
  | Some v => bound v
  | None => if inherited key then builtin else unbound
  end.

(** [decode(value)] for a value read off the table: a function or the
    prototype object has no [replace] method. *)
Definition decode_slot (value : Slot) : SRes PState string :=
  match value with
  | bound v => decode (Some v) false
  | builtin => sthrow (TypeError "text.replace is not a function")
  | unbound => decode None false
  end.

(** The body of the [while] loop, for each match in turn.  A [value]
    group that did not take part reads [PLACEHOLDERS[undefined]]. *)
Fixpoint resolve_attrs (ms : list (string * option string))
  (attrs : list (string * string)) : SRes PState (list (string * string)) :=
  match ms with
  | [] => sret attrs
  | (name, value) :: ms' =>
      fun st =>
        let value := slot st (default "undefined" value) in
        (let* v := decode_slot value in
         resolve_attrs ms' (Obj.set name v attrs)) st
  end.

Definition _resolve (this : Node) (entity : Entity) : SRes PState Node :=
  match e_data entity with
  | String "<" r =>
      let tagName :=
        fst (Str.span (fun x => negb (Str.is_space x || Ascii.eqb x ">")) r) in
      match tagName with
      | EmptyString =>
          sthrow (TypeError "Cannot read properties of null (reading '1')")
      | _ =>
          let* tag := decode (Some tagName) false in
          let attrText :=
            Str.strip_end
              (fun x => Ascii.eqb x ">" || Str.is_line_terminator x)
              (Str.drop (String.length tagName + 1) (e_data entity)) in
          let* attrs :=
            resolve_attrs (attr_matches 0 attrText) (_attrs this) in
          sret (mkNode (_children this) (_raw this) (_isElement this)
                       (_type this) tag attrs (_closed this) (_index this)
                       (_parent this) (__condition__ this))
      end
  | _ => sthrow (TypeError "Cannot read properties of null (reading '1')")
  end.

(** [new Node(entity)] *)
Definition Node_new (entity : Entity) : SRes PState Node :=
  let this :=
    mkNode [] (e_data entity)
           (NODE_TYPES_eqb (e_type entity) ELEMENT_NODE)
           (Some (e_type entity)) EmptyString [] false 0 None None in
  let* this :=
    if isElement this then _resolve this entity else sret this in
  let* r1 := decode (Some (_raw this)) false in
  let* r2 := decode (Some r1) true in
  sret (mkNode (_children this) r2 (_isElement this) (_type this)
               (_tag this) (_attrs this) (_closed this) (_index this)
               (_parent this) (__condition__ this)).

(** *** The node heap *)

Abbreviation Heap := (list Node).

Definition alloc (n : Node) (h : Heap) : ref * Heap := (List.length h, (h ++ [n])%list).

Definition with_children (c : list ref) (n : Node) : Node :=
  mkNode c (_raw n) (_isElement n) (_type n) (_tag n) (_attrs n)
         (_closed n) (_index n) (_parent n) (__condition__ n).

Definition with_closed (b : bool) (n : Node) : Node :=
  mkNode (_children n) (_raw n) (_isElement n) (_type n) (_tag n) (_attrs n)
         b (_index n) (_parent n) (__condition__ n).

Definition with_parent (p : ref) (i : nat) (n : Node) : Node :=
  mkNode (_children n) (_raw n) (_isElement n) (_type n) (_tag n) (_attrs n)
         (_closed n) i (Some p) (__condition__ n).

Definition with_condition (b : bool) (n : Node) : Node :=
  mkNode (_children n) (_raw n) (_isElement n) (_type n) (_tag n) (_attrs n)
         (_closed n) (_index n) (_parent n) (Some b).

Definition update (r : ref) (f : Node -> Node) (h : Heap) : Heap :=
  match h !! r with
  | Some n => <[r := f n]> h
  | None => h
  end.

(** [this.appendChild(node)] *)
Definition appendChild (this node : ref) (h : Heap) : Heap :=
  match h !! this with
  | Some t =>
      let h1 := update node (with_parent this (List.length (_children t))) h in
      update this (with_children (_children t ++ [node])%list) h1
  | None => h
  end.

(** [get next()]; [None] is [undefined]. *)
Definition next (h : Heap) (this : ref) : Res (option ref) :=
  match h !! this with
  | Some n =>
      match _parent n with
      | Some p =>
          match h !! p with
          | Some pn => ret (_children pn !! (_index n + 1))
          | None => ret None
          end
      | None =>
          throw (TypeError
            "Cannot read properties of undefined (reading '_children')")
      end
  | None => ret None
  end.

(** [get nextElement()] *)
Definition nextElement (h : Heap) (this : ref) : Res (option ref) :=
  let! nx := next h this in
  match nx with
  | None =>
      throw (TypeError
        "Cannot read properties of undefined (reading 'isElement')")
  | Some n =>
      if match h !! n with Some nn => isElement nn | None => false end
      then ret (Some n)
      else next h n
  end.

(** *** Tree builder: [parse(content)]

    [parse_loop] is the [while (index < contentLength)] loop; [rest] is
    the text from [index] on, [stack] has its top first, and
    [currentNode] is [None] once [stack.pop()] has returned [undefined].
    Each iteration takes one unit of fuel; [None] is fuel exhaustion. *)

Definition undefined_read {A} (prop : string) : Res A :=
  throw (TypeError
    ("Cannot read properties of undefined (reading '" +:+ prop +:+ "')")).

Definition loop_body (entity : Entity) (stack : list ref)
  (currentNode : option ref) (h : Heap)
  : SRes PState (list ref * option ref * Heap) :=
  let* n := Node_new entity in
  let '(node, h1) := alloc n h in
  if negb (NODE_TYPES_eqb (e_type entity) ELEMENT_NODE) then
    match currentNode with
    | Some cur => sret (stack, currentNode, appendChild cur node h1)
    | None => fun st => (st, undefined_read "appendChild")
    end
  else
    match currentNode with
    | None => fun st => (st, undefined_read "closed")
    | Some cur =>
        let cn := default Node_empty (h1 !! cur) in
        if _closed cn then
          match _parent cn with
          | Some p => sret (cur :: stack, Some node, appendChild p node h1)
          | None => fun st => (st, undefined_read "appendChild")
          end
        else
          match e_state entity with
          | Some open =>
              sret (cur :: stack, Some node, appendChild cur node h1)
          | _ =>
              let h2 := update cur (with_closed true) h1 in
              match stack with
              | top :: stack' => sret (stack', Some top, h2)
              | [] => sret ([], None, h2)
              end
          end
    end.

Fixpoint parse_loop (fuel : nat) (rest : string) (stack : list ref)
  (currentNode : option ref) (h : Heap) (st : PState)
  : option (PState * Res Heap) :=
  match rest with
  | EmptyString => Some (st, inr h)
  | _ =>
      match fuel with
      | O => None
      | S fuel' =>
          let entity := getNextEntity rest in
          match loop_body entity stack currentNode h st with
          | (st1, inl e) => Some (st1, inl e)
          | (st1, inr (stack1, cur1, h1)) =>
              parse_loop fuel' (Str.drop (String.length (e_data entity)) rest)
                         stack1 cur1 h1 st1
          end
      end
  end.

(** [parse(content)] returns the children of the synthetic root; the
    nodes it has built are on the heap [h1]. *)
Definition parse (content : string) (h : Heap) (st : PState)
  : option (PState * Res (list ref * Heap)) :=
  let '(tree, h0) := alloc Node_empty h in
  match preProcess content st with
  | (st1, inl e) => Some (st1, inl e)
  | (st1, inr masked) =>
      match parse_loop (String.length masked) masked [tree] (Some tree) h0 st1
      with
      | None => None
      | Some (st2, inl e) => Some (st2, inl e)
      | Some (st2, inr h1) =>
          Some (st2, inr (_children (default Node_empty (h1 !! tree)), h1))
      end
  end.

End htmlParser.

(** ** JavaScript values

    The values a context holds and the evaluator returns.  Numbers are
    the integers; other numbers are outside the model. *)

Inductive Value : Type :=
| VUndefined
| VNull
| VBool (b : bool)
| VNumber (z : Z)
| VString (s : string)
| VArray (items : list Value)
| VObject (props : list (string * Value)).

Abbreviation Context := (list (string * Value)).

(** What a property read gives: a value of the data, or one of the
    built-in objects of the language, a method or a prototype found on
    the prototype chain.  A built-in is named by the prototype it is
    reached from and the property names that lead to it, as in
    [["Object.prototype"; "toString"]]. *)
Inductive Got : Type :=
| got (v : Value)
| native (path : list string).

Module JS.

(** Truthiness, as [!value] and [if (value)] see it. *)
Definition truthy (v : Value) : bool :=
  match v with
  | VUndefined | VNull => false
  | VBool b => b
  | VNumber z => negb (Z.eqb z 0)
  | VString s => negb (String.eqb s EmptyString)
  | VArray _ | VObject _ => true
  end.

(** [typeof v === 'object'] *)
Definition typeof_object (v : Value) : bool :=
  match v with
  | VNull | VArray _ | VObject _ => true
  | _ => false
  end.

(** [String(v)] *)
Fixpoint toString (v : Value) : string :=
  match v with
  | VUndefined => "undefined"
  | VNull => "null"
  | VBool true => "true"
  | VBool false => "false"
  | VNumber z => pretty z
  | VString s => s
  | VArray items =>
      Str.join ","
        (List.map (fun x => match x with
                            | VUndefined | VNull => EmptyString
                            | _ => toString x
                            end) items)
  | VObject _ => "[object Object]"
  end.

Definition hex_digit (n : nat) : ascii :=
  if Nat.ltb n 10 then ascii_of_nat (48 + n) else ascii_of_nat (87 + n).

(** The quoting of [JSON.stringify] for one character. *)
Definition json_char (c : ascii) : string :=
  let n := Str.code c in
  if Ascii.eqb c Str.dquote then String "\" Str.dq
  else if Ascii.eqb c "\" then "\\"
  else if Nat.eqb n 8 then "\b"
  else if Nat.eqb n 9 then "\t"
  else if Nat.eqb n 10 then "\n"
  else if Nat.eqb n 12 then "\f"
  else if Nat.eqb n 13 then "\r"
  else if Nat.ltb n 32 then
    "\u00" +:+ String (hex_digit (n / 16)) (String (hex_digit (n mod 16)) EmptyString)
  else String c EmptyString.

Fixpoint json_chars (s : string) : string :=
  match s with
  | EmptyString => EmptyString
  | String c r => json_char c +:+ json_chars r
  end.

Definition json_quote (s : string) : string :=
  Str.dq +:+ json_chars s +:+ Str.dq.

(** [JSON.stringify(v)]; [None] is [undefined]. *)
Fixpoint stringify (v : Value) : option string :=
  match v with
  | VUndefined => None
  | VNull => Some "null"
  | VBool true => Some "true"
  | VBool false => Some "false"
  | VNumber z => Some (pretty z)
  | VString s => Some (json_quote s)
  | VArray items =>
      Some ("[" +:+
            Str.join "," (List.map (fun x => default "null" (stringify x)) items)
            +:+ "]")
  | VObject props =>
      Some ("{" +:+
            Str.join ","
              (List.map (fun '(k, t) => json_quote k +:+ ":" +:+ t)
                 (htmlParser.Obj.entries
                    ((fix members (l : list (string * Value))
                        : list (string * string) :=
                        match l with
                        | [] => []
                        | (k, x) :: r =>
                            match stringify x with
                            | Some t => (k, t) :: members r
                            | None => members r
                            end
                        end) props)))
            +:+ "}")
  end.

(** [for (const item of v)]: the items of an array, the characters of a
    string; anything else is not iterable. *)
Fixpoint chars (s : string) : list Value :=
  match s with
  | EmptyString => []
  | String c r => VString (String c EmptyString) :: chars r
  end.

Definition iterate (v : Value) : Res (list Value) :=
  match v with
  | VArray items => ret items
  | VString s => ret (chars s)
  | _ => throw (TypeError "loopContext is not iterable")
  end.

(** [s.split(sep)], for a separator that is not empty. *)
Fixpoint split_go (sep : string) (skip : nat) (s cur : string) : list string :=
  match s with
  | EmptyString => [Str.rev cur]
  | String c s' =>
      match skip with
      | S k => split_go sep k s' cur
      | O =>
          if Str.starts false sep s
          then Str.rev cur :: split_go sep (String.length sep - 1) s' EmptyString
          else split_go sep 0 s' (String c cur)
      end
  end.

Definition split (sep s : string) : list string := split_go sep 0 s EmptyString.

End JS.

(** ** The collaborators of engine.js

    [coderunner.js] is required by the engine and is not part of the
    sources at hand; the interpreter is stated over any implementation of
    its four entry points.  An argument the engine may pass as
    [undefined] is an [option]. *)

Record Runner : Type := mkRunner {
  getExpressionValue : Context -> string -> Res Value;
  runForOf : Context -> string -> option string -> Res Value;
  runForIn : Context -> string -> option string -> Res Value;
  runCode : string -> Context -> Res Value
}.

(** What the platform supplies: the clock and the random numbers read by
    the [t-tree] directive (the [k]-th directive to draw gets [now k] and
    [random k], the latter being [Math.round(Math.random() * 1000)]), the
    path resolution and file reading of [t-include], the elapsed time
    printed by the [k]-th call of the module's [render], the MD5 digest
    in hexadecimal, and the built-in objects other than
    [Object.prototype], whose properties differ between versions of the
    language: [member path field] is what reading [field] off the
    built-in at [path] gives, [got VUndefined] when it has no such
    property. *)

Record Platform : Type := mkPlatform {
  now : nat -> N;
  random : nat -> N;
  resolve : option string -> option string -> Res string;
  readFile : string -> Res string;
  elapsed : nat -> string;
  md5 : string -> string;
  member : list string -> string -> Got
}.

(** ** engine.js *)

Module Engine.

Import htmlParser.

Definition nl : string := String (ascii_of_nat 10) EmptyString.

(** *** State

    [DOM_CACHE], the node heap and the placeholder table belong to the
    process; each [Engine] instance has a [TREE_CACHE] of its own, found
    at the instance's index in [engines]. *)

Record Session : Type := mkSession {
  s_children : list ref;
  s_varName : option string
}.

Record State : Type := mkState {
  heap : Heap;
  pstate : PState;
  DOM_CACHE : gmap string (list ref);
  engines : list (gmap string Session);
  draws : nat;
  renders : nat
}.

Definition initial_state : State := mkState [] initial_pstate ∅ [] 0 0.

Definition set_heap (h : Heap) (s : State) : State :=
  mkState h (pstate s) (DOM_CACHE s) (engines s) (draws s) (renders s).

Definition TREE_CACHE (this : nat) (s : State) : gmap string Session :=
  default ∅ (engines s !! this).

Definition set_TREE_CACHE (this : nat) (t : gmap string Session) (s : State)
  : State :=
  mkState (heap s) (pstate s) (DOM_CACHE s) (<[this := t]> (engines s))
          (draws s) (renders s).

Definition node_at (s : State) (r : ref) : Node :=
  default Node_empty (heap s !! r).

(** *** Promises

    A promise is settled, or pending on a continuation that the job queue
    will run on the state of that later moment and that yields the
    promise's next stage.  [Diverged] stands for a computation cut short
    by the recursion bound of the model. *)

Inductive Promise (A : Type) : Type :=
| Fulfilled (a : A)
| Rejected (e : Exn)
| Pending (k : State -> State * Promise A)
| Diverged.

Arguments Fulfilled {A} a.
Arguments Rejected {A} e.
Arguments Pending {A} k.
Arguments Diverged {A}.

(** The call of an [async] function: its synchronous part transforms the
    state and a promise is returned. *)
Definition Async (A : Type) : Type := State -> State * Promise A.

Definition settled {A} (r : Res A) : Promise A :=
  match r with inl e => Rejected e | inr a => Fulfilled a end.

(** Run the job queue until the promise is settled. *)
Fixpoint settle {A} (p : Promise A) (s : State) : State * option (Res A) :=
  match p with
  | Fulfilled a => (s, Some (inr a))
  | Rejected e => (s, Some (inl e))
  | Pending k => let '(s1, p1) := k s in settle p1 s1
  | Diverged => (s, None)
  end.

(** [await p] followed by [k]: the function returns here, and the rest
    runs from the job queue once [p] is settled; a rejection is thrown at
    the [await]. *)
Definition await {A B} (p : Promise A) (k : Res A -> Async B) : Async B :=
  fun s =>
    (s, Pending (fun s1 =>
                   match settle p s1 with
                   | (s2, Some r) => k r s2
                   | (s2, None) => (s2, Diverged)
                   end)).

(** The outcome of [Promise.all] once every member is settled: the values
    in order, or a rejection.  Every member runs to its end whether or not
    another one is rejected.  When several members are rejected the model
    reports the first in array order. *)
Fixpoint settle_all {A} (ps : list (Promise A)) (s : State)
  : State * option (Res (list A)) :=
  match ps with
  | [] => (s, Some (inr []))
  | p :: ps' =>
      let '(s1, r) := settle p s in
      let '(s2, rs) := settle_all ps' s1 in
      (s2,
       match r, rs with
       | Some (inl e), Some _ => Some (inl e)
       | Some (inr a), Some (inr l) => Some (inr (a :: l))
       | Some (inr _), Some (inl e) => Some (inl e)
       | _, _ => None
       end)
  end.

(** [await Promise.all(ps)] followed by [k]. *)
Definition await_all {A B} (ps : list (Promise A))
  (k : Res (list A) -> Async B) : Async B :=
  fun s =>
    (s, Pending (fun s1 =>
                   match settle_all ps s1 with
                   | (s2, Some r) => k r s2
                   | (s2, None) => (s2, Diverged)
                   end)).

(** [array.map(x => f(x))] for an [async] function [f]: the synchronous
    parts run in array order. *)
Fixpoint start_all {X A} (f : X -> Async A) (l : list X) (s : State)
  : State * list (Promise A) :=
  match l with
  | [] => (s, [])
  | x :: l' =>
      let '(s1, p) := f x s in
      let '(s2, ps) := start_all f l' s1 in
      (s2, p :: ps)
  end.

(** A handler applied to the rejection of a promise, whenever it comes. *)
Fixpoint on_reject {A} (f : Exn -> Res A) (p : Promise A) : Promise A :=
  match p with
  | Fulfilled a => Fulfilled a
  | Rejected e => settled (f e)
  | Pending k => Pending (fun s => let '(s1, p1) := k s in (s1, on_reject f p1))
  | Diverged => Diverged
  end.

(** *** Text helpers *)

(** [s.replace(/pat/g, rep)] for a literal, non-empty [pat]. *)
Fixpoint replace_go (pat rep : string) (skip : nat) (s : string) : string :=
  match s with
  | EmptyString => EmptyString
  | String c s' =>
      match skip with
      | S k => replace_go pat rep k s'
      | O =>
          if Str.starts false pat s
          then rep +:+ replace_go pat rep (String.length pat - 1) s'
          else String c (replace_go pat rep 0 s')
      end
  end.

Definition replaceAll (pat rep s : string) : string := replace_go pat rep 0 s.

(** [s.replace(pat, rep)] for a string [pat]: the first occurrence. *)
Definition replaceFirst (pat rep s : string) : string :=
  match Str.find false pat s with
  | Some i => Str.take i s +:+ rep +:+ Str.drop (i + String.length pat) s
  | None => s
  end.

Definition TAGS_IF : string := "t-if".
Definition TAGS_ELSE : string := "t-else".
Definition TAGS_ELIF : string := "t-elif".
Definition TAGS_FOR : string := "t-for".
Definition TAGS_WITH : string := "t-with".
Definition TAGS_TREE : string := "t-tree".
Definition TAGS_CHILDREN : string := "t-children".
Definition TAGS_INCLUDE : string := "t-include".
Definition TAGS_HTML : string := "t-html".

Definition TAGS : list string :=
  [TAGS_IF; TAGS_ELSE; TAGS_ELIF; TAGS_FOR; TAGS_WITH; TAGS_TREE;
   TAGS_CHILDREN; TAGS_INCLUDE; TAGS_HTML].

Record Options : Type := mkOptions {
  cache : bool;
  filename : option string
}.

(** [renderTemplateTag({tag}, children)] *)
Definition renderTemplateTag (tag children : string) : string :=
  "<!-- " +:+ Str.toUpperCase tag +:+ " BEGIN -->" +:+ nl +:+
  children +:+ nl +:+
  "<!-- " +:+ Str.toUpperCase tag +:+ " END -->".

(** The class [Node] declares no [line] property and nothing assigns
    one: [node.line] is [undefined]. *)
Definition Node_line (n : Node) : option nat := None.

(** [raiseTemplateError(options, node, e)]; it never returns. *)
Definition raiseTemplateError {A} (options : Options) (node : Node) (e : Exn)
  : Res A :=
  match e with
  | ParseError message lvl =>
      let level := lvl + 1 in
      match Node_line node with
      | None => undefined_read "toString"
      | Some line =>
          throw (ParseError
            (message +:+ nl +:+
             Str.padStart 5 (pretty line) +:+ ":" +:+
             Str.padStart level EmptyString +:+ " " +:+ Str.trim (_raw node))
            level)
      end
  | _ =>
      match Node_line node with
      | None => undefined_read "toString"
      | Some line =>
          let lineNumber := pretty line in
          let paddedLineNumber := Str.padStart 5 lineNumber in
          let raw := Str.trim (_raw node) in
          throw (ParseError
            (message_of e +:+ nl +:+
             default "undefined" (filename options) +:+ ":" +:+ lineNumber
             +:+ nl +:+
             paddedLineNumber +:+ ": " +:+ raw +:+ nl +:+
             Str.padStart (String.length paddedLineNumber + 2) EmptyString +:+
             Str.repeat "^" (String.length raw))
            0)
      end
  end.

(** *** [resolveExpression(content, context)] *)

(** [typeof value === 'object' && value.constructor &&
    value.constructor.name === 'Object'].  Reading [constructor] off
    [null] throws; an array's constructor is [Array]; a plain object
    inherits [Object] unless it has a [constructor] property of its
    own. *)
Definition is_plain_object (value : Value) : Res bool :=
  match value with
  | VNull =>
      throw (TypeError
        "Cannot read properties of null (reading 'constructor')")
  | VObject props =>
      match Obj.get "constructor" props with
      | None => ret true
      | Some c =>
          ret (JS.truthy c &&
               match c with
               | VObject cp =>
                   match Obj.get "name" cp with
                   | Some (VString n) => String.eqb n "Object"
                   | _ => false
                   end
               | _ => false
               end)
      end
  | _ => ret false
  end.

Section Interpolation.
Variable runner : Runner.

(** The callback of the replacement, for one [{{ exp }}] span. *)
Definition interpolate (context : Context) (exp : string) : Res string :=
    let! value := getExpressionValue runner context (Str.trim exp) in
    let! plain := is_plain_object value in
    let value :=
      if plain then VString (default "undefined" (JS.stringify value))
      else value in
    if JS.truthy (default VUndefined (Obj.get "__useRawHTML" context))
    then ret (JS.toString value)
    else ret (replaceAll ">" "&gt;" (replaceAll "<" "&lt;" (JS.toString value))).

Definition resolveExpression (content : string) (context : Context)
    : Res string :=
    snd (replace_all m_expression
           (fun _ exp (u : unit) => (u, interpolate context exp))
           content tt).
End Interpolation.

(** *** The interpreter *)

Definition fulfil {A} (a : A) : Async A := fun s => (s, Fulfilled a).
Definition reject {A} (e : Exn) : Async A := fun s => (s, Rejected e).

(** A synchronous step that may throw, inside an [async] function. *)
Definition lift {A B} (r : Res A) (k : A -> Async B) : Async B :=
  match r with inl e => reject e | inr a => k a end.

(** [attrs.hasOwnProperty(k)]; an attribute named [hasOwnProperty] hides
    the inherited method behind a string. *)
Definition hasOwn (k : string) (attrs : list (string * string)) : Res bool :=
  if Obj.hasOwnProperty "hasOwnProperty" attrs
  then throw (TypeError "attrs.hasOwnProperty is not a function")
  else ret (Obj.hasOwnProperty k attrs).

Definition missing_on (tag : string) : Exn :=
  Error ("Missing attribute " +:+ Str.dq +:+ "on" +:+ Str.dq +:+ " for " +:+ tag).

(** A built-in object is truthy. *)
Definition truthy (x : Got) : bool :=
  match x with
  | got v => JS.truthy v
  | native _ => true
  end.

(** The property [field] as [Object.prototype] has it: [__proto__] reads
    the prototype of the receiver, found at [self]. *)
Definition Object_member (self : list string) (field : string) : Got :=
  if String.eqb field "__proto__" then native self
  else if inherited field then native ["Object.prototype"; field]
  else got VUndefined.

(** [o[key]] for a plain object [o]. *)
Definition read (o : list (string * Value)) (key : string) : Got :=
  match Obj.get key o with
  | Some v => got v
  | None => Object_member ["Object.prototype"] key
  end.

Section Properties.
Variable platform : Platform.

(** A property that an array, a string, a number or a boolean does not
    have of its own is looked up on the prototype of its class, then on
    [Object.prototype]. *)
Definition class_member (class field : string) : Got :=
  if String.eqb field "__proto__" then native [class]
  else match member platform [class] field with
       | got VUndefined => Object_member [class] field
       | x => x
       end.

(** [v[field]] *)
Definition get_prop (v : Got) (field : string) : Res Got :=
  match v with
  | native path => ret (member platform path field)
  | got VUndefined => undefined_read field
  | got VNull =>
      throw (TypeError
        ("Cannot read properties of null (reading '" +:+ field +:+ "')"))
  | got (VObject props) => ret (read props field)
  | got (VArray items) =>
      if String.eqb field "length"
      then ret (got (VNumber (Z.of_nat (List.length items))))
      else match Obj.array_index field with
           | Some i => ret (got (default VUndefined (items !! N.to_nat i)))
           | None => ret (class_member "Array.prototype" field)
           end
  | got (VString t) =>
      if String.eqb field "length"
      then ret (got (VNumber (Z.of_nat (String.length t))))
      else match Obj.array_index field with
           | Some i =>
               ret (got (match String.get (N.to_nat i) t with
                         | Some c => VString (String c EmptyString)
                         | None => VUndefined
                         end))
           | None => ret (class_member "String.prototype" field)
           end
  | got (VNumber _) => ret (class_member "Number.prototype" field)
  | got (VBool _) => ret (class_member "Boolean.prototype" field)
  end.
End Properties.

(** [data.map]: the elements of an array.  [Array.prototype] is itself an
    array, an empty one; nothing else has a [map] method. *)
Definition elements (data : Got) : option (list Value) :=
  match data with
  | got (VArray items) => Some items
  | native ["Array.prototype"] => Some []
  | _ => None
  end.

(** [this.TREE_CACHE[treeId]], destructured into [children] and
    [varName]: those of the session; both [undefined] when the read
    finds a method or the prototype inherited from [Object.prototype],
    which have no such properties; [None] when the read gives
    [undefined]. *)
Definition session (t : gmap string Session) (treeId : string)
  : option (option (list ref) * option string) :=
  match t !! treeId with
  | Some (mkSession children varName) => Some (Some children, varName)
  | None => if inherited treeId then Some (None, None) else None
  end.

(** The session identifier of [renderTree]: the decimal text of
    [new Date().getTime()] followed by that of
    [Math.round(Math.random() * 1000)]. *)
Definition treeId_of (time rnd : N) : string := pretty time +:+ pretty rnd.

(** The identifier of the [k]-th directive to draw one. *)
Definition fresh_treeId (platform : Platform) (k : nat) : string :=
  treeId_of (now platform k) (random platform k).

(** [{...a, ...b}] *)
Definition spread (a b : Context) : Context :=
  fold_left (fun acc '(k, v) => Obj.put k v acc) b a.

Section Directives.
Variable runner : Runner.
Variable platform : Platform.
(** [parseElement] of the engine instance [this], for the recursive
    calls. *)
Variable parseElement : nat -> Options -> ref -> Context -> Async string.

Section Instance.
Variable this : nat.
Variable options : Options.

(** [async parseChildren(children, context)] *)
Definition parseChildren (children : list ref) (context : Context)
    : Async string :=
    fun s =>
      let '(s1, ps) :=
        start_all (fun element => parseElement this options element context)
                  children s in
      await_all ps
        (fun r => lift r (fun temp =>
           lift (resolveExpression runner (Str.concat temp) context) fulfil))
        s1.

(** The [for ... of] loop of [renderFor]. *)
Fixpoint for_loop (children : list ref) (context : Context)
    (varName : string) (items : list Value) (result : list string)
    : Async string :=
    match items with
    | [] => fulfil (Str.concat result)
    | item :: rest =>
        fun s =>
          let itemContext := Obj.put varName item context in
          let '(s1, p) := parseChildren children itemContext s in
          await p
            (fun r => lift r (fun parsedChildren =>
               for_loop children context varName rest
                        (result ++ [parsedChildren])%list))
            s1
    end.

(** [async renderFor(node, context)] *)
Definition renderFor (node : Node) (context : Context) : Async string :=
    lift (hasOwn "on" (_attrs node)) (fun has =>
      if negb has then reject (missing_on TAGS_FOR)
      else
        let expression := default "undefined" (Obj.get "on" (_attrs node)) in
        let temp := JS.split " " expression in
        let varName := default "undefined" (temp !! 0) in
        let operator := temp !! 1 in
        let dataName := temp !! 2 in
        let loopContext : Res Value :=
          match operator with
          | Some op =>
              if String.eqb op "of" then runForOf runner context varName dataName
              else if String.eqb op "in" then runForIn runner context varName dataName
              else ret VUndefined
          | None => ret VUndefined
          end in
        lift loopContext (fun lc =>
          lift (JS.iterate lc) (fun items =>
            for_loop (_children node) context varName items []))).

(** [async renderCondition(node, context)] *)
Definition renderCondition (r : ref) (node : Node) (context : Context)
    : Async string :=
    fun s =>
      let expression := default "undefined" (Obj.get "on" (_attrs node)) in
      match getExpressionValue runner context expression with
      | inl e => (s, Rejected e)
      | inr result =>
          match nextElement (heap s) r with
          | inl e => (s, Rejected e)
          | inr nextNode =>
              let s1 :=
                match nextNode with
                | Some nx =>
                    let tag := _tag (node_at s nx) in
                    if String.eqb tag TAGS_ELSE || String.eqb tag TAGS_ELIF
                    then set_heap
                           (update nx (with_condition (negb (JS.truthy result)))
                                   (heap s)) s
                    else s
                | None => s
                end in
              if negb (JS.truthy result) then (s1, Fulfilled "<!-- FALSE -->")
              else
                let '(s2, p) := parseChildren (_children node) context s1 in
                await p (fun r => lift r fulfil) s2
          end
      end.

(** [renderIf(node, context)] *)
Definition renderIf (r : ref) (node : Node) (context : Context)
    : Async string :=
    lift (hasOwn "on" (_attrs node)) (fun has =>
      if negb has then reject (missing_on TAGS_IF)
      else renderCondition r node context).

(** [renderElif(node, context)] *)
Definition renderElif (r : ref) (node : Node) (context : Context)
    : Async string :=
    lift (hasOwn "on" (_attrs node)) (fun has =>
      if negb has then reject (missing_on TAGS_ELIF)
      else
        match __condition__ node with
        | None => reject (Error "t-elif must after t-if or t-elif")
        | Some _ => renderCondition r node context
        end).

(** [async renderElse(node, context)] *)
Definition renderElse (node : Node) (context : Context) : Async string :=
    match __condition__ node with
    | None => reject (Error "t-else must after t-if or t-elif")
    | Some false => fulfil "<!-- FALSE -->"
    | Some true =>
        fun s =>
          let '(s1, p) := parseChildren (_children node) context s in
          await p (fun r => lift r fulfil) s1
    end.

(** The [for ... in] loop of [renderWith]. *)
Fixpoint with_loop (attrs : list (string * string)) (context : Context)
    (alias : Context) : Res Context :=
    match attrs with
    | [] => ret alias
    | (varName, expression) :: rest =>
        let! v := runCode runner ("return " +:+ expression) context in
        with_loop rest context (Obj.put varName v alias)
    end.

(** [async renderWith(node, context)] *)
Definition renderWith (node : Node) (context : Context) : Async string :=
    let attrs := Obj.entries (_attrs node) in
    match attrs with
    | [] => reject (Error "Must specify at least one attribute for t-with")
    | _ =>
        lift (hasOwn "on" (_attrs node)) (fun _ =>
          lift (with_loop attrs context []) (fun alias =>
            fun s =>
              let '(s1, p) :=
                parseChildren (_children node) (spread context alias) s in
              await p (fun r => lift r fulfil) s1))
    end.

(** [async renderTreeChildren(data, treeId, context)] *)
Definition renderTreeChildren (data : Got) (treeId : string)
    (context : Context) : Async string :=
    fun s =>
      match session (TREE_CACHE this s) treeId with
      | None =>
          (s, Rejected (TypeError
             "Cannot destructure property 'children' of 'this.TREE_CACHE[treeId]' as it is undefined."))
      | Some (children, varName) =>
          match elements data with
          | Some items =>
              let '(s1, ps) :=
                start_all
                  (fun item =>
                     match children with
                     | Some children =>
                         parseChildren children
                           (Obj.put (default "undefined" varName) item
                              (spread [("__tree_id__", VString treeId)] context))
                     | None =>
                         reject (TypeError
                           "Cannot read properties of undefined (reading 'map')")
                     end)
                  items s in
              await_all ps (fun r => lift r (fun temp => fulfil (Str.concat temp))) s1
          | None => (s, Rejected (TypeError "data.map is not a function"))
          end
      end.

(** [renderTree(node, context)]: not an [async] function; the session
    entry is written, [renderTreeChildren] is called, the entry is
    deleted and the promise is returned. *)
Definition renderTree (node : Node) (context : Context) : Async string :=
    lift (hasOwn "on" (_attrs node)) (fun has =>
      if negb has then reject (missing_on TAGS_TREE)
      else
        let expression := default "undefined" (Obj.get "on" (_attrs node)) in
        let parts := JS.split " as " expression in
        let treeName := default "undefined" (parts !! 0) in
        let varName := parts !! 1 in
        match Obj.get treeName context with
        | Some (VArray items) =>
            fun s =>
              let treeId := fresh_treeId platform (draws s) in
              let s0 :=
                mkState (heap s) (pstate s) (DOM_CACHE s) (engines s)
                        (S (draws s)) (renders s) in
              let s1 :=
                set_TREE_CACHE this
                  (<[treeId := mkSession (_children node) varName]>
                     (TREE_CACHE this s0)) s0 in
              let '(s2, result) :=
                renderTreeChildren (got (VArray items)) treeId context s1 in
              let s3 :=
                set_TREE_CACHE this (delete treeId (TREE_CACHE this s2)) s2 in
              (s3, result)
        | _ =>
            reject (Error ("Data must be an Array for t-tree: " +:+ treeName))
        end).

(** [renderChildren({attrs}, context)]: not an [async] function; it
    throws, or returns the empty text or the promise of
    [renderTreeChildren]. *)
Definition renderChildren (node : Node) (context : Context)
    : State -> State * Res (Promise string) :=
    fun s =>
      let treeId := JS.toString (default VUndefined (Obj.get "__tree_id__" context)) in
      let field :=
        match Obj.get "field" (_attrs node) with
        | Some f => if String.eqb f EmptyString then "children" else f
        | None => "children"
        end in
      match session (TREE_CACHE this s) treeId with
      | None =>
          (s, throw (TypeError
             "Cannot destructure property 'varName' of 'this.TREE_CACHE[treeId]' as it is undefined."))
      | Some (_, varName) =>
          let item := read context (default "undefined" varName) in
          match get_prop platform item field with
          | inl e => (s, inl e)
          | inr data =>
              if negb (truthy data) then (s, ret (Fulfilled EmptyString))
              else
                let '(s1, p) := renderTreeChildren data treeId context s in
                (s1, ret p)
          end
      end.

(** [async renderHTML({children}, context)] *)
Definition renderHTML (node : Node) (context : Context) : Async string :=
    fun s =>
      let '(s1, p) :=
        parseChildren (_children node)
                      (Obj.put "__useRawHTML" (VBool true) context) s in
      await p (fun r => lift r fulfil) s1.

End Instance.
End Directives.

Section Rendering.
Variable runner : Runner.
Variable platform : Platform.

(** [htmlParser.parse(content)] on the process's heap and placeholder
    table, the result being stored in [DOM_CACHE] when [store] is set;
    [None] when the parser's loop is cut short.  When the parser throws,
    what it has written to the placeholder table stays. *)
Definition parse_and_store (content : string) (store : bool) (s : State)
  : State * option (Res (list ref)) :=
  match parse content (heap s) (pstate s) with
  | None => (s, None)
  | Some (st, inl e) =>
      (mkState (heap s) st (DOM_CACHE s) (engines s) (draws s) (renders s),
       Some (inl e))
  | Some (st, inr (dom, h)) =>
      (mkState h st
               (if store
                then <[md5 platform content := dom]> (DOM_CACHE s)
                else DOM_CACHE s)
               (engines s) (draws s) (renders s),
       Some (inr dom))
  end.

(** [parseDOM(content, cache)] *)
Definition parseDOM (content : string) (cache : bool) (s : State)
  : State * option (Res (list ref)) :=
  if negb cache then parse_and_store content false s
  else match DOM_CACHE s !! md5 platform content with
       | Some dom => (s, Some (inr dom))
       | None => parse_and_store content true s
       end.

Section Body.
Variable parseElement : nat -> Options -> ref -> Context -> Async string.

(** [async render()] of the engine instance [this]. *)
Definition Engine_render (this : nat) (options : Options)
    (content : string) (context : Context) : Async string :=
    fun s =>
      match parseDOM content (cache options) s with
      | (s1, None) => (s1, Diverged)
      | (s1, Some (inl e)) => (s1, Rejected e)
      | (s1, Some (inr dom)) =>
          let '(s2, ps) :=
            start_all (fun element => parseElement this options element context)
                      dom s1 in
          await_all ps
            (fun r => lift r (fun html =>
               fulfil (replaceAll "}!}" "}}"
                         (replaceAll "{!{" "{{" (Str.concat html)))))
            s2
      end.

(** [new Engine(content, context, options)]: a fresh [TREE_CACHE]. *)
Definition Engine_new (s : State) : nat * State :=
    (List.length (engines s),
     mkState (heap s) (pstate s) (DOM_CACHE s) (engines s ++ [∅])%list
             (draws s) (renders s)).

(** [async render(filename, context, options)], the module's export. *)
Definition render (file : string) (context : Context) (options : Options)
    : Async string :=
    fun s =>
      let k := renders s in
      let s0 :=
        mkState (heap s) (pstate s) (DOM_CACHE s) (engines s) (draws s)
                (S k) in
      await (settled (readFile platform file))
        (fun r => lift r (fun content =>
           fun s1 =>
             let '(this, s2) := Engine_new s1 in
             let opts :=
               mkOptions (cache options)
                         (Some (default file (filename options))) in
             let '(s3, p) := Engine_render this opts content context s2 in
             await p
               (fun r => lift r (fun result =>
                  fulfil (replaceFirst "@{timestamp}@" (elapsed platform k) result)))
               s3))
        s0.

(** [async renderInclude({attrs}, context)] *)
Definition renderInclude (options : Options) (node : Node)
    (context : Context) : Async string :=
    lift (resolve platform (filename options) (Obj.get "file" (_attrs node)))
      (fun file =>
         fun s =>
           let '(s1, p) :=
             render file context (mkOptions (cache options) (Some file)) s in
           await p (fun r => lift r fulfil) s1).

(** The [catch] clause of [parseElement], applied to a rejection of the
    promise [p]. *)
Definition caught (options : Options) (node : Node) (p : Promise string)
  : Promise string :=
  on_reject (raiseTemplateError options node) p.

(** [return renderTemplateTag(node, await body)] inside the [try]. *)
Definition tagged (options : Options) (node : Node) (body : Async string)
  : Async string :=
  fun s =>
    let '(s1, p) := body s in
    let '(s2, q) :=
      await p
        (fun r => lift r (fun children =>
           fulfil (renderTemplateTag (_tag node) children)))
        s1 in
    (s2, caught options node q).

(** [return this.renderChildren(node, context)] inside the [try]: what
    [renderChildren] throws is caught; the promise it returns is returned
    without being awaited, so its rejection is not. *)
Definition returnChildren (this : nat) (options : Options) (node : Node)
  (context : Context) : Async string :=
  fun s =>
    match renderChildren runner platform parseElement this options node
            context s with
    | (s1, inl e) => (s1, caught options node (Rejected e))
    | (s1, inr p) => (s1, p)
    end.

(** The last case of [parseElement]: an element that is no directive. *)
Definition renderElement (this : nat) (options : Options) (node : Node)
  (context : Context) : Async string :=
  fun s =>
    let tag := _tag node in
    let '(s1, ps) :=
      start_all (fun child => parseElement this options child context)
                (_children node) s in
    let '(s2, q) :=
      await_all ps
        (fun r => lift r (fun childrenElements =>
           lift (resolveExpression runner (attrsString node) context)
             (fun parsedAttrs =>
                fulfil ("<" +:+ tag +:+ parsedAttrs +:+ ">" +:+
                        Str.concat childrenElements +:+
                        "</" +:+ tag +:+ ">"))))
        s1 in
    (s2, caught options node q).

(** The dispatch of [parseElement] on the tag. *)
Definition dispatch (this : nat) (options : Options) (r : ref) (node : Node)
  (context : Context) : Async string :=
  let tag := _tag node in
  if String.eqb tag TAGS_FOR then
    tagged options node
      (renderFor runner parseElement this options node context)
  else if String.eqb tag TAGS_IF then
    tagged options node
      (renderIf runner parseElement this options r node context)
  else if String.eqb tag TAGS_ELIF then
    tagged options node
      (renderElif runner parseElement this options r node context)
  else if String.eqb tag TAGS_ELSE then
    tagged options node
      (renderElse runner parseElement this options node context)
  else if String.eqb tag TAGS_WITH then
    tagged options node
      (renderWith runner parseElement this options node context)
  else if String.eqb tag TAGS_TREE then
    tagged options node
      (renderTree runner platform parseElement this options node context)
  else if String.eqb tag TAGS_CHILDREN then
    returnChildren this options node context
  else if String.eqb tag TAGS_INCLUDE then
    tagged options node (renderInclude options node context)
  else if String.eqb tag TAGS_HTML then
    tagged options node
      (renderHTML runner parseElement this options node context)
  else renderElement this options node context.

(** The body of [async parseElement(node, context)]. *)
Definition parseElement_body (this : nat) (options : Options) (r : ref)
  (context : Context) : Async string :=
  fun s =>
    let node := node_at s r in
    match _type node with
    | Some DOCUMENT_TYPE_NODE => (s, Fulfilled (_raw node))
    | Some TEXT_NODE | Some COMMENT_NODE | Some CDATA_SECTION_NODE =>
        (s, caught options node
              (settled (resolveExpression runner (_raw node) context)))
    | _ => dispatch this options r node context s
    end.
End Body.

(** [parseElement], with a bound on the depth of its recursion. *)
Fixpoint parseElement (fuel : nat) (this : nat) (options : Options)
    (r : ref) (context : Context) : Async string :=
    match fuel with
    | O => fun s => (s, Diverged)
    | S fuel' => parseElement_body (parseElement fuel') this options r context
    end.

(** Construct an engine and run its [render()] until the promise is
    settled. *)
Definition run_engine (fuel : nat) (content : string) (context : Context)
    (options : Options) (s : State) : State * option (Res string) :=
    let '(this, s1) := Engine_new s in
    let '(s2, p) :=
      Engine_render (parseElement fuel) this options content context s1 in
    settle p s2.

(** Call the module's [render] and run it until the promise is
    settled. *)
Definition run_render (fuel : nat) (file : string) (context : Context)
    (options : Options) (s : State) : State * option (Res string) :=
    let '(s1, p) := render (parseElement fuel) file context options s in
    settle p s1.
End Rendering.

End Engine.

(** ** A reference evaluator and platform

    Used where a property is exercised on a concrete template. *)

Module Sample.

(** Modelled from the spec: [coderunner.js] is missing; section 6 asks of
    the evaluator [evaluate(context, expression)] with property-path
    access ([a.b.c]), [iterate_of] yielding the elements of a sequence,
    [iterate_in] yielding the [{key, value}] pairs of a mapping, and
    [evaluateAssignment] for [t-with].  This evaluator reads property
    paths and nothing else, and of a value its own properties only: those
    of an object, the elements and the length of an array or a string. *)
Definition own (v : Value) (field : string) : Res Value :=
  match v with
  | VUndefined => htmlParser.undefined_read field
  | VNull =>
      throw (TypeError
        ("Cannot read properties of null (reading '" +:+ field +:+ "')"))
  | VObject props => ret (default VUndefined (htmlParser.Obj.get field props))
  | VArray items =>
      if String.eqb field "length" then ret (VNumber (Z.of_nat (List.length items)))
      else match htmlParser.Obj.array_index field with
           | Some i => ret (default VUndefined (items !! N.to_nat i))
           | None => ret VUndefined
           end
  | VString t =>
      if String.eqb field "length" then ret (VNumber (Z.of_nat (String.length t)))
      else match htmlParser.Obj.array_index field with
           | Some i =>
               ret (match String.get (N.to_nat i) t with
                    | Some c => VString (String c EmptyString)
                    | None => VUndefined
                    end)
           | None => ret VUndefined
           end
  | _ => ret VUndefined
  end.

Fixpoint walk (v : Value) (path : list string) : Res Value :=
  match path with
  | [] => ret v
  | field :: rest =>
      let! x := own v field in walk x rest
  end.

Definition evaluate (context : Context) (expression : string) : Res Value :=
  match JS.split "." expression with
  | [] => ret VUndefined
  | name :: rest =>
      match htmlParser.Obj.get name context with
      | Some v => walk v rest
      | None => throw (Error (name +:+ " is not defined"))
      end
  end.

Definition pairs (v : Value) : Value :=
  match v with
  | VObject props =>
      VArray (List.map (fun '(k, x) => VObject [("key", VString k); ("value", x)])
                       (htmlParser.Obj.entries props))
  | _ => VArray []
  end.

Definition runner : Runner :=
  mkRunner
    evaluate
    (fun context _ dataName => evaluate context (default "undefined" dataName))
    (fun context _ dataName =>
       let! v := evaluate context (default "undefined" dataName) in
       ret (pairs v))
    (fun code context => evaluate context (Str.drop 7 code)).

(** The built-in objects, as far as the samples go: the methods of arrays
    and strings that every version of the language has. *)
Definition builtins (path : list string) (field : string) : Got :=
  let methods (root : string) (names : list string) :=
    if existsb (String.eqb field) names then native [root; field]
    else got VUndefined in
  match path with
  | ["Array.prototype"] =>
      methods "Array.prototype"
        ["constructor"; "toString"; "concat"; "join"; "pop"; "push";
         "reverse"; "shift"; "slice"; "sort"; "splice"; "unshift";
         "indexOf"; "lastIndexOf"; "every"; "some"; "forEach"; "map";
         "filter"; "reduce"; "reduceRight"]
  | ["String.prototype"] =>
      methods "String.prototype"
        ["constructor"; "toString"; "valueOf"; "charAt"; "charCodeAt";
         "concat"; "indexOf"; "lastIndexOf"; "match"; "replace"; "search";
         "slice"; "split"; "substring"; "toLowerCase"; "toUpperCase";
         "trim"]
  | ["Number.prototype"] =>
      methods "Number.prototype"
        ["constructor"; "toString"; "valueOf"; "toFixed"; "toExponential";
         "toPrecision"; "toLocaleString"]
  | ["Boolean.prototype"] =>
      methods "Boolean.prototype" ["constructor"; "toString"; "valueOf"]
  | _ => got VUndefined
  end.

(** A platform whose clock stands still and whose random draws are all
    equal, with no files. *)
Definition platform : Platform :=
  mkPlatform
    (fun _ => 1700000000000%N)
    (fun _ => 42%N)
    (fun _ _ => throw (Error "no such file"))
    (fun _ => throw (Error "no such file"))
    (fun _ => "0.000000")
    (fun content => content)
    builtins.

End Sample.

(** * Properties *)

Import htmlParser Engine.

(** ** Strings *)

Lemma append_cons (c : ascii) (a b : string) :
  String c a +:+ b = String c (a +:+ b).
Proof. reflexivity. Qed.

Lemma append_empty_l (b : string) : EmptyString +:+ b = b.
Proof. reflexivity. Qed.

Ltac unfold_append := rewrite ?append_cons, ?append_empty_l in *.

Lemma append_empty_r (s : string) : s +:+ EmptyString = s.
Proof. induction s as [|c s IH]; unfold_append; congruence. Qed.

Lemma append_length (a b : string) :
  String.length (a +:+ b) = String.length a + String.length b.
Proof. induction a as [|c a IH]; unfold_append; simpl; congruence. Qed.


Lemma take_all (s : string) (n : nat) :
  String.length s <= n -> Str.take n s = s.
Proof.
  revert n. induction s as [|c s IH]; intros [|n] H; simpl in *;
    try reflexivity; try lia.
  f_equal. apply IH. lia.
Qed.


(** ** The tokenizer and the tree builder *)

(** An entity scanned from a text that is not empty is not empty: the
    loop of [parse] advances at every iteration. *)
Lemma scan_progress (b : bool) (c : ascii) (s : string) :
  1 <= String.length (scan b true (String c s)).
Proof.
  simpl. destruct (Ascii.eqb c "<"); simpl; [lia|].
  destruct (Ascii.eqb c ">"); destruct b; simpl; lia.
Qed.

Lemma drop_length (n : nat) (s : string) :
  String.length (Str.drop n s) = String.length s - n.
Proof.
  revert s. induction n as [|n IH]; intros [|c s]; simpl; auto.
Qed.

(** The loop of [parse] ends within as many iterations as the text has
    characters. *)
Lemma parse_loop_terminates (fuel : nat) :
  forall rest stack cur h st,
    String.length rest <= fuel ->
    parse_loop fuel rest stack cur h st <> None.
Proof.
  induction fuel as [|fuel IH]; intros rest stack cur h st Hlen.
  - destruct rest; simpl in *; [discriminate|lia].
  - destruct rest as [|c rest]; [discriminate|].
    cbn [parse_loop].
    destruct (loop_body _ _ _ _ _) as [st1 [e|[[stack1 cur1] h1]]];
      [discriminate|].
    apply IH. rewrite drop_length.
    unfold getNextEntity, Entity_new. cbn [e_data].
    pose proof (scan_progress false c rest). simpl String.length in *. lia.
Qed.

Lemma parse_terminates (content : string) (h : Heap) (st : PState) :
  parse content h st <> None.
Proof.
  unfold parse. destruct (alloc Node_empty h) as [tree h0].
  destruct (preProcess content st) as [st1 [e|masked]]; [discriminate|].
  pose proof (parse_loop_terminates (String.length masked) masked [tree]
                (Some tree) h0 st1 (le_n _)) as H.
  destruct (parse_loop _ _ _ _ _ _) as [[st2 [e|h1]]|]; congruence.
Qed.

(** ** Concrete templates *)

Definition quoted (s : string) : string := Str.dq +:+ s +:+ Str.dq.

(** [<t-if on="visible">A</t-if><t-else>B</t-else>] *)
Definition if_else_template : string :=
  "<t-if on=" +:+ quoted "visible" +:+ ">A</t-if><t-else>B</t-else>".

(** [<t-elif on="x">...</t-elif>] *)
Definition lone_elif_template : string :=
  "<t-elif on=" +:+ quoted "x" +:+ ">...</t-elif>".

Definition toString_of_undefined : Exn :=
  TypeError "Cannot read properties of undefined (reading 'toString')".

(** C4 (the code departs from it): a closing tag with no open element,
    followed by another tag, makes [parse] throw.  After the first
    closing tag the synthetic root is closed and current; the branch for
    a closed current node, whose comment says that a closing tag is
    discarded there, reads [currentNode.parent], which the root lacks. *)
Theorem parse_unmatched_close_throws :
  parse "</a></b>" [] initial_pstate
  = Some (initial_pstate,
          inl (TypeError
            "Cannot read properties of undefined (reading 'appendChild')")).
Proof. vm_compute. reflexivity. Qed.

(** C9 (the code departs from it): rendering a lone [t-elif] does not end
    in a structured template error naming the node.  [renderElif] throws
    its sequencing error, the handler of [parseElement] calls
    [raiseTemplateError], and that reads [node.line.toString()] on a Node
    that has no [line]: the render is rejected with that [TypeError],
    whatever the evaluator, the context and the options. *)
Theorem lone_elif_raises_TypeError (runner : Runner) (platform : Platform)
  (fuel : nat) (context : Context) (options : Options) :
  snd (run_engine runner platform (S fuel) lone_elif_template context options
                  initial_state)
  = Some (inl toString_of_undefined).
Proof.
  destruct options as [[|] file]; vm_compute; reflexivity.
Qed.

(** C7: the template [{!{x}!}] renders as [{{x}}] under every evaluator,
    also one that throws on every expression, so [x] is not evaluated;
    the text node itself renders to [{!{x}!}] unchanged, and the braces
    are restored by the replacement that [render] runs over the joined
    output. *)
Theorem literal_braces_round_trip (runner : Runner) (platform : Platform)
  (fuel : nat) (context : Context) (options : Options) :
  let '(s1, result) :=
    run_engine runner platform (S fuel) "{!{x}!}" context options
               initial_state in
  result = Some (inr "{{x}}") /\
  (exists text, heap s1 !! 1 = Some text /\ _raw text = "{!{x}!}" /\
     settle (snd (parseElement runner platform (S fuel) 0 options 1 context s1))
            s1
     = (s1, Some (inr "{!{x}!}"))).
Proof.
  destruct options as [[|] file]; vm_compute; (split; [reflexivity|]);
    eexists; (split; [reflexivity|]); split; reflexivity.
Qed.

(** ** Rendering in a fresh process *)

(** The state in which the first engine of a process starts to render. *)
Definition fresh_engine : State := snd (Engine_new initial_state).

Lemma parseDOM_fresh (platform : Platform) (content : string) (cache : bool)
  (dom : list ref) (h : Heap) (st : PState) :
  parse content [] initial_pstate = Some (st, inr (dom, h)) ->
  parseDOM platform content cache fresh_engine
  = (mkState h st (if cache then <[md5 platform content := dom]> ∅ else ∅)
             [∅] 0 0,
     Some (inr dom)).
Proof.
  intros Hp. unfold parseDOM, parse_and_store, fresh_engine.
  cbn [Engine_new snd initial_state heap pstate DOM_CACHE engines draws
       renders].
  rewrite lookup_empty, Hp. destruct cache; reflexivity.
Qed.

(** Symbolic evaluation of [run_engine] on a concrete template, for any
    evaluator: the parse is computed, the cache and the recursion beyond
    the depth [2] are abstracted. *)
Ltac start_fresh fuel :=
  unfold run_engine;
  change (Engine_new initial_state) with (0, fresh_engine);
  cbv beta iota; unfold Engine_render;
  erewrite parseDOM_fresh by (vm_compute; reflexivity);
  cbv beta iota; cbn [cache];
  match goal with
  | |- context [mkState _ _ ?d _ _ _] => generalize d; intro
  end;
  change (parseElement ?r ?p (S (S fuel)))
    with (parseElement_body r p
            (parseElement_body r p (parseElement r p fuel)));
  match goal with
  | |- context [parseElement ?r ?p fuel] =>
      generalize (parseElement r p fuel); intro
  end.

(** Reduce up to the evaluator call that blocks the computation, and
    replace the call by its value [H]. *)
Ltac evaluator_step gev H :=
  match goal with
  | |- context [fst ?t] =>
      let x := eval lazy head in t in change t with x
  | |- context [snd ?t] =>
      let x := eval lazy head in t in change t with x
  end;
  match goal with
  | |- context [gev ?c ?e] =>
      let c' := eval vm_compute in c in
      let e' := eval vm_compute in e in
      change (gev c e) with (gev c' e')
  end;
  rewrite H.

(** ** The conditional chain *)

(** Rendering [<t-if on="visible">A</t-if><t-else>B</t-else>] in a
    fresh process, [t-if] evaluates [visible] and the negation of its
    truthiness is recorded on the [t-else] that follows it at once; when
    [visible] is falsy the [t-if] block holds the false marker only and
    the [t-else] block holds [B]. *)
Lemma if_else_chain (runner : Runner) (platform : Platform) (fuel : nat)
  (context : Context) (options : Options) (v : Value) :
  getExpressionValue runner context "visible" = inr v ->
  (exists n,
     heap (fst (run_engine runner platform (S (S fuel)) if_else_template
                           context options initial_state)) !! 4 = Some n /\
     _tag n = TAGS_ELSE /\
     __condition__ n = Some (negb (JS.truthy v))) /\
  (JS.truthy v = false ->
   snd (run_engine runner platform (S (S fuel)) if_else_template context
                   options initial_state)
   = Some (inr (renderTemplateTag TAGS_IF "<!-- FALSE -->" +:+
                renderTemplateTag TAGS_ELSE "B"))).
Proof.
  intros H. destruct runner as [gev rfo rfi rc]. cbn [getExpressionValue] in H.
  destruct v as [| |[|]|[|p|p]|[|c t]|l|o];
    (split;
     [ start_fresh fuel; evaluator_step gev H; vm_compute;
       eexists; repeat split; reflexivity
     | intros Hv; try discriminate Hv;
       start_fresh fuel; evaluator_step gev H; vm_compute; reflexivity ]).
Qed.

(** The chain on a context whose [visible] is [false], with the reference
    evaluator. *)
Lemma if_else_chain_witness :
  getExpressionValue Sample.runner [("visible", VBool false)] "visible"
  = inr (VBool false) /\
  snd (run_engine Sample.runner Sample.platform 2 if_else_template
                  [("visible", VBool false)] (mkOptions true None)
                  initial_state)
  = Some (inr (renderTemplateTag TAGS_IF "<!-- FALSE -->" +:+
               renderTemplateTag TAGS_ELSE "B")).
Proof.
  split; [reflexivity|].
  apply (if_else_chain Sample.runner Sample.platform 0
           [("visible", VBool false)] (mkOptions true None) (VBool false)
           eq_refl).
  reflexivity.
Defined.

(** [<t-if on="visible">A</t-if><!--c--> <t-else>B</t-else>]: a comment
    and a blank between the two directives. *)
Definition if_gap_else_template : string :=
  "<t-if on=" +:+ quoted "visible" +:+ ">A</t-if><!--c--> <t-else>B</t-else>".

(** C6 (the code departs from it): when a comment and a text separate a
    [t-if] from its [t-else], nothing is recorded on the [t-else], which
    is the next element sibling.  The [nextElement] getter skips one node
    that is no element and returns the one after it unchecked, here the
    text; [renderCondition] finds no [t-else] tag on it and writes
    nothing; the [t-else] has no condition and throws its sequencing
    error, and the render is rejected, whatever the evaluator, the
    context and the options. *)
Theorem if_else_gap_rejected (runner : Runner) (platform : Platform)
  (fuel : nat) (context : Context) (options : Options) :
  let run :=
    run_engine runner platform (S (S fuel)) if_gap_else_template context
               options initial_state in
  snd run = Some (inl toString_of_undefined) /\
  nextElement (heap (fst run)) 1 = inr (Some 5) /\
  isElement (node_at (fst run) 5) = false /\
  next (heap (fst run)) 5 = inr (Some 6) /\
  _tag (node_at (fst run) 6) = "t-else" /\
  __condition__ (node_at (fst run) 6) = None.
Proof.
  cbv zeta. destruct runner as [gev rfo rfi rc].
  destruct (gev context "visible") as [e|v] eqn:H.
  - destruct e; repeat split;
      start_fresh fuel; evaluator_step gev H; vm_compute; reflexivity.
  - destruct v as [| |[|]|[|p|p]|[|c t]|l|o];
      repeat split;
      start_fresh fuel; evaluator_step gev H; vm_compute; reflexivity.
Qed.

(** ** Session identifiers *)

Lemma append_inj_length (a b c d : string) :
  String.length a = String.length c ->
  a +:+ b = c +:+ d -> a = c /\ b = d.
Proof.
  revert c. induction a as [|x a IH]; intros [|y c] Hlen Heq;
    simpl in *; try discriminate.
  - auto.
  - injection Heq as -> Heq. injection Hlen as Hlen.
    destruct (IH c Hlen Heq) as [-> ->]. auto.
Qed.

(** Two sibling [t-tree] directives that print their session
    identifier. *)
Definition two_trees_template : string :=
  "<t-tree on='a as x'>{{__tree_id__}}</t-tree>" +:+
  "<t-tree on='b as y'>{{__tree_id__}}</t-tree>".

(** C3 (as stated, refuted): with a clock that reads the same millisecond
    and equal random draws, the first and the second [t-tree] directive
    of a process get the same session identifier, and two sibling
    directives of one render run under that one identifier. *)
Lemma session_ids_collide :
  now Sample.platform 0 = now Sample.platform 1 /\
  (random Sample.platform 0 <= 1000)%N /\
  fresh_treeId Sample.platform 0 = fresh_treeId Sample.platform 1 /\
  snd (run_engine Sample.runner Sample.platform 3 two_trees_template
                  [("a", VArray [VNumber 1]); ("b", VArray [VNumber 1])]
                  (mkOptions false None) initial_state)
  = Some (inr (renderTemplateTag TAGS_TREE "170000000000042" +:+
               renderTemplateTag TAGS_TREE "170000000000042")).
Proof.
  split; [reflexivity|]. split; [vm_compute; discriminate|].
  split; vm_compute; reflexivity.
Qed.

(** C3 (amended): the identifier is the decimal text of the clock
    reading followed by the decimal text of the random draw; two
    identifiers whose clock readings have as many digits differ as soon
    as the readings or the draws differ. *)
Theorem session_ids_distinct (t1 r1 t2 r2 : N) :
  String.length (pretty t1) = String.length (pretty t2) ->
  (t1, r1) <> (t2, r2) ->
  treeId_of t1 r1 <> treeId_of t2 r2.
Proof.
  intros Hlen Hne Heq. unfold treeId_of in Heq.
  destruct (append_inj_length _ _ _ _ Hlen Heq) as [Ht Hr].
  apply (inj pretty) in Ht. apply (inj pretty) in Hr. congruence.
Qed.

Lemma session_ids_distinct_witness :
  treeId_of 1700000000000 42 <> treeId_of 1700000000000 43.
Proof.
  apply (session_ids_distinct 1700000000000 42 1700000000000 43).
  - reflexivity.
  - intros H. discriminate H.
Defined.

(** ** Interpolation *)

Section Matches.
Variable matcher : string -> option (string * string).

(** The matches that [gsub] hands to its callback, in order. *)
Fixpoint matches (skip : nat) (s : string) : list (string * string) :=
  match s with
  | EmptyString => []
  | String c s' =>
      match skip with
      | S k => matches k s'
      | O =>
          match matcher s with
          | Some (input, cap) =>
              (input, cap) :: matches (String.length input - 1) s'
          | None => matches 0 s'
          end
      end
  end.

(** A callback that throws on one of the matches makes the replacement
    throw. *)
Lemma gsub_throws {S : Type} (callback : string -> string -> SRes S string)
  (m : string * string) :
  (forall st, exists e, snd (callback (fst m) (snd m) st) = inl e) ->
  forall s skip st,
    In m (matches skip s) ->
    exists e, snd (gsub matcher callback skip s st) = inl e.
Proof.
  intros Hcb. induction s as [|c s IH]; intros skip st Hin; [destruct Hin|].
  cbn [matches gsub] in *. destruct skip as [|k]; [|eauto].
  destruct (matcher (String c s)) as [[input cap]|]; unfold sbind.
  - destruct (callback input cap st) as [st1 [e|r]] eqn:Hc;
      [eexists; reflexivity|].
    destruct Hin as [<-|Hin].
    + destruct (Hcb st) as [e He]. cbn [fst snd] in He.
      rewrite Hc in He. discriminate.
    + destruct (IH _ st1 Hin) as [e He].
      destruct (gsub _ _ _ s st1) as [st2 [e'|out]];
        [eexists; reflexivity|discriminate].
  - destruct (IH _ st Hin) as [e He].
    destruct (gsub _ _ _ s st) as [st2 [e'|out]];
      [eexists; reflexivity|discriminate].
Qed.
End Matches.

(** The expressions of the [{{ exp }}] spans of a text. *)
Definition spans (content : string) : list string :=
  List.map snd (matches m_expression 0 content).

Definition constructor_of_null : Exn :=
  TypeError "Cannot read properties of null (reading 'constructor')".

(** ** The tree-session store *)

Lemma TREE_CACHE_set (this : nat) (t : gmap string Session) (s : State) :
  this < List.length (engines s) ->
  TREE_CACHE this (set_TREE_CACHE this t s) = t.
Proof.
  intros Hlt. unfold TREE_CACHE, set_TREE_CACHE. cbn [engines].
  rewrite list_lookup_insert_eq by exact Hlt. reflexivity.
Qed.

Lemma TREE_CACHE_deleted (this : nat) (treeId : string) (s : State) :
  TREE_CACHE this (set_TREE_CACHE this (delete treeId (TREE_CACHE this s)) s)
    !! treeId = None.
Proof.
  unfold TREE_CACHE, set_TREE_CACHE. cbn [engines].
  destruct (decide (this < List.length (engines s))) as [Hlt|Hge].
  - rewrite list_lookup_insert_eq by exact Hlt. cbn [default].
    apply lookup_delete_eq.
  - rewrite list_insert_ge by lia.
    rewrite (lookup_ge_None_2 (engines s) this) by lia. apply lookup_empty.
Qed.

(** [renderTree] returns with the session entry already deleted and the
    promise of the body still pending: the entry exists only while the
    synchronous part of the rendering runs. *)
Lemma renderTree_deletes_before_settling (runner : Runner)
  (platform : Platform)
  (pe : nat -> Options -> ref -> Context -> Async string)
  (this : nat) (options : Options) (node : Node) (context : Context)
  (s : State) (items : list Value) :
  hasOwn "on" (_attrs node) = inr true ->
  Obj.get (default "undefined"
             (JS.split " as " (default "undefined" (Obj.get "on" (_attrs node)))
                !! 0))
          context
  = Some (VArray items) ->
  this < List.length (engines s) ->
  TREE_CACHE this
    (fst (renderTree runner platform pe this options node context s))
    !! fresh_treeId platform (draws s) = None /\
  exists k,
    snd (renderTree runner platform pe this options node context s)
    = Pending k.
Proof.
  intros Hon Hdata Hlt. unfold renderTree. rewrite Hon. cbn [lift negb].
  rewrite Hdata. unfold renderTreeChildren, session.
  rewrite TREE_CACHE_set by exact Hlt. rewrite lookup_insert_eq.
  cbn [elements].
  destruct (start_all _ items _) as [s1 ps]. cbn [await_all fst snd].
  split; [apply TREE_CACHE_deleted|]. eexists; reflexivity.
Qed.

Definition is_pending {A} (p : Promise A) : bool :=
  match p with Pending _ => true | _ => false end.

(** [<t-tree on="tree as item"><t-for on="x of xs"><t-children>
    </t-children></t-for></t-tree>] *)
Definition tree_for_template : string :=
  "<t-tree on=" +:+ quoted "tree as item" +:+ ">" +:+
  "<t-for on=" +:+ quoted "x of xs" +:+ ">" +:+
  "<t-children></t-children></t-for></t-tree>".

Definition tree_for_context : Context :=
  [("tree", VArray [VObject [("children", VArray [])]]);
   ("xs", VArray [VNumber 1; VNumber 2])].

(** C2 (the code departs from it): a [t-tree] whose body loops twice
    over a [t-children].  When the synchronous part of the render
    returns, the session store is empty again although the promise of
    the render is pending; the second iteration of the loop runs from
    the job queue, [renderChildren] finds no session under the
    identifier in its context, and the render is rejected. *)
Theorem tree_session_gone_before_body_completes :
  let run :=
    Engine_render Sample.platform (parseElement Sample.runner Sample.platform 6)
                  0 (mkOptions false None) tree_for_template tree_for_context
                  fresh_engine in
  draws (fst run) = 1 /\
  TREE_CACHE 0 (fst run) = ∅ /\
  is_pending (snd run) = true /\
  snd (renderChildren Sample.runner Sample.platform
         (parseElement Sample.runner Sample.platform 6) 0
         (mkOptions false None) (node_at (fst run) 3)
         (("__tree_id__", VString (fresh_treeId Sample.platform 0))
            :: tree_for_context)
         (fst run))
  = inl (TypeError
      "Cannot destructure property 'varName' of 'this.TREE_CACHE[treeId]' as it is undefined.") /\
  snd (settle (snd run) (fst run)) = Some (inl toString_of_undefined).
Proof.
  cbv zeta. repeat split; vm_compute; reflexivity.
Qed.

(** ** State invariants of the interpreter

    A promise keeps a property of the state when every continuation it
    will run preserves the property. *)

Section Keeps.
Variable I : State -> Prop.

Inductive keeps {A : Type} : Promise A -> Prop :=
| keeps_Fulfilled (a : A) : keeps (Fulfilled a)
| keeps_Rejected (e : Exn) : keeps (Rejected e)
| keeps_Diverged : keeps Diverged
| keeps_Pending (k : State -> State * Promise A) :
    (forall s, I s -> I (fst (k s))) ->
    (forall s, I s -> keeps (snd (k s))) ->
    keeps (Pending k).

Definition keeps_async {A : Type} (f : Async A) : Prop :=
  forall s, I s -> I (fst (f s)) /\ keeps (snd (f s)).

Lemma keeps_settled {A} (r : Res A) : keeps (settled r).
Proof. destruct r; constructor. Qed.

Lemma settle_keeps {A} (p : Promise A) :
  keeps p -> forall s, I s -> I (fst (settle p s)).
Proof.
  induction 1 as [a|e| |k Hk _ IH]; intros s Hs; cbn [settle fst]; auto.
  specialize (IH s Hs). specialize (Hk s Hs).
  destruct (k s) as [s1 p1]. cbn [fst snd] in *. apply IH, Hk.
Qed.

Lemma settle_all_keeps {A} (ps : list (Promise A)) :
  Forall keeps ps -> forall s, I s -> I (fst (settle_all ps s)).
Proof.
  induction 1 as [|p ps Hp Hps IH]; intros s Hs; cbn [settle_all fst]; auto.
  pose proof (settle_keeps p Hp s Hs) as H1.
  destruct (settle p s) as [s1 r]. cbn [fst] in H1.
  specialize (IH s1 H1). destruct (settle_all ps s1) as [s2 rs]. exact IH.
Qed.

Lemma fulfil_keeps {A} (a : A) : keeps_async (fulfil a).
Proof. intros s Hs. split; [exact Hs|constructor]. Qed.

Lemma reject_keeps {A} (e : Exn) : keeps_async (@reject A e).
Proof. intros s Hs. split; [exact Hs|constructor]. Qed.

Lemma lift_keeps {A B} (r : Res A) (k : A -> Async B) :
  (forall a, keeps_async (k a)) -> keeps_async (lift r k).
Proof. intros Hk. destruct r; cbn [lift]; [apply reject_keeps|apply Hk]. Qed.

Lemma await_keeps {A B} (p : Promise A) (k : Res A -> Async B) :
  keeps p -> (forall r, keeps_async (k r)) -> keeps_async (await p k).
Proof.
  intros Hp Hk s Hs. split; [exact Hs|]. cbn [await snd].
  constructor; intros s1 Hs1;
    pose proof (settle_keeps p Hp s1 Hs1) as H1;
    destruct (settle p s1) as [s2 [r|]]; cbn [fst snd] in *;
    try apply Hk; try assumption; constructor.
Qed.

Lemma await_all_keeps {A B} (ps : list (Promise A))
  (k : Res (list A) -> Async B) :
  Forall keeps ps -> (forall r, keeps_async (k r)) ->
  keeps_async (await_all ps k).
Proof.
  intros Hp Hk s Hs. split; [exact Hs|]. cbn [await_all snd].
  constructor; intros s1 Hs1;
    pose proof (settle_all_keeps ps Hp s1 Hs1) as H1;
    destruct (settle_all ps s1) as [s2 [r|]]; cbn [fst snd] in *;
    try apply Hk; try assumption; constructor.
Qed.

Lemma start_all_keeps {X A} (f : X -> Async A) (l : list X) :
  (forall x, keeps_async (f x)) ->
  forall s, I s ->
    I (fst (start_all f l s)) /\ Forall keeps (snd (start_all f l s)).
Proof.
  intros Hf. induction l as [|x l IH]; intros s Hs; cbn [start_all].
  - split; [exact Hs|constructor].
  - destruct (Hf x s Hs) as [H1 Hp]. destruct (f x s) as [s1 p].
    cbn [fst snd] in *. destruct (IH s1 H1) as [H2 Hps].
    destruct (start_all f l s1) as [s2 ps]. cbn [fst snd] in *.
    split; [exact H2|constructor; assumption].
Qed.

Lemma on_reject_keeps {A} (f : Exn -> Res A) (p : Promise A) :
  keeps p -> keeps (on_reject f p).
Proof.
  induction 1 as [a|e| |k Hk _ IH]; cbn [on_reject]; try constructor.
  - apply keeps_settled.
  - intros s Hs. specialize (Hk s Hs). destruct (k s) as [s1 p1]. exact Hk.
  - intros s Hs. specialize (IH s Hs). destruct (k s) as [s1 p1]. exact IH.
Qed.

End Keeps.

(** The interpreter keeps every property of the state that its
    elementary updates keep. *)

Section KeepsInterpreter.
Variable runner : Runner.
Variable platform : Platform.
Variable I : State -> Prop.
Hypothesis I_condition :
  forall s nx b, I s -> I (set_heap (update nx (with_condition b) (heap s)) s).
Hypothesis I_TREE_CACHE : forall s this t, I s -> I (set_TREE_CACHE this t s).
Hypothesis I_draws :
  forall s, I s ->
    I (mkState (heap s) (pstate s) (DOM_CACHE s) (engines s) (S (draws s))
               (renders s)).
Hypothesis I_renders :
  forall s, I s ->
    I (mkState (heap s) (pstate s) (DOM_CACHE s) (engines s) (draws s)
               (S (renders s))).
Hypothesis I_Engine_new : forall s, I s -> I (snd (Engine_new s)).
Hypothesis I_parseDOM :
  forall content cache s, I s -> I (fst (parseDOM platform content cache s)).

Section Step.
Variable pe : nat -> Options -> ref -> Context -> Async string.
Hypothesis pe_keeps : forall this options r context,
  keeps_async I (pe this options r context).

Ltac keeps_tac :=
  repeat first
    [ apply fulfil_keeps | apply reject_keeps
    | apply lift_keeps; intros
    | progress auto ].

Lemma parseChildren_keeps this options children context :
  keeps_async I (parseChildren runner pe this options children context).
Proof.
  intros s Hs. unfold parseChildren.
  destruct (start_all_keeps I _ children (fun x => pe_keeps this options x context) s Hs)
    as [H1 Hps].
  destruct (start_all _ children s) as [s1 ps]. cbn [fst snd] in *.
  apply await_all_keeps; auto. intros r. keeps_tac.
Qed.

Lemma for_loop_keeps this options children context varName items result :
  keeps_async I (for_loop runner pe this options children context varName items result).
Proof.
  revert result. induction items as [|item rest IH]; intros result; cbn [for_loop].
  - apply fulfil_keeps.
  - intros s Hs.
    destruct (parseChildren_keeps this options children (Obj.put varName item context) s Hs) as [H1 Hp].
    destruct (parseChildren _ _ _ _ _ _ s) as [s1 p]. cbn [fst snd] in *.
    apply await_keeps; auto. intros r. apply lift_keeps. intros a. apply IH.
Qed.

Lemma renderFor_keeps this options node context :
  keeps_async I (renderFor runner pe this options node context).
Proof.
  unfold renderFor. apply lift_keeps. intros has.
  destruct (negb has); [apply reject_keeps|].
  apply lift_keeps. intros lc. apply lift_keeps. intros items.
  apply for_loop_keeps.
Qed.

Lemma await_children_keeps this options children context :
  keeps_async I
    (fun s =>
       let '(s1, p) := parseChildren runner pe this options children context s in
       await p (fun r => lift r fulfil) s1).
Proof.
  intros s Hs.
  destruct (parseChildren_keeps this options children context s Hs) as [H1 Hp].
  destruct (parseChildren _ _ _ _ _ _ s) as [s1 p]. cbn [fst snd] in *.
  apply await_keeps; auto. intros r. apply lift_keeps. intros a. apply fulfil_keeps.
Qed.

Lemma renderCondition_keeps this options r node context :
  keeps_async I (renderCondition runner pe this options r node context).
Proof.
  intros s Hs. unfold renderCondition.
  destruct (getExpressionValue runner context _) as [e|result];
    [split; [exact Hs|constructor]|].
  destruct (nextElement (heap s) r) as [e|nextNode];
    [split; [exact Hs|constructor]|].
  match goal with
  | |- context [if negb _ then (?s1, _) else _] => assert (H1 : I s1)
  end.
  { destruct nextNode as [nx|]; [|exact Hs].
    destruct (_ || _); [apply I_condition|]; exact Hs. }
  destruct (negb (JS.truthy result)); [split; [exact H1|constructor]|].
  apply (await_children_keeps this options (_children node) context _ H1).
Qed.

Lemma renderIf_keeps this options r node context :
  keeps_async I (renderIf runner pe this options r node context).
Proof.
  unfold renderIf. apply lift_keeps. intros has.
  destruct (negb has); [apply reject_keeps|apply renderCondition_keeps].
Qed.

Lemma renderElif_keeps this options r node context :
  keeps_async I (renderElif runner pe this options r node context).
Proof.
  unfold renderElif. apply lift_keeps. intros has.
  destruct (negb has); [apply reject_keeps|].
  destruct (__condition__ node);
    [apply renderCondition_keeps|apply reject_keeps].
Qed.

Lemma renderElse_keeps this options node context :
  keeps_async I (renderElse runner pe this options node context).
Proof.
  unfold renderElse. destruct (__condition__ node) as [[|]|].
  - apply await_children_keeps.
  - apply fulfil_keeps.
  - apply reject_keeps.
Qed.

Lemma renderWith_keeps this options node context :
  keeps_async I (renderWith runner pe this options node context).
Proof.
  unfold renderWith. destruct (Obj.entries (_attrs node));
    [apply reject_keeps|].
  apply lift_keeps. intros _. apply lift_keeps. intros alias.
  apply await_children_keeps.
Qed.

Lemma renderHTML_keeps this options node context :
  keeps_async I (renderHTML runner pe this options node context).
Proof. unfold renderHTML. apply await_children_keeps. Qed.

Lemma renderTreeChildren_keeps this options data treeId context :
  keeps_async I (renderTreeChildren runner pe this options data treeId context).
Proof.
  intros s Hs. unfold renderTreeChildren.
  destruct (session (TREE_CACHE this s) treeId) as [[children varName]|];
    [|split; [exact Hs|constructor]].
  destruct (elements data) as [items|]; [|split; [exact Hs|constructor]].
  match goal with
  | |- context [start_all ?f items s] =>
      destruct (start_all_keeps I f items
                  ltac:(intros x; destruct children;
                        [apply parseChildren_keeps|apply reject_keeps]) s Hs)
        as [H1 Hps];
      destruct (start_all f items s) as [s1 ps]
  end.
  cbn [fst snd] in *. apply await_all_keeps; auto.
  intros r. apply lift_keeps. intros a. apply fulfil_keeps.
Qed.

Lemma renderTree_keeps this options node context :
  keeps_async I (renderTree runner platform pe this options node context).
Proof.
  unfold renderTree. apply lift_keeps. intros has.
  destruct (negb has); [apply reject_keeps|].
  destruct (Obj.get _ context) as [[]|]; try apply reject_keeps.
  intros s Hs.
  match goal with
  | |- context [renderTreeChildren _ _ _ _ ?d ?i ?c ?s1] =>
      assert (H1 : I s1) by (apply I_TREE_CACHE, I_draws, Hs);
      destruct (renderTreeChildren_keeps this options d i c s1 H1) as [H2 Hp];
      destruct (renderTreeChildren runner pe this options d i c s1) as [s2 p]
  end.
  cbn [fst snd] in *. split; [apply I_TREE_CACHE, H2|exact Hp].
Qed.

Lemma renderChildren_keeps this options node context s :
  I s ->
  I (fst (renderChildren runner platform pe this options node context s)) /\
  match snd (renderChildren runner platform pe this options node context s)
  with
  | inl _ => True
  | inr p => keeps I p
  end.
Proof.
  intros Hs. unfold renderChildren.
  destruct (session (TREE_CACHE this s) _) as [[children varName]|];
    [|split; [exact Hs|exact Logic.I]].
  destruct (get_prop _ _ _) as [e|data]; [split; [exact Hs|exact Logic.I]|].
  destruct (negb (truthy data)); [split; [exact Hs|constructor]|].
  match goal with
  | |- context [renderTreeChildren _ _ _ _ ?d ?i ?c s] =>
      destruct (renderTreeChildren_keeps this options d i c s Hs) as [H2 Hp];
      destruct (renderTreeChildren runner pe this options d i c s) as [s2 p]
  end.
  split; assumption.
Qed.

Lemma Engine_render_keeps this options content context :
  keeps_async I (Engine_render platform pe this options content context).
Proof.
  intros s Hs. unfold Engine_render.
  pose proof (I_parseDOM content (cache options) s Hs) as H1.
  destruct (parseDOM platform content (cache options) s) as [s1 [[e|dom]|]];
    cbn [fst] in H1; try (split; [exact H1|constructor]).
  match goal with
  | |- context [start_all ?f dom s1] =>
      destruct (start_all_keeps I f dom
                  ltac:(intros x; apply pe_keeps) s1 H1) as [H2 Hps];
      destruct (start_all f dom s1) as [s2 ps]
  end.
  cbn [fst snd] in *. apply await_all_keeps; auto.
  intros r. apply lift_keeps. intros a. apply fulfil_keeps.
Qed.

Lemma render_keeps file context options :
  keeps_async I (render platform pe file context options).
Proof.
  intros s Hs. unfold render.
  apply await_keeps; [apply keeps_settled| |apply I_renders, Hs].
  intros r. apply lift_keeps. intros content s1 Hs1.
  pose proof (I_Engine_new s1 Hs1) as H2.
  destruct (Engine_new s1) as [this s2]. cbn [snd] in H2.
  match goal with
  | |- context [Engine_render _ _ ?t ?o ?c ?x s2] =>
      destruct (Engine_render_keeps t o c x s2 H2) as [H3 Hp];
      destruct (Engine_render platform pe t o c x s2) as [s3 p]
  end.
  cbn [fst snd] in *. apply await_keeps; auto.
  intros r'. apply lift_keeps. intros a. apply fulfil_keeps.
Qed.

Lemma renderInclude_keeps options node context :
  keeps_async I (renderInclude platform pe options node context).
Proof.
  unfold renderInclude. apply lift_keeps. intros file s Hs.
  match goal with
  | |- context [render _ _ ?f ?c ?o s] =>
      destruct (render_keeps f c o s Hs) as [H1 Hp];
      destruct (render platform pe f c o s) as [s1 p]
  end.
  cbn [fst snd] in *. apply await_keeps; auto.
  intros r. apply lift_keeps. intros a. apply fulfil_keeps.
Qed.

Lemma caught_keeps options node (p : Promise string) :
  keeps I p -> keeps I (caught options node p).
Proof. apply on_reject_keeps. Qed.

Lemma tagged_keeps (options : Options) (node : Node) (body : Async string) :
  keeps_async I body -> keeps_async I (tagged options node body).
Proof.
  intros Hb s Hs. unfold tagged. destruct (Hb s Hs) as [H1 Hp].
  destruct (body s) as [s1 p]. cbn [fst snd] in *.
  match goal with
  | |- context [await p ?k s1] =>
      destruct (await_keeps I p k Hp
                  ltac:(intros r; apply lift_keeps; intros a; apply fulfil_keeps)
                  s1 H1) as [H2 Hq];
      destruct (await p k s1) as [s2 q]
  end.
  cbn [fst snd] in *. split; [exact H2|apply caught_keeps, Hq].
Qed.

Lemma returnChildren_keeps this options node context :
  keeps_async I (returnChildren runner platform pe this options node context).
Proof.
  intros s Hs. unfold returnChildren.
  destruct (renderChildren_keeps this options node context s Hs) as [H1 Hp].
  destruct (renderChildren runner platform pe this options node context s)
    as [s1 [e|p]]; cbn [fst snd] in *; (split; [exact H1|]).
  - apply caught_keeps. constructor.
  - exact Hp.
Qed.

Lemma renderElement_keeps this options node context :
  keeps_async I (renderElement runner pe this options node context).
Proof.
  intros s Hs. unfold renderElement.
  match goal with
  | |- context [start_all ?f ?l s] =>
      destruct (start_all_keeps I f l
                  ltac:(intros x; apply pe_keeps) s Hs) as [H1 Hps];
      destruct (start_all f l s) as [s1 ps]
  end.
  cbn [fst snd] in *.
  match goal with
  | |- context [await_all ps ?k s1] =>
      destruct (await_all_keeps I ps k Hps
                  ltac:(intros r; apply lift_keeps; intros a;
                        apply lift_keeps; intros b; apply fulfil_keeps)
                  s1 H1) as [H2 Hq];
      destruct (await_all ps k s1) as [s2 q]
  end.
  cbn [fst snd] in *. split; [exact H2|apply caught_keeps, Hq].
Qed.

Lemma dispatch_keeps this options r node context :
  keeps_async I (dispatch runner platform pe this options r node context).
Proof.
  unfold dispatch.
  repeat match goal with
         | |- context [if ?b then _ else _] => destruct b
         end;
    first [ apply returnChildren_keeps | apply renderElement_keeps
          | apply tagged_keeps ];
    first [ apply renderFor_keeps | apply renderIf_keeps
          | apply renderElif_keeps | apply renderElse_keeps
          | apply renderWith_keeps | apply renderTree_keeps
          | apply renderInclude_keeps | apply renderHTML_keeps ].
Qed.

Lemma parseElement_body_keeps this options r context :
  keeps_async I (parseElement_body runner platform pe this options r context).
Proof.
  intros s Hs. unfold parseElement_body.
  destruct (_type (node_at s r)) as [[]|];
    try (apply dispatch_keeps; exact Hs);
    (split; [exact Hs|]);
    first [ apply caught_keeps, keeps_settled | constructor ].
Qed.
End Step.

Lemma parseElement_keeps fuel this options r context :
  keeps_async I (parseElement runner platform fuel this options r context).
Proof.
  revert this options r context.
  induction fuel as [|fuel IH]; intros this options r context.
  - intros s Hs. split; [exact Hs|constructor].
  - cbn [parseElement]. apply parseElement_body_keeps. exact IH.
Qed.

Lemma run_engine_keeps fuel content context options s :
  I s -> I (fst (run_engine runner platform fuel content context options s)).
Proof.
  intros Hs. unfold run_engine.
  pose proof (I_Engine_new s Hs) as H1.
  destruct (Engine_new s) as [this s1]. cbn [snd] in H1.
  destruct (Engine_render_keeps (parseElement runner platform fuel)
              (parseElement_keeps fuel) this options content context s1 H1)
    as [H2 Hp].
  destruct (Engine_render _ _ _ _ _ _ s1) as [s2 p]. cbn [fst snd] in *.
  apply settle_keeps; assumption.
Qed.
End KeepsInterpreter.

(** ** Conditions on nodes *)

(** Every node of [h] is still in [h'], with the same condition. *)
Definition conditions_kept (h h' : Heap) : Prop :=
  forall x n, h !! x = Some n ->
    exists n', h' !! x = Some n' /\ __condition__ n' = __condition__ n.

Lemma conditions_kept_refl h : conditions_kept h h.
Proof. intros x n H. eauto. Qed.

Lemma conditions_kept_trans h1 h2 h3 :
  conditions_kept h1 h2 -> conditions_kept h2 h3 -> conditions_kept h1 h3.
Proof.
  intros H12 H23 x n H. destruct (H12 x n H) as [n2 [H2 E2]].
  destruct (H23 x n2 H2) as [n3 [H3 E3]]. exists n3. split; congruence.
Qed.

Lemma conditions_kept_alloc n h : conditions_kept h (snd (alloc n h)).
Proof.
  intros x m H. exists m. split; [|reflexivity]. cbn [alloc snd].
  apply lookup_app_l_Some, H.
Qed.

Lemma conditions_kept_update r f h :
  (forall n, __condition__ (f n) = __condition__ n) ->
  conditions_kept h (update r f h).
Proof.
  intros Hf x n H. unfold update. destruct (h !! r) as [m|] eqn:Hr; [|eauto].
  destruct (decide (r = x)) as [->|Hne].
  - exists (f m). rewrite list_lookup_insert_eq by (eapply lookup_lt_Some, H).
    split; [reflexivity|]. rewrite Hf. congruence.
  - exists n. rewrite list_lookup_insert_ne by exact Hne. auto.
Qed.

Lemma conditions_kept_appendChild this node h :
  conditions_kept h (appendChild this node h).
Proof.
  unfold appendChild. destruct (h !! this) as [t|]; [|apply conditions_kept_refl].
  eapply conditions_kept_trans; apply conditions_kept_update; reflexivity.
Qed.

Lemma conditions_kept_loop_body entity stack cur h st stack1 cur1 h1 st1 :
  loop_body entity stack cur h st = (st1, inr (stack1, cur1, h1)) ->
  conditions_kept h h1.
Proof.
  unfold loop_body, sbind, sret.
  destruct (Node_new entity st) as [st0 [e|n]]; [discriminate|].
  pose proof (conditions_kept_alloc n h) as Ha.
  destruct (alloc n h) as [node h0]. cbn [snd] in Ha.
  destruct (negb _).
  - destruct cur as [c|]; [|discriminate]. intros [= <- <- <- <-].
    eapply conditions_kept_trans; [exact Ha|apply conditions_kept_appendChild].
  - destruct cur as [c|]; [|discriminate].
    destruct (_closed _).
    + destruct (_parent _); [|discriminate]. intros [= <- <- <- <-].
      eapply conditions_kept_trans; [exact Ha|apply conditions_kept_appendChild].
    + destruct (e_state entity) as [[|]|].
      * intros [= <- <- <- <-].
        eapply conditions_kept_trans; [exact Ha|apply conditions_kept_appendChild].
      * destruct stack; intros [= <- <- <- <-];
          (eapply conditions_kept_trans;
           [exact Ha|apply conditions_kept_update; reflexivity]).
      * destruct stack; intros [= <- <- <- <-];
          (eapply conditions_kept_trans;
           [exact Ha|apply conditions_kept_update; reflexivity]).
Qed.

Lemma conditions_kept_parse_loop fuel :
  forall rest stack cur h st h1 st1,
    parse_loop fuel rest stack cur h st = Some (st1, inr h1) ->
    conditions_kept h h1.
Proof.
  induction fuel as [|fuel IH]; intros rest stack cur h st h1 st1;
    destruct rest as [|c rest]; cbn [parse_loop]; try discriminate.
  - intros [= <- <-]. apply conditions_kept_refl.
  - intros [= <- <-]. apply conditions_kept_refl.
  - destruct (loop_body _ _ _ _ _) as [st2 [e|[[stack2 cur2] h2]]] eqn:Hb;
      [discriminate|].
    intros H. eapply conditions_kept_trans.
    + eapply conditions_kept_loop_body, Hb.
    + eapply IH, H.
Qed.

Lemma conditions_kept_parse content h st dom h1 st1 :
  parse content h st = Some (st1, inr (dom, h1)) -> conditions_kept h h1.
Proof.
  unfold parse. pose proof (conditions_kept_alloc Node_empty h) as Ha.
  destruct (alloc Node_empty h) as [tree h0]. cbn [snd] in Ha.
  destruct (preProcess content st) as [st0 [e|masked]]; [discriminate|].
  destruct (parse_loop _ _ _ _ _ _) as [[st2 [e|h2]]|] eqn:Hl; try discriminate.
  intros [= <- <- <-]. eapply conditions_kept_trans; [exact Ha|].
  eapply conditions_kept_parse_loop, Hl.
Qed.

Lemma conditions_kept_parse_and_store platform content store s :
  conditions_kept (heap s)
    (heap (fst (parse_and_store platform content store s))).
Proof.
  unfold parse_and_store.
  destruct (parse content (heap s) (pstate s)) as [[st [e|[dom h]]]|] eqn:Hp;
    try apply conditions_kept_refl.
  cbn [fst heap]. eapply conditions_kept_parse, Hp.
Qed.

Lemma conditions_kept_parseDOM platform content cache s :
  conditions_kept (heap s) (heap (fst (parseDOM platform content cache s))).
Proof.
  unfold parseDOM.
  destruct (negb cache); [apply conditions_kept_parse_and_store|].
  destruct (DOM_CACHE s !! _);
    [apply conditions_kept_refl|apply conditions_kept_parse_and_store].
Qed.

(** The node [x] has a [__condition__] property of its own. *)
Definition has_condition (x : ref) (s : State) : Prop :=
  is_Some (__condition__ (node_at s x)).

Lemma has_condition_heap (x : ref) (s s' : State) :
  conditions_kept (heap s) (heap s') ->
  has_condition x s -> has_condition x s'.
Proof.
  unfold has_condition, node_at. intros Hk [b Hb].
  destruct (heap s !! x) as [n|] eqn:Hx; [|discriminate].
  destruct (Hk x n Hx) as [n' [-> Hc]]. simpl in *.
  rewrite Hc, Hb. eauto.
Qed.

Lemma has_condition_written (x nx : ref) (b : bool) (s : State) :
  has_condition x s ->
  has_condition x (set_heap (update nx (with_condition b) (heap s)) s).
Proof.
  unfold has_condition, node_at, set_heap, update. cbn [heap].
  intros H. destruct (heap s !! nx) as [n|] eqn:Hn; [|exact H].
  destruct (decide (nx = x)) as [->|Hne].
  - rewrite list_lookup_insert_eq by (eapply lookup_lt_Some, Hn).
    cbn. eauto.
  - rewrite list_lookup_insert_ne by exact Hne. exact H.
Qed.

Lemma has_condition_after_write (nx : ref) (b : bool) (s : State) :
  _tag (node_at s nx) <> EmptyString ->
  __condition__
    (node_at (set_heap (update nx (with_condition b) (heap s)) s) nx)
  = Some b.
Proof.
  unfold node_at, set_heap, update. cbn [heap]. intros Htag.
  destruct (heap s !! nx) as [n|] eqn:Hn; [|destruct Htag; reflexivity].
  rewrite list_lookup_insert_eq by (eapply lookup_lt_Some, Hn). reflexivity.
Qed.

Lemma parseElement_keeps_condition (runner : Runner) (platform : Platform)
  (x : ref) (fuel this : nat) (options : Options) (r : ref)
  (context : Context) :
  keeps_async (has_condition x)
    (parseElement runner platform fuel this options r context).
Proof.
  apply parseElement_keeps; intros.
  - apply has_condition_written. assumption.
  - assumption.
  - assumption.
  - assumption.
  - assumption.
  - eapply has_condition_heap; [apply conditions_kept_parseDOM|assumption].
Qed.

(** C1 (as stated, refuted): after a render with caching of the chain
    template under a falsy [visible], the forest stored in [DOM_CACHE]
    contains the [t-else] node, and that node carries the condition of
    the finished render as a property of its own. *)
Lemma cached_tree_retains_condition :
  let s :=
    fst (run_engine Sample.runner Sample.platform 2 if_else_template
                    [("visible", VBool false)] (mkOptions true None)
                    initial_state) in
  DOM_CACHE s !! md5 Sample.platform if_else_template = Some [1; 4] /\
  _tag (node_at s 4) = TAGS_ELSE /\
  __condition__ (node_at s 4) = Some true.
Proof. cbv zeta. repeat split; vm_compute; reflexivity. Qed.

(** C1 (amended): the outcome of an [if]/[elif] is written as the
    [__condition__] property of a Node itself.  The node is the one that
    the [nextElement] getter returns, the next sibling [n1] when it is an
    element and otherwise the sibling after [n1]; it is written when its
    tag is [t-else] or [t-elif], with the negation of the truthiness of
    the [on] expression, before anything else is rendered: a falsy
    result returns at once in the state so written, a truthy one renders
    the children from that state.  The property is still on the node
    when the rendering of the directive has settled, and no render
    removes a [__condition__] from a node. *)
Theorem condition_stored_on_node (runner : Runner) (platform : Platform)
  (fuel this : nat) (options : Options) (r : ref) (node : Node)
  (context : Context) (s : State) (result : Value) (n1 nx : ref) :
  getExpressionValue runner context
    (default "undefined" (Obj.get "on" (_attrs node))) = inr result ->
  next (heap s) r = inr (Some n1) ->
  (isElement (node_at s n1) = true /\ nx = n1) \/
  (isElement (node_at s n1) = false /\ next (heap s) n1 = inr (Some nx)) ->
  _tag (node_at s nx) = TAGS_ELSE \/ _tag (node_at s nx) = TAGS_ELIF ->
  let written :=
    set_heap (update nx (with_condition (negb (JS.truthy result))) (heap s))
             s in
  let run :=
    renderCondition runner (parseElement runner platform fuel) this options
                    r node context s in
  __condition__ (node_at written nx) = Some (negb (JS.truthy result)) /\
  run
  = (if JS.truthy result
     then
       let '(s2, p) :=
         parseChildren runner (parseElement runner platform fuel) this
                       options (_children node) context written in
       await p (fun r => lift r fulfil) s2
     else (written, Fulfilled "<!-- FALSE -->")) /\
  has_condition nx (fst (settle (snd run) (fst run))) /\
  (forall x fuel' content context' options' s0,
     has_condition x s0 ->
     has_condition x
       (fst (run_engine runner platform fuel' content context' options' s0))).
Proof.
  intros Hv Hn1 Hnx Htag written run.
  assert (Hnext : nextElement (heap s) r = inr (Some nx)).
  { unfold nextElement. rewrite Hn1. cbn [bind]. unfold node_at in Hnx.
    destruct (heap s !! n1) as [nn|]; cbn [default from_option id] in Hnx.
    - destruct Hnx as [[-> ->]|[-> Hnx]]; [reflexivity|exact Hnx].
    - destruct Hnx as [[Hel _]|[_ Hnx]]; [discriminate Hel|exact Hnx]. }
  assert (Hne : _tag (node_at s nx) <> EmptyString).
  { destruct Htag as [-> | ->]; discriminate. }
  assert (Htest : (String.eqb (_tag (node_at s nx)) TAGS_ELSE
                   || String.eqb (_tag (node_at s nx)) TAGS_ELIF) = true).
  { destruct Htag as [-> | ->]; reflexivity. }
  pose proof (has_condition_after_write nx (negb (JS.truthy result)) s Hne)
    as Hw.
  assert (Hs1 : has_condition nx written).
  { unfold has_condition, written. rewrite Hw. eauto. }
  assert (Hrun : run
            = (if JS.truthy result
               then
                 let '(s2, p) :=
                   parseChildren runner (parseElement runner platform fuel)
                                 this options (_children node) context
                                 written in
                 await p (fun r => lift r fulfil) s2
               else (written, Fulfilled "<!-- FALSE -->"))).
  { subst run written. unfold renderCondition. rewrite Hv, Hnext, Htest.
    destruct (JS.truthy result); reflexivity. }
  split; [exact Hw|]. split; [exact Hrun|]. split.
  - rewrite Hrun. destruct (JS.truthy result); [|exact Hs1].
    pose proof (await_children_keeps runner (has_condition nx)
                  (parseElement runner platform fuel)
                  (parseElement_keeps_condition runner platform nx fuel)
                  this options (_children node) context _ Hs1) as [H1 Hp].
    apply settle_keeps; assumption.
  - intros x fuel' content context' options' s0 H0.
    apply run_engine_keeps; intros; auto using has_condition_written.
    eapply has_condition_heap; [apply conditions_kept_parseDOM|assumption].
Qed.

(** The chain template, parsed in a fresh process: the state in which
    its nodes are rendered. *)
Definition if_else_parsed : State :=
  fst (parseDOM Sample.platform if_else_template true fresh_engine).

(** [<t-if on="visible">A</t-if> <t-else>B</t-else>], with a blank
    between the directives, parsed in a fresh process. *)
Definition if_blank_else_parsed : State :=
  fst (parseDOM Sample.platform
         ("<t-if on=" +:+ quoted "visible" +:+ ">A</t-if> <t-else>B</t-else>")
         true fresh_engine).

(** The [t-else] that follows the [t-if] at once, and the one that
    follows it after a text node, get the condition [true] when
    [visible] is [false]. *)
Lemma condition_stored_on_node_witness :
  __condition__
    (node_at
       (fst (renderCondition Sample.runner
               (parseElement Sample.runner Sample.platform 1) 0
               (mkOptions true None) 1 (node_at if_else_parsed 1)
               [("visible", VBool false)] if_else_parsed)) 4)
  = Some true /\
  __condition__
    (node_at
       (fst (renderCondition Sample.runner
               (parseElement Sample.runner Sample.platform 1) 0
               (mkOptions true None) 1 (node_at if_blank_else_parsed 1)
               [("visible", VBool false)] if_blank_else_parsed)) 5)
  = Some true.
Proof.
  split.
  - destruct (condition_stored_on_node Sample.runner Sample.platform 1 0
           (mkOptions true None) 1 (node_at if_else_parsed 1)
           [("visible", VBool false)] if_else_parsed (VBool false) 4 4)
      as [Hw [-> _]].
    + vm_compute. reflexivity.
    + vm_compute. reflexivity.
    + left. split; vm_compute; reflexivity.
    + left. vm_compute. reflexivity.
    + exact Hw.
  - destruct (condition_stored_on_node Sample.runner Sample.platform 1 0
           (mkOptions true None) 1 (node_at if_blank_else_parsed 1)
           [("visible", VBool false)] if_blank_else_parsed (VBool false) 4 5)
      as [Hw [-> _]].
    + vm_compute. reflexivity.
    + vm_compute. reflexivity.
    + right. split; vm_compute; reflexivity.
    + left. vm_compute. reflexivity.
    + exact Hw.
Defined.

(** ** Promises that do not depend on the state *)

(** Induction on the stages of a promise. *)
Definition Promise_stages {A : Type} (P : Promise A -> Prop)
  (HF : forall a, P (Fulfilled a)) (HR : forall e, P (Rejected e))
  (HD : P Diverged)
  (HP : forall k, (forall s, P (snd (k s))) -> P (Pending k))
  : forall p, P p :=
  fix go (p : Promise A) : P p :=
    match p with
    | Fulfilled a => HF a
    | Rejected e => HR e
    | Diverged => HD
    | Pending k => HP k (fun s => go (snd (k s)))
    end.

Lemma settle_caught {A} (f : Exn -> Res A) (p : Promise A) :
  forall s s' a,
    settle p s = (s', Some (inr a)) ->
    settle (on_reject f p) s = (s', Some (inr a)).
Proof.
  induction p as [a|e| |k IH] using Promise_stages; intros s s' x;
    cbn [settle on_reject]; try discriminate; auto.
  specialize (IH s). destruct (k s) as [s1 p1]. cbn [snd] in IH.
  cbn [settle]. apply IH.
Qed.

(** ** Templates without directives *)

Definition is_directive (tag : string) : bool :=
  existsb (String.eqb tag) TAGS.

Fixpoint gather (l : list (option string)) : option (list string) :=
  match l with
  | [] => Some []
  | Some x :: r => option_map (cons x) (gather r)
  | None :: _ => None
  end.

(** What [parseElement] computes for a node that holds no directive, as
    a function of the heap: it calls the resolver on the raw text of a
    text, comment or CDATA node and on [attrsString], and any node that
    is none of those nor a doctype goes through the last case of
    [parseElement].  [None] when a directive is met, when the resolver
    throws or when the tree is deeper than [fuel]. *)
Fixpoint reserialize (runner : Runner) (h : Heap) (context : Context)
  (fuel : nat) (r : ref) : option string :=
  match fuel with
  | O => None
  | S fuel' =>
      let node := default Node_empty (h !! r) in
      match _type node with
      | Some DOCUMENT_TYPE_NODE => Some (_raw node)
      | Some TEXT_NODE | Some COMMENT_NODE | Some CDATA_SECTION_NODE =>
          match resolveExpression runner (_raw node) context with
          | inr text => Some text
          | inl _ => None
          end
      | _ =>
          if is_directive (_tag node) then None
          else
            match gather (List.map (reserialize runner h context fuel')
                                   (_children node)),
                  resolveExpression runner (attrsString node) context with
            | Some parts, inr attrs =>
                Some ("<" +:+ _tag node +:+ attrs +:+ ">" +:+
                      Str.concat parts +:+ "</" +:+ _tag node +:+ ">")
            | _, _ => None
            end
      end
  end.

(** A promise that is fulfilled with [out] whenever it is settled, and
    leaves the state as it finds it. *)
Definition steady {A} (p : Promise A) (out : A) : Prop :=
  forall s, settle p s = (s, Some (inr out)).

Lemma steady_caught (options : Options) (node : Node) (p : Promise string)
  (out : string) :
  steady p out -> steady (caught options node p) out.
Proof. intros H s. apply settle_caught, H. Qed.

Lemma settle_all_steady {A} (ps : list (Promise A)) (outs : list A) :
  Forall2 steady ps outs ->
  forall s, settle_all ps s = (s, Some (inr outs)).
Proof.
  induction 1 as [|p out ps outs Hp _ IH]; intros s; cbn [settle_all];
    [reflexivity|].
  rewrite Hp, IH. reflexivity.
Qed.

Lemma dispatch_plain (runner : Runner) (platform : Platform)
  (pe : nat -> Options -> ref -> Context -> Async string)
  (this : nat) (options : Options) (r : ref) (node : Node)
  (context : Context) :
  is_directive (_tag node) = false ->
  dispatch runner platform pe this options r node context
  = renderElement runner pe this options node context.
Proof.
  unfold is_directive, TAGS, dispatch. cbn [existsb]. intros H.
  repeat (apply orb_false_elim in H; destruct H as [? H]).
  repeat match goal with
         | E : String.eqb _ _ = false |- _ => rewrite E; clear E
         end.
  reflexivity.
Qed.

Section Plain.
Variable runner : Runner.
Variable platform : Platform.
Variable context : Context.

Lemma start_all_steady (f : ref -> Async string) (g : ref -> option string)
  (s : State) :
  forall children outs,
    (forall r out, g r = Some out -> fst (f r s) = s /\ steady (snd (f r s)) out) ->
    gather (List.map g children) = Some outs ->
    fst (start_all f children s) = s /\
    Forall2 steady (snd (start_all f children s)) outs.
Proof.
  induction children as [|r children IH]; intros outs Hf Hg; cbn in Hg.
  - injection Hg as <-. split; [reflexivity|constructor].
  - destruct (g r) as [out|] eqn:Hr; [|discriminate].
    destruct (gather (List.map g children)) as [outs'|] eqn:Hrest;
      [|discriminate].
    injection Hg as <-. cbn [start_all].
    destruct (Hf r out Hr) as [H1 Hp]. destruct (f r s) as [s1 p].
    cbn [fst snd] in *. subst s1.
    destruct (IH outs' Hf eq_refl) as [H2 Hps].
    destruct (start_all f children s) as [s2 ps]. cbn [fst snd] in *.
    subst s2. split; [reflexivity|constructor; assumption].
Qed.

Lemma parseElement_plain (fuel : nat) :
  forall (this : nat) (options : Options) (r : ref) (s : State) (out : string),
    reserialize runner (heap s) context fuel r = Some out ->
    fst (parseElement runner platform fuel this options r context s) = s /\
    steady (snd (parseElement runner platform fuel this options r context s))
           out.
Proof.
  induction fuel as [|fuel IH]; intros this options r s out H;
    [discriminate|].
  cbn [reserialize] in H. cbn [parseElement]. unfold parseElement_body.
  fold (node_at s r) in H. set (node := node_at s r) in *.
  assert (Helement :
    (if is_directive (_tag node) then None
     else match gather (List.map (reserialize runner (heap s) context fuel)
                                 (_children node)),
                resolveExpression runner (attrsString node) context with
          | Some parts, inr attrs =>
              Some ("<" +:+ _tag node +:+ attrs +:+ ">" +:+
                    Str.concat parts +:+ "</" +:+ _tag node +:+ ">")
          | _, _ => None
          end) = Some out ->
    fst (dispatch runner platform (parseElement runner platform fuel)
           this options r node context s) = s /\
    steady (snd (dispatch runner platform (parseElement runner platform fuel)
                   this options r node context s)) out).
  { clear H. intros H.
    destruct (is_directive (_tag node)) eqn:Hd; [discriminate|].
    rewrite dispatch_plain by exact Hd. unfold renderElement.
    destruct (gather _) as [parts|] eqn:Hg; [|discriminate].
    destruct (resolveExpression runner (attrsString node) context)
      as [e|attrs] eqn:Ha; [discriminate|].
    injection H as <-.
    destruct (start_all_steady
                (fun child => parseElement runner platform fuel this options
                                child context)
                (reserialize runner (heap s) context fuel) s
                (_children node) parts
                ltac:(intros c o Hc; apply IH, Hc) Hg) as [H1 Hps].
    destruct (start_all _ (_children node) s) as [s1 ps].
    cbn [fst snd] in *. subst s1. cbn [await_all fst snd].
    split; [reflexivity|]. apply steady_caught. intros s'. cbn [settle].
    rewrite (settle_all_steady ps parts Hps s').
    reflexivity. }
  destruct (_type node) as [[]|]; try (apply Helement; exact H).
  - destruct (resolveExpression runner (_raw node) context) as [e|text];
      [discriminate|]. injection H as <-. split; [reflexivity|].
    intros s'. reflexivity.
  - destruct (resolveExpression runner (_raw node) context) as [e|text];
      [discriminate|]. injection H as <-. split; [reflexivity|].
    intros s'. reflexivity.
  - destruct (resolveExpression runner (_raw node) context) as [e|text];
      [discriminate|]. injection H as <-. split; [reflexivity|].
    intros s'. reflexivity.
  - injection H as <-. split; [reflexivity|]. intros s'. reflexivity.
Qed.
End Plain.

(** ** The serialisation that the amended claim describes

    Written from the words of the amended claim, to be compared with what
    the engine returns. *)

(** [<] and [>] written as [&lt;] and [&gt;]. *)
Definition escaped_char (c : ascii) : string :=
  if Ascii.eqb c "<" then "&lt;"
  else if Ascii.eqb c ">" then "&gt;"
  else String c EmptyString.

Fixpoint escaped (text : string) : string :=
  match text with
  | EmptyString => EmptyString
  | String c rest => escaped_char c +:+ escaped rest
  end.

(** The text that stands for a value: the JSON text of a plain object,
    the string of any other value.  [null] has none, and an object with
    a [constructor] property of its own is left out of the claim. *)
Definition shown (v : Value) : option string :=
  match v with
  | VNull => None
  | VObject props =>
      match Obj.get "constructor" props with
      | None => JS.stringify v
      | Some _ => None
      end
  | _ => Some (JS.toString v)
  end.

(** A span at the head of the text: [{{], an expression of one character
    at least that ends before the first [}}] after that character, and
    [}}].  Returns the expression and the length of the span. *)
Definition span_at (text : string) : option (string * nat) :=
  match text with
  | String "{" (String "{" (String c rest)) =>
      match Str.find false "}}" rest with
      | Some k => Some (String c (Str.take k rest), k + 5)
      | None => None
      end
  | _ => None
  end.

(** The text with every span replaced, from left to right, by what
    [value] gives for its expression; [None] when [value] gives nothing
    for one of them. *)
Fixpoint substituted (value : string -> option string) (skip : nat)
  (text : string) : option string :=
  match text with
  | EmptyString => Some EmptyString
  | String c rest =>
      match skip with
      | S k => substituted value k rest
      | O =>
          match span_at text with
          | Some (exp, n) =>
              match value exp, substituted value (n - 1) rest with
              | Some v, Some out => Some (v +:+ out)
              | _, _ => None
              end
          | None => option_map (String c) (substituted value 0 rest)
          end
      end
  end.

(** What a span is replaced by: the escaped text of the value of its
    expression, trimmed. *)
Definition span_value (runner : Runner) (context : Context) (exp : string)
  : option string :=
  match getExpressionValue runner context (Str.trim exp) with
  | inr v => option_map escaped (shown v)
  | inl _ => None
  end.

(** The attributes, each as a blank, the name, [=] and the value between
    double quotes. *)
Definition attribute_text (attrs : list (string * string)) : string :=
  Str.concat
    (List.map (fun '(name, value) =>
                 " " +:+ name +:+ "=" +:+ Str.dq +:+ value +:+ Str.dq)
              (Obj.entries attrs)).

(** The serialisation of a node: a doctype as its raw text; a text, a
    comment or a CDATA section as its raw text with the spans replaced;
    an element that is no directive as [<tag], its attributes with the
    spans replaced, [>], the serialisation of its children and [</tag>].
    [None] for a directive, for a processing instruction, when a span
    has no value and when the tree is deeper than [fuel]. *)
Fixpoint serialized (runner : Runner) (h : Heap) (context : Context)
  (fuel : nat) (r : ref) : option string :=
  match fuel with
  | O => None
  | S fuel' =>
      let node := default Node_empty (h !! r) in
      match _type node with
      | Some DOCUMENT_TYPE_NODE => Some (_raw node)
      | Some TEXT_NODE | Some COMMENT_NODE | Some CDATA_SECTION_NODE =>
          substituted (span_value runner context) 0 (_raw node)
      | Some ELEMENT_NODE =>
          if is_directive (_tag node) then None
          else
            match gather (List.map (serialized runner h context fuel')
                                   (_children node)),
                  substituted (span_value runner context) 0
                              (attribute_text (_attrs node)) with
            | Some parts, Some attrs =>
                Some ("<" +:+ _tag node +:+ attrs +:+ ">" +:+
                      Str.concat parts +:+ "</" +:+ _tag node +:+ ">")
            | _, _ => None
            end
      | _ => None
      end
  end.

Lemma escaped_replaceAll (text : string) :
  replaceAll ">" "&gt;" (replaceAll "<" "&lt;" text) = escaped text.
Proof.
  unfold replaceAll. induction text as [|c text IH]; [reflexivity|].
  cbn [escaped replace_go Str.starts Str.eqc String.length Nat.sub].
  unfold escaped_char. rewrite (Ascii.eqb_sym "<" c), andb_true_r.
  destruct (Ascii.eqb c "<") eqn:Hlt.
  - unfold_append. cbn [replace_go Str.starts Str.eqc String.length Nat.sub
                              Ascii.eqb Bool.eqb andb].
    rewrite IH. reflexivity.
  - cbn [replace_go Str.starts Str.eqc String.length Nat.sub].
    rewrite (Ascii.eqb_sym ">" c), andb_true_r.
    destruct (Ascii.eqb c ">"); unfold_append; rewrite IH; reflexivity.
Qed.

Lemma find_Some_length (ci : bool) (p s : string) (k : nat) :
  Str.find ci p s = Some k -> k + String.length p <= String.length s.
Proof.
  revert k. induction s as [|c s IH]; intros k; cbn [Str.find].
  - destruct (Str.starts ci p EmptyString) eqn:E; [|discriminate].
    intros [= <-]. destruct p; [simpl; lia|discriminate].
  - destruct (Str.starts ci p (String c s)) eqn:E.
    + intros [= <-]. clear IH. revert E.
      generalize (String c s). induction p as [|a p IHp]; intros t E;
        [simpl; lia|].
      destruct t as [|b t]; [discriminate|]. cbn [Str.starts] in E.
      apply andb_true_iff in E as [_ E]. specialize (IHp t E).
      simpl in *. lia.
    + destruct (Str.find ci p s) as [k'|]; [|discriminate].
      intros [= <-]. specialize (IH k' eq_refl). simpl. lia.
Qed.

Lemma take_length (n : nat) (s : string) :
  n <= String.length s -> String.length (Str.take n s) = n.
Proof.
  revert s. induction n as [|n IH]; intros [|c s] H; simpl in *;
    try reflexivity; try lia.
  rewrite IH by lia. reflexivity.
Qed.

(** The span of the claim is the match of the engine's expression. *)
Lemma m_expression_span_at (text : string) :
  m_expression text
  = match span_at text with
    | Some (exp, n) => Some (Str.take n text, exp)
    | None => None
    end.
Proof.
  destruct text as [|a text]; [reflexivity|].
  destruct (ascii_dec a "{") as [->|Ha];
    [|destruct a as [[] [] [] [] [] [] [] []]; try reflexivity;
      destruct Ha; reflexivity].
  destruct text as [|b text]; [reflexivity|].
  destruct (ascii_dec b "{") as [->|Hb];
    [|destruct b as [[] [] [] [] [] [] [] []]; try reflexivity;
      destruct Hb; reflexivity].
  unfold m_expression, span_at, lazy_until.
  destruct text as [|c rest]; [reflexivity|].
  destruct (Str.find false "}}" rest) as [k|]; [|reflexivity].
  replace (2 + (1 + k + String.length "}}")) with (k + 5) by (simpl; lia).
  reflexivity.
Qed.

Lemma span_at_length (text exp : string) (n : nat) :
  span_at text = Some (exp, n) -> String.length (Str.take n text) = n.
Proof.
  intros H. apply take_length.
  destruct text as [|a text]; [discriminate H|].
  destruct (ascii_dec a "{") as [->|Ha];
    [|destruct a as [[] [] [] [] [] [] [] []];
      try (cbv in H; discriminate H); destruct Ha; reflexivity].
  destruct text as [|b text]; [discriminate H|].
  destruct (ascii_dec b "{") as [->|Hb];
    [|destruct b as [[] [] [] [] [] [] [] []];
      try (cbv in H; discriminate H); destruct Hb; reflexivity].
  unfold span_at in H.
  destruct text as [|c rest]; [discriminate H|].
  destruct (Str.find false "}}" rest) as [k|] eqn:Hf; [|discriminate H].
  injection H as _ <-. apply find_Some_length in Hf. simpl in *. lia.
Qed.

Section Substitution.
Variable runner : Runner.
Variable context : Context.
Hypothesis Hraw :
  JS.truthy (default VUndefined (Obj.get "__useRawHTML" context)) = false.

Lemma interpolate_span_value (exp out : string) :
  span_value runner context exp = Some out ->
  interpolate runner context exp = inr out.
Proof.
  unfold span_value, interpolate.
  destruct (getExpressionValue runner context (Str.trim exp)) as [e|v];
    [discriminate|].
  cbn [bind]. rewrite Hraw. intros H.
  destruct v as [| |b|z|t|l|props]; cbn [shown option_map] in H;
    try discriminate H.
  1-5: injection H as <-; cbn [is_plain_object bind ret];
       rewrite escaped_replaceAll; reflexivity.
  cbn [is_plain_object].
  destruct (Obj.get "constructor" props); [discriminate H|].
  cbn [bind ret]. rewrite escaped_replaceAll.
  destruct (JS.stringify (VObject props)); [|discriminate H].
  injection H as <-. reflexivity.
Qed.

Lemma substituted_resolved (text : string) :
  forall skip out,
    substituted (span_value runner context) skip text = Some out ->
    snd (gsub m_expression
           (fun _ exp (u : unit) => (u, interpolate runner context exp))
           skip text tt)
    = inr out.
Proof.
  induction text as [|c rest IH]; intros skip out H.
  - injection H as <-. reflexivity.
  - cbn [substituted gsub] in *. destruct skip as [|k]; [|apply IH, H].
    rewrite m_expression_span_at.
    destruct (span_at (String c rest)) as [[exp n]|] eqn:Hs.
    + destruct (span_value runner context exp) as [v|] eqn:Hv;
        [|discriminate].
      destruct (substituted _ (n - 1) rest) as [out'|] eqn:Hr;
        [|discriminate].
      injection H as <-. unfold sbind, sret.
      rewrite (interpolate_span_value exp v Hv).
      rewrite (span_at_length _ _ _ Hs).
      specialize (IH (n - 1) out' Hr).
      destruct (gsub _ _ (n - 1) rest tt) as [u [e|o]]; cbn [snd] in *;
        [discriminate|]. injection IH as ->. reflexivity.
    + destruct (substituted _ 0 rest) as [out'|] eqn:Hr; [|discriminate].
      injection H as <-. unfold sbind, sret.
      specialize (IH 0 out' Hr).
      destruct (gsub _ _ 0 rest tt) as [u [e|o]]; cbn [snd] in *;
        [discriminate|]. injection IH as ->. reflexivity.
Qed.

Lemma resolveExpression_substituted (text out : string) :
  substituted (span_value runner context) 0 text = Some out ->
  resolveExpression runner text context = inr out.
Proof. apply substituted_resolved. Qed.
End Substitution.

Lemma append_assoc (a b c : string) : (a +:+ b) +:+ c = a +:+ (b +:+ c).
Proof. induction a as [|x a IH]; unfold_append; congruence. Qed.

Lemma join_blank (l : list string) :
  match l with
  | [] => EmptyString
  | _ => " " +:+ Str.join " " l
  end
  = Str.concat (List.map (fun x => " " +:+ x) l).
Proof.
  destruct l as [|x l]; [reflexivity|].
  revert x. induction l as [|y l IH]; intros x.
  - cbn [Str.join List.map Str.concat]. rewrite append_empty_r. reflexivity.
  - specialize (IH y). cbn [Str.join List.map Str.concat] in *.
    rewrite <- IH, append_assoc. reflexivity.
Qed.

Lemma attrsString_attribute_text (n : Node) :
  attrsString n = attribute_text (_attrs n).
Proof.
  unfold attrsString, attribute_text. rewrite join_blank.
  rewrite List.map_map. f_equal. apply List.map_ext. intros [k v].
  reflexivity.
Qed.

Lemma gather_map_impl {A} (f g : A -> option string) (l : list A) :
  (forall x o, f x = Some o -> g x = Some o) ->
  forall outs, gather (List.map f l) = Some outs ->
               gather (List.map g l) = Some outs.
Proof.
  intros Hfg. induction l as [|x l IH]; intros outs H; [exact H|].
  cbn [List.map gather] in *. destruct (f x) as [o|] eqn:Hx; [|discriminate].
  rewrite (Hfg x o Hx).
  destruct (gather (List.map f l)) as [outs'|]; [|discriminate].
  rewrite (IH outs' eq_refl). exact H.
Qed.

(** What the claim describes is what [parseElement] computes. *)
Lemma serialized_reserialize (runner : Runner) (h : Heap) (context : Context) :
  JS.truthy (default VUndefined (Obj.get "__useRawHTML" context)) = false ->
  forall fuel r out,
    serialized runner h context fuel r = Some out ->
    reserialize runner h context fuel r = Some out.
Proof.
  intros Hraw. induction fuel as [|fuel IH]; intros r out H; [discriminate|].
  cbn [serialized reserialize] in *.
  destruct (_type (default Node_empty (h !! r))) as [[]|]; try discriminate H.
  - destruct (is_directive _); [discriminate|].
    destruct (gather (List.map (serialized runner h context fuel) _))
      as [parts|] eqn:Hg; [|discriminate].
    rewrite (gather_map_impl _ _ _ IH parts Hg).
    destruct (substituted _ 0 (attribute_text _)) as [attrs|] eqn:Ha;
      [|discriminate].
    rewrite attrsString_attribute_text.
    rewrite (resolveExpression_substituted runner context Hraw _ _ Ha).
    exact H.
  - rewrite (resolveExpression_substituted runner context Hraw _ _ H).
    reflexivity.
  - rewrite (resolveExpression_substituted runner context Hraw _ _ H).
    reflexivity.
  - rewrite (resolveExpression_substituted runner context Hraw _ _ H).
    reflexivity.
  - exact H.
Qed.


(** [<p class='a'>x<br>y</p>]: single quotes and a [br] that is never
    closed. *)
Definition plain_template : string := "<p class='a'>x<br>y</p>".

(** C5 (as stated, refuted): a template with no directive and no
    expression is not returned unchanged: the attribute is quoted anew
    with double quotes, the text after [<br>] becomes its child and a
    closing tag is added. *)
Lemma plain_template_not_identity :
  snd (run_engine Sample.runner Sample.platform 4 plain_template []
                  (mkOptions false None) initial_state)
  = Some (inr ("<p class=" +:+ quoted "a" +:+ ">x<br>y</br></p>")) /\
  "<p class=" +:+ quoted "a" +:+ ">x<br>y</br></p>" <> plain_template.
Proof. split; [vm_compute; reflexivity|vm_compute; discriminate]. Qed.

(** C5 (amended): when the forest parsed from a template holds doctypes,
    texts, comments, CDATA sections and elements only, none of them a
    directive, and the context does not ask for raw output, rendering
    leaves the state of the parse as it is and returns the
    serialisations of the top-level nodes, joined, with the literal brace
    escapes restored: a doctype as its raw text; a text, comment or CDATA
    section as its raw text with every span replaced by the escaped text
    of its value; an element as its tag, each attribute as a blank, the
    name and the value in double quotes, its children and a closing
    tag. *)
Theorem plain_template_reserialized (runner : Runner) (platform : Platform)
  (fuel : nat) (content : string) (context : Context) (options : Options)
  (s s1 : State) (dom : list ref) (outs : list string) :
  parseDOM platform content (cache options) (snd (Engine_new s))
  = (s1, Some (inr dom)) ->
  JS.truthy (default VUndefined (Obj.get "__useRawHTML" context)) = false ->
  gather (List.map (serialized runner (heap s1) context fuel) dom)
  = Some outs ->
  run_engine runner platform fuel content context options s
  = (s1, Some (inr (replaceAll "}!}" "}}"
                      (replaceAll "{!{" "{{" (Str.concat outs))))).
Proof.
  intros Hdom Hraw Hout.
  apply (gather_map_impl _ (reserialize runner (heap s1) context fuel) _
           (serialized_reserialize runner (heap s1) context Hraw fuel))
    in Hout.
  unfold run_engine.
  destruct (Engine_new s) as [this s0]. cbn [snd] in Hdom.
  unfold Engine_render. rewrite Hdom.
  destruct (start_all_steady
              (fun element => parseElement runner platform fuel this options
                                element context)
              (reserialize runner (heap s1) context fuel) s1 dom outs
              ltac:(intros c o Hc; apply parseElement_plain, Hc) Hout)
    as [H1 Hps].
  destruct (start_all _ dom s1) as [s2 ps]. cbn [fst snd] in *. subst s2.
  cbn [await_all settle]. rewrite (settle_all_steady ps outs Hps s1).
  reflexivity.
Qed.

(** [<p class='a' id="b">{{v}}<br>y</p>] *)
Definition plain_spans_template : string :=
  "<p class='a' id=" +:+ quoted "b" +:+ ">{{v}}<br>y</p>".

Lemma plain_template_reserialized_witness :
  snd (run_engine Sample.runner Sample.platform 4 plain_spans_template
                  [("v", VString "<i>")] (mkOptions false None) initial_state)
  = Some (inr ("<p class=" +:+ quoted "a" +:+ " id=" +:+ quoted "b" +:+
               ">&lt;i&gt;<br>y</br></p>")).
Proof.
  rewrite (plain_template_reserialized Sample.runner Sample.platform 4
             plain_spans_template [("v", VString "<i>")]
             (mkOptions false None) initial_state
             (fst (parseDOM Sample.platform plain_spans_template false
                            fresh_engine))
             [1]
             ["<p class=" +:+ quoted "a" +:+ " id=" +:+ quoted "b" +:+
              ">&lt;i&gt;<br>y</br></p>"]).
  - reflexivity.
  - vm_compute. reflexivity.
  - reflexivity.
  - vm_compute. reflexivity.
Defined.

(** ** The shape of the node heap *)

(** A node without its condition. *)
Definition erase (n : Node) : Node :=
  mkNode (_children n) (_raw n) (_isElement n) (_type n) (_tag n) (_attrs n)
         (_closed n) (_index n) (_parent n) None.

Definition shape (h : Heap) : Heap := List.map erase h.

Definition nodeat (h : Heap) (r : ref) : Node := default Node_empty (h !! r).

Lemma nodeat_shape (h : Heap) (r : ref) :
  nodeat (shape h) r = erase (nodeat h r).
Proof.
  unfold nodeat, shape. rewrite list_lookup_fmap.
  destruct (h !! r); reflexivity.
Qed.

Lemma shape_lookup (h : Heap) (r : ref) :
  shape h !! r = erase <$> (h !! r).
Proof. unfold shape. apply list_lookup_fmap. Qed.

Lemma next_shape (h : Heap) (r : ref) : next (shape h) r = next h r.
Proof.
  unfold next. rewrite !shape_lookup. destruct (h !! r) as [n|]; [|reflexivity].
  cbn. destruct (_parent n) as [p|]; [|reflexivity].
  rewrite shape_lookup. destruct (h !! p); reflexivity.
Qed.

Lemma nextElement_shape (h : Heap) (r : ref) :
  nextElement (shape h) r = nextElement h r.
Proof.
  unfold nextElement. rewrite next_shape.
  destruct (next h r) as [e|[n|]]; cbn; try reflexivity.
  rewrite shape_lookup, next_shape. destruct (h !! n); reflexivity.
Qed.

(** ** Well-formed heaps

    The [_parent] and [_index] of a node say where the node is among the
    children of its parent, and conversely. *)
Record heap_wf (h : Heap) : Prop := mk_heap_wf {
  wf_parent : forall r n p,
    h !! r = Some n -> _parent n = Some p ->
    exists pn, h !! p = Some pn /\ _children pn !! _index n = Some r;
  wf_child : forall p pn i x,
    h !! p = Some pn -> _children pn !! i = Some x ->
    exists xn, h !! x = Some xn /\ _parent xn = Some p /\ _index xn = i
}.

Lemma next_Some (h : Heap) (r x : ref) :
  next h r = inr (Some x) ->
  exists n p pn, h !! r = Some n /\ _parent n = Some p /\ h !! p = Some pn /\
                 _children pn !! (_index n + 1) = Some x.
Proof.
  unfold next. destruct (h !! r) as [n|]; [|discriminate].
  destruct (_parent n) as [p|] eqn:Hp; [|discriminate].
  destruct (h !! p) as [pn|] eqn:Hpn; [|discriminate].
  intros [= H]. eauto 10.
Qed.

(** In a well-formed heap, a node whose next element is [x] comes before
    [x] among the children that contain [x]. *)
Lemma writer_precedes (h : Heap) (p r x : ref) (done todo : list ref) :
  heap_wf h ->
  _children (nodeat h p) = (done ++ x :: todo)%list ->
  nextElement h r = inr (Some x) ->
  In r done.
Proof.
  intros [Hpar Hch] HL Hnext. unfold nodeat in HL.
  destruct (h !! p) as [pn|] eqn:Hp; [|destruct done; discriminate].
  cbn in HL.
  assert (Hx : _children pn !! List.length done = Some x).
  { rewrite HL. rewrite lookup_app_r by lia.
    replace (List.length done - List.length done) with 0 by lia. reflexivity. }
  destruct (Hch p pn _ x Hp Hx) as [xn [Hxn [Hxp Hxi]]].
  assert (Hat : forall i, i < List.length done ->
                  forall y, _children pn !! i = Some y -> In y done).
  { intros i Hi y Hy. rewrite HL, lookup_app_l in Hy by exact Hi.
    apply list_elem_of_In. eapply list_elem_of_lookup_2, Hy. }
  unfold nextElement in Hnext.
  destruct (next h r) as [e|[n1|]] eqn:Hn; cbn in Hnext; try discriminate.
  apply next_Some in Hn as [rn [p0 [pn0 [Hr [Hrp [Hp0 Hc]]]]]].
  destruct (Hpar r rn p0 Hr Hrp) as [pn0' [Hp0' Hri]].
  assert (pn0' = pn0) by congruence. subst pn0'.
  destruct (match h !! n1 with Some nn => isElement nn | None => false end).
  - injection Hnext as ->.
    destruct (Hch p0 pn0 _ x Hp0 Hc) as [xn' [Hxn' [Hxp' Hxi']]].
    assert (xn' = xn) by congruence. subst xn'.
    assert (p0 = p) by congruence. subst p0.
    assert (pn0 = pn) by congruence. subst pn0.
    apply (Hat (_index rn)); [lia|exact Hri].
  - apply next_Some in Hnext as [n1n [p1 [pn1 [Hn1 [Hn1p [Hp1 Hc1]]]]]].
    destruct (Hch p0 pn0 _ n1 Hp0 Hc) as [n1n' [Hn1' [Hn1p' Hn1i']]].
    assert (n1n' = n1n) by congruence. subst n1n'.
    assert (p1 = p0) by congruence. subst p1.
    assert (pn1 = pn0) by congruence. subst pn1.
    destruct (Hch p0 pn0 _ x Hp0 Hc1) as [xn' [Hxn' [Hxp' Hxi']]].
    assert (xn' = xn) by congruence. subst xn'.
    assert (p0 = p) by congruence. subst p0.
    assert (pn0 = pn) by congruence. subst pn0.
    apply (Hat (_index rn)); [lia|exact Hri].
Qed.

(** ** Writers of conditions, and promises that can be fulfilled *)

Definition cond (s : State) (x : ref) : option bool :=
  __condition__ (node_at s x).

Definition cond_tag (tag : string) : bool :=
  String.eqb tag TAGS_IF || String.eqb tag TAGS_ELIF.

(** The node is one that [parseElement] dispatches on its tag. *)
Definition dispatches (n : Node) : bool :=
  match _type n with
  | Some DOCUMENT_TYPE_NODE | Some TEXT_NODE | Some COMMENT_NODE
  | Some CDATA_SECTION_NODE => false
  | _ => true
  end.

(** The node is rendered by [renderCondition]. *)
Definition writer_node (n : Node) : bool :=
  dispatches n && cond_tag (_tag n).

Definition else_tag (tag : string) : bool :=
  String.eqb tag TAGS_ELSE || String.eqb tag TAGS_ELIF.

(** [x] is a [t-else] or a [t-elif] that is the next element of a [t-if]
    or a [t-elif]. *)
Definition has_writer (h : Heap) (x : ref) : Prop :=
  else_tag (_tag (nodeat h x)) = true /\
  exists r, writer_node (nodeat h r) = true /\
            nextElement h r = inr (Some x).

(** A promise that can be fulfilled. *)
Definition viable {A} (p : Promise A) : Prop :=
  exists s s' a, settle p s = (s', Some (inr a)).

Lemma cond_eq_dec (a b : option bool) : {a = b} + {a <> b}.
Proof. repeat decide equality. Qed.

Lemma not_viable_Rejected {A} (e : Exn) : ~ viable (@Rejected A e).
Proof. intros [s [s' [a H]]]. discriminate. Qed.

Lemma not_viable_Diverged {A} : ~ viable (@Diverged A).
Proof. intros [s [s' [a H]]]. discriminate. Qed.

Lemma settle_on_reject_inv {A} (f : Exn -> Res A) (p : Promise A) :
  (forall e, exists e', f e = inl e') ->
  forall s s' a,
    settle (on_reject f p) s = (s', Some (inr a)) ->
    settle p s = (s', Some (inr a)).
Proof.
  intros Hf. induction p as [x|e| |k IH] using Promise_stages; intros s s' a;
    cbn [settle on_reject]; auto.
  - destruct (Hf e) as [e' ->]. discriminate.
  - specialize (IH s). destruct (k s) as [s1 p1]. cbn [snd settle] in *.
    apply IH.
Qed.

Lemma raise_always_throws (options : Options) (node : Node) (e : Exn) :
  exists e', @raiseTemplateError string options node e = inl e'.
Proof. destruct e; eexists; reflexivity. Qed.

Lemma settle_caught_inv options node (p : Promise string) s s' a :
  settle (caught options node p) s = (s', Some (inr a)) ->
  settle p s = (s', Some (inr a)).
Proof. apply settle_on_reject_inv, raise_always_throws. Qed.

Lemma viable_caught options node (p : Promise string) :
  viable (caught options node p) -> viable p.
Proof.
  intros [s [s' [a H]]]. exists s, s', a. apply settle_caught_inv in H. exact H.
Qed.

(** [settle_all] succeeds only when every member does. *)
Lemma settle_all_cons_inv {A} (p : Promise A) (ps : list (Promise A)) s sf l :
  settle_all (p :: ps) s = (sf, Some (inr l)) ->
  exists s1 a l', settle p s = (s1, Some (inr a)) /\
                  settle_all ps s1 = (sf, Some (inr l')) /\ l = a :: l'.
Proof.
  cbn [settle_all]. destruct (settle p s) as [s1 r] eqn:Hp.
  destruct (settle_all ps s1) as [s2 rs] eqn:Hps.
  destruct r as [[e|a]|]; destruct rs as [[e'|l']|]; intros [= <- <-].
  exists s1, a, l'. repeat split. exact Hps.
Qed.

Lemma viable_members {A} (ps : list (Promise A)) s sf l :
  settle_all ps s = (sf, Some (inr l)) -> Forall viable ps.
Proof.
  revert s l. induction ps as [|p ps IH]; intros s l H; [constructor|].
  apply settle_all_cons_inv in H as [s1 [a [l' [Hp [Hps ->]]]]].
  constructor; [exists s, s1, a; exact Hp|eapply IH, Hps].
Qed.

Lemma viable_await {A B} (p : Promise A) (k : A -> Async B) s0 :
  viable (snd (await p (fun r => lift r k) s0)) -> viable p.
Proof.
  intros [s [s' [b H]]]. cbn [await snd settle] in H.
  destruct (settle p s) as [s2 [[e|a]|]] eqn:Hp; try discriminate.
  exists s, s2, a. exact Hp.
Qed.

Lemma viable_await_all {A B} (ps : list (Promise A)) (k : list A -> Async B)
  s0 :
  viable (snd (await_all ps (fun r => lift r k) s0)) -> Forall viable ps.
Proof.
  intros [s [s' [b H]]]. cbn [await_all snd settle] in H.
  destruct (settle_all ps s) as [s2 [[e|a]|]] eqn:Hp; try discriminate.
  eapply viable_members, Hp.
Qed.

Lemma start_all_cons {X A} (f : X -> Async A) (x : X) (l : list X) s :
  start_all f (x :: l) s
  = (fst (start_all f l (fst (f x s))),
     snd (f x s) :: snd (start_all f l (fst (f x s)))).
Proof.
  cbn [start_all]. destruct (f x s) as [s1 p]. cbn [fst snd].
  destruct (start_all f l s1); reflexivity.
Qed.

Lemma shape_update_condition (nx : ref) (b : bool) (h : Heap) :
  shape (update nx (with_condition b) h) = shape h.
Proof.
  unfold update. destruct (h !! nx) as [n|] eqn:Hn; [|reflexivity].
  unfold shape. rewrite list_fmap_insert. apply list_insert_id.
  rewrite list_lookup_fmap, Hn. reflexivity.
Qed.

Lemma cond_update (nx x : ref) (b : bool) (s : State) :
  cond (set_heap (update nx (with_condition b) (heap s)) s) x
  = match heap s !! nx with
    | Some _ => if decide (x = nx) then Some b else cond s x
    | None => cond s x
    end.
Proof.
  unfold cond, node_at, set_heap, update. cbn [heap].
  destruct (heap s !! nx) as [n|] eqn:Hn; [|reflexivity].
  destruct (decide (x = nx)) as [->|Hne].
  - rewrite list_lookup_insert_eq by (eapply lookup_lt_Some, Hn). reflexivity.
  - rewrite list_lookup_insert_ne by congruence. reflexivity.
Qed.

Lemma shape_valid (h h' : Heap) (x : ref) :
  shape h = shape h' -> is_Some (h !! x) -> is_Some (h' !! x).
Proof.
  intros E [n Hn]. assert (Hs : shape h' !! x = Some (erase n)).
  { rewrite <- E, shape_lookup, Hn. reflexivity. }
  rewrite shape_lookup in Hs. destruct (h' !! x); [eauto|discriminate].
Qed.

(** The node [n] with another condition. *)
Definition recond (n : Node) (c : option bool) : Node :=
  mkNode (_children n) (_raw n) (_isElement n) (_type n) (_tag n) (_attrs n)
         (_closed n) (_index n) (_parent n) c.

Lemma node_recond (n m : Node) :
  erase n = erase m -> m = recond n (__condition__ m).
Proof. destruct n, m. unfold erase, recond. cbn. congruence. Qed.

Lemma recond_same (n : Node) : recond n (__condition__ n) = n.
Proof. destruct n; reflexivity. Qed.

Lemma dispatch_recond (runner : Runner) (platform : Platform)
  (pe : nat -> Options -> ref -> Context -> Async string)
  (this : nat) (options : Options) (r : ref) (n : Node) (c : option bool)
  (context : Context) :
  else_tag (_tag n) = false ->
  dispatch runner platform pe this options r (recond n c) context
  = dispatch runner platform pe this options r n context.
Proof.
  unfold else_tag, dispatch. cbn [recond _tag]. intros Helse.
  apply orb_false_elim in Helse as [He1 He2]. rewrite He1, He2.
  repeat match goal with
         | |- context [String.eqb (_tag n) ?x] =>
             destruct (String.eqb (_tag n) x)
         end; reflexivity.
Qed.

(** ** The parser builds well-formed heaps *)

Lemma update_lookup (r x : ref) (f : Node -> Node) (h : Heap) :
  update r f h !! x = if decide (x = r) then f <$> (h !! r) else h !! x.
Proof.
  unfold update. destruct (h !! r) as [n|] eqn:Hr.
  - destruct (decide (x = r)) as [->|Hne].
    + rewrite list_lookup_insert_eq by (eapply lookup_lt_Some, Hr).
      reflexivity.
    + rewrite list_lookup_insert_ne by congruence. reflexivity.
  - destruct (decide (x = r)) as [->|]; [rewrite Hr|]; reflexivity.
Qed.

(** What well-formedness reads of a node. *)
Definition links (n : Node) : list ref * option ref * nat :=
  (_children n, _parent n, _index n).

Lemma links_Some (h h' : Heap) (x : ref) (n : Node) :
  links <$> (h' !! x) = links <$> (h !! x) ->
  h' !! x = Some n ->
  exists m, h !! x = Some m /\ links m = links n.
Proof.
  intros E Hn. rewrite Hn in E. destruct (h !! x) as [m|]; [|discriminate].
  exists m. split; [reflexivity|]. cbn in E. congruence.
Qed.

Lemma heap_wf_links (h h' : Heap) :
  (forall x, links <$> (h' !! x) = links <$> (h !! x)) ->
  heap_wf h -> heap_wf h'.
Proof.
  intros E [Hpar Hch]. split.
  - intros r n p Hr Hp.
    destruct (links_Some h h' r n (E r) Hr) as [n0 [Hr0 L]].
    injection L as Lc Lp Li.
    destruct (Hpar r n0 p Hr0 ltac:(congruence)) as [pn0 [Hp0 Hc0]].
    pose proof (E p) as Ep. rewrite Hp0 in Ep.
    destruct (h' !! p) as [pn|]; [|discriminate].
    exists pn. split; [reflexivity|]. cbn in Ep. injection Ep as Ec _ _.
    rewrite Ec, <- Li. exact Hc0.
  - intros p pn i x Hp Hx.
    destruct (links_Some h h' p pn (E p) Hp) as [pn0 [Hp0 L]].
    injection L as Lc Lp Li.
    destruct (Hch p pn0 i x Hp0 ltac:(congruence)) as [xn0 [Hx0 [Hxp Hxi]]].
    pose proof (E x) as Ex. rewrite Hx0 in Ex.
    destruct (h' !! x) as [xn|]; [|discriminate].
    exists xn. split; [reflexivity|]. cbn in Ex. injection Ex as _ Ep Ei.
    split; congruence.
Qed.

Lemma heap_wf_shape (h : Heap) : heap_wf h -> heap_wf (shape h).
Proof.
  apply heap_wf_links. intros x. rewrite shape_lookup.
  destruct (h !! x); reflexivity.
Qed.

Lemma heap_wf_update (r : ref) (f : Node -> Node) (h : Heap) :
  (forall n, links (f n) = links n) ->
  heap_wf h -> heap_wf (update r f h).
Proof.
  intros Hf. apply heap_wf_links. intros x. rewrite update_lookup.
  destruct (decide (x = r)) as [->|]; [|reflexivity].
  destruct (h !! r); [|reflexivity]. cbn. rewrite Hf. reflexivity.
Qed.

Lemma heap_wf_nil : heap_wf [].
Proof. split; intros; discriminate. Qed.

Lemma heap_wf_alloc (n : Node) (h : Heap) :
  _parent n = None -> _children n = [] ->
  heap_wf h -> heap_wf (snd (alloc n h)).
Proof.
  intros Hp Hc [Hpar Hch]. cbn [alloc snd]. split.
  - intros r m p Hr Hm. apply lookup_app_Some in Hr as [Hr|[_ Hr]].
    + destruct (Hpar r m p Hr Hm) as [pn [Hpn Hx]].
      exists pn. split; [apply lookup_app_l_Some, Hpn|exact Hx].
    + destruct (r - List.length h) as [|k]; [|destruct k; discriminate].
      injection Hr as <-. congruence.
  - intros p pn i x Hpn Hx. apply lookup_app_Some in Hpn as [Hpn|[_ Hpn]].
    + destruct (Hch p pn i x Hpn Hx) as [xn [Hxn Hrest]].
      exists xn. split; [apply lookup_app_l_Some, Hxn|exact Hrest].
    + destruct (p - List.length h) as [|k]; [|destruct k; discriminate].
      injection Hpn as <-. rewrite Hc in Hx. discriminate.
Qed.

Lemma appendChild_lookup (this node x : ref) (h : Heap) (t : Node) :
  h !! this = Some t ->
  appendChild this node h !! x =
    if decide (x = this) then
      Some (with_children (_children t ++ [node])%list
              (if decide (this = node)
               then with_parent this (List.length (_children t)) t else t))
    else if decide (x = node)
         then with_parent this (List.length (_children t)) <$> (h !! node)
         else h !! x.
Proof.
  intros Ht. unfold appendChild. rewrite Ht. rewrite !update_lookup.
  destruct (decide (x = this)) as [->|Hx]; [|reflexivity].
  destruct (decide (this = node)) as [<-|Hn]; rewrite ?Ht; reflexivity.
Qed.

(** Appending a node that has no parent yet. *)
Lemma heap_wf_appendChild (this node : ref) (h : Heap) (nn : Node) :
  h !! node = Some nn -> _parent nn = None ->
  heap_wf h -> heap_wf (appendChild this node h).
Proof.
  intros Hnode Hnp Hwf.
  destruct (h !! this) as [t|] eqn:Ht;
    [|unfold appendChild; rewrite Ht; exact Hwf].
  pose proof (fun x => appendChild_lookup this node x h t Ht) as L.
  destruct Hwf as [Hpar Hch].
  assert (Hext : forall p pn0 i x,
            h !! p = Some pn0 -> _children pn0 !! i = Some x ->
            exists pn, appendChild this node h !! p = Some pn /\
                       _children pn !! i = Some x).
  { intros p pn0 i x Hp Hx. rewrite (L p).
    destruct (decide (p = this)) as [->|].
    - eexists. split; [reflexivity|]. cbn [with_children _children].
      apply lookup_app_l_Some. congruence.
    - destruct (decide (p = node)) as [->|]; [|eauto].
      rewrite Hnode. eexists. split; [reflexivity|]. cbn. congruence. }
  assert (Hkept : forall x xn0, h !! x = Some xn0 -> x <> node ->
            exists xn, appendChild this node h !! x = Some xn /\
                       _parent xn = _parent xn0 /\ _index xn = _index xn0).
  { intros x xn0 Hx Hne. rewrite (L x).
    destruct (decide (x = this)) as [->|].
    - destruct (decide (this = node)); [congruence|].
      eexists. split; [reflexivity|]. cbn. split; congruence.
    - destruct (decide (x = node)); [congruence|]. eauto. }
  assert (Hnew : exists xn, appendChild this node h !! node = Some xn /\
                   _parent xn = Some this /\
                   _index xn = List.length (_children t)).
  { rewrite (L node). destruct (decide (node = this)) as [->|].
    - destruct (decide (this = this)); [|congruence].
      eexists. split; [reflexivity|]. cbn. auto.
    - destruct (decide (node = node)); [|congruence].
      rewrite Hnode. eexists. split; [reflexivity|]. cbn. auto. }
  assert (Hthis : exists pn, appendChild this node h !! this = Some pn /\
                    _children pn = (_children t ++ [node])%list).
  { rewrite (L this). destruct (decide (this = this)); [|congruence].
    eexists. split; reflexivity. }
  assert (Hinv : forall x n, appendChild this node h !! x = Some n ->
            exists n0, h !! x = Some n0 /\ _children n0 = _children n \/
                       h !! x = Some n0 /\ x = this).
  { intros x n. rewrite (L x).
    destruct (decide (x = this)) as [->|]; [eauto|].
    destruct (decide (x = node)) as [->|].
    - rewrite Hnode. intros [= <-]. exists nn. left. auto.
    - intros Hx. exists n. left. auto. }
  assert (Hnot : forall x xn0, h !! x = Some xn0 ->
            is_Some (_parent xn0) -> x <> node).
  { intros x xn0 Hx [p Hp] ->. congruence. }
  split.
  - intros r n p Hr Hp.
    destruct (decide (r = node)) as [->|Hrn].
    + destruct Hnew as [xn [Hxn [Hxp Hxi]]]. rewrite Hxn in Hr.
      injection Hr as <-. assert (p = this) by congruence. subst p.
      destruct Hthis as [pn [Hpn Hc]]. exists pn. split; [exact Hpn|].
      rewrite Hc, Hxi. rewrite lookup_app_r by lia.
      rewrite Nat.sub_diag. reflexivity.
    + destruct (Hinv r n Hr) as [n0 Hr0].
      assert (Hr0' : h !! r = Some n0) by (destruct Hr0 as [[? _]|[? _]]; auto).
      destruct (Hkept r n0 Hr0' Hrn) as [xn [Hxn [Ep Ei]]].
      rewrite Hxn in Hr. injection Hr as ->.
      destruct (Hpar r n0 p Hr0' ltac:(congruence)) as [pn0 [Hp0 Hc0]].
      rewrite Ei. apply (Hext p pn0 _ r Hp0 Hc0).
  - intros p pn i x Hp Hx.
    assert (Hold : forall pn0, h !! p = Some pn0 ->
              _children pn0 !! i = Some x ->
              exists xn, appendChild this node h !! x = Some xn /\
                         _parent xn = Some p /\ _index xn = i).
    { intros pn0 Hp0 Hx0.
      destruct (Hch p pn0 i x Hp0 Hx0) as [xn0 [Hxn0 [Hxp Hxi]]].
      destruct (Hkept x xn0 Hxn0 (Hnot x xn0 Hxn0 ltac:(eauto)))
        as [xn [Hxn [Ep Ei]]].
      exists xn. split; [exact Hxn|]. split; congruence. }
    destruct (decide (p = this)) as [->|Hpt].
    + destruct Hthis as [pn' [Hpn' Hc]]. rewrite Hpn' in Hp.
      injection Hp as ->. rewrite Hc in Hx.
      apply lookup_app_Some in Hx as [Hx|[Hle Hx]];
        [apply (Hold t Ht Hx)|].
      destruct (i - List.length (_children t)) as [|k] eqn:Hk;
        [|destruct k; discriminate].
      injection Hx as <-. destruct Hnew as [xn [Hxn [Hxp Hxi]]].
      exists xn. split; [exact Hxn|]. split; [exact Hxp|]. lia.
    + destruct (Hinv p pn Hp) as [pn0 [[Hp0 Hc]|[_ ?]]]; [|congruence].
      apply (Hold pn0 Hp0). rewrite Hc. exact Hx.
Qed.

Lemma _resolve_links (this : Node) (entity : Entity) (st st' : PState)
  (n : Node) :
  _resolve this entity st = (st', inr n) -> links n = links this.
Proof.
  unfold _resolve, sbind, sret, sthrow.
  destruct (e_data entity) as [|a r]; [discriminate|].
  destruct a as [[] [] [] [] [] [] [] []]; try discriminate.
  destruct (fst _); [discriminate|].
  destruct (decode _ _ st) as [st1 [e|tag]]; [discriminate|].
  destruct (resolve_attrs _ _ st1) as [st2 [e|attrs]]; [discriminate|].
  intros [= <- <-]. reflexivity.
Qed.

(** A node just constructed has no parent and no children. *)
Lemma Node_new_links (entity : Entity) (st st' : PState) (n : Node) :
  Node_new entity st = (st', inr n) ->
  _parent n = None /\ _children n = [].
Proof.
  unfold Node_new, sbind.
  set (this := mkNode _ _ _ _ _ _ _ _ _ _).
  assert (Hthis : forall st0 st1 m,
            (if isElement this then _resolve this entity else sret this) st0
            = (st1, inr m) -> links m = links this).
  { intros st0 st1 m. destruct (isElement this).
    - apply _resolve_links.
    - unfold sret. intros [= <- <-]. reflexivity. }
  destruct ((if isElement this then _resolve this entity else sret this) st)
    as [st1 [e|m]] eqn:Hm; [discriminate|].
  apply Hthis in Hm. injection Hm as Hc Hp Hi.
  destruct (decode _ _ st1) as [st2 [e|r1]]; [discriminate|].
  destruct (decode _ _ st2) as [st3 [e|r2]]; [discriminate|].
  unfold sret. intros [= <- <-]. cbn. split; assumption.
Qed.

Lemma heap_wf_loop_body entity stack cur h st stack1 cur1 h1 st1 :
  loop_body entity stack cur h st = (st1, inr (stack1, cur1, h1)) ->
  heap_wf h -> heap_wf h1.
Proof.
  unfold loop_body, sbind, sret. intros Hb Hwf.
  destruct (Node_new entity st) as [st0 [e|n]] eqn:Hn; [discriminate|].
  apply Node_new_links in Hn as [Hp Hc].
  pose proof (heap_wf_alloc n h Hp Hc Hwf) as Ha.
  assert (Hnode : snd (alloc n h) !! fst (alloc n h) = Some n).
  { cbn [alloc fst snd]. rewrite lookup_app_r by lia.
    rewrite Nat.sub_diag. reflexivity. }
  destruct (alloc n h) as [node h0]. cbn [fst snd] in *.
  pose proof (fun this => heap_wf_appendChild this node h0 n Hnode Hp Ha)
    as Happ.
  assert (Hclose : forall c, heap_wf (update c (with_closed true) h0)).
  { intros c. apply heap_wf_update; [reflexivity|exact Ha]. }
  revert Hb. unfold undefined_read, throw. destruct (negb _).
  - destruct cur as [c|]; [|intros E; discriminate E].
    intros [= <- <- <- <-]. apply Happ.
  - destruct cur as [c|]; [|intros E; discriminate E].
    destruct (_closed _).
    + destruct (_parent (default _ _)); [|intros E; discriminate E].
      intros [= <- <- <- <-]. apply Happ.
    + destruct (e_state entity) as [[|]|].
      * intros [= <- <- <- <-]. apply Happ.
      * destruct stack; intros [= <- <- <- <-]; apply Hclose.
      * destruct stack; intros [= <- <- <- <-]; apply Hclose.
Qed.

Lemma heap_wf_parse_loop fuel :
  forall rest stack cur h st h1 st1,
    parse_loop fuel rest stack cur h st = Some (st1, inr h1) ->
    heap_wf h -> heap_wf h1.
Proof.
  induction fuel as [|fuel IH]; intros rest stack cur h st h1 st1;
    destruct rest as [|c rest]; cbn [parse_loop]; try discriminate.
  - intros [= <- <-]. auto.
  - intros [= <- <-]. auto.
  - destruct (loop_body _ _ _ _ _) as [st2 [e|[[stack2 cur2] h2]]] eqn:Hb;
      [discriminate|].
    intros H Hwf. eapply IH; [exact H|].
    eapply heap_wf_loop_body; eassumption.
Qed.

(** What [parse] returns is the list of children of a node of a
    well-formed heap. *)
Lemma heap_wf_parse content h st dom h1 st1 :
  parse content h st = Some (st1, inr (dom, h1)) ->
  heap_wf h ->
  heap_wf h1 /\ dom = _children (nodeat h1 (List.length h)).
Proof.
  unfold parse. intros Hp Hwf.
  pose proof (heap_wf_alloc Node_empty h eq_refl eq_refl Hwf) as Ha.
  cbn [alloc snd] in *.
  destruct (preProcess content st) as [st0 [e|masked]]; [discriminate|].
  destruct (parse_loop _ _ _ _ _ _) as [[st2 [e|h2]]|] eqn:Hl;
    try discriminate.
  injection Hp as <- <- <-. split; [|reflexivity].
  eapply heap_wf_parse_loop; eassumption.
Qed.

(** ** Rendering a cached tree again *)

(** [render()] once [parseDOM] has returned [dom]. *)
Definition render_dom (runner : Runner) (platform : Platform) (fuel : nat)
  (this : nat) (options : Options) (dom : list ref) (context : Context)
  : Async string :=
  fun s =>
    let '(s2, ps) :=
      start_all (fun element =>
                   parseElement runner platform fuel this options element
                                context)
                dom s in
    await_all ps
      (fun r => lift r (fun html =>
         fulfil (replaceAll "}!}" "}}"
                   (replaceAll "{!{" "{{" (Str.concat html)))))
      s2.

(** The states of a process: the heap is well formed and every cached
    tree is the list of children of a node of the heap.  The fresh
    process is in such a state and every render leaves it in one. *)
Record process_wf (s : State) : Prop := mk_process_wf {
  pw_heap : heap_wf (heap s);
  pw_cache : forall k dom, DOM_CACHE s !! k = Some dom ->
               exists root, dom = _children (nodeat (heap s) root)
}.

Lemma process_wf_initial : process_wf initial_state.
Proof.
  split; [apply heap_wf_nil|]. intros k dom H. cbn in H.
  rewrite lookup_empty in H. discriminate.
Qed.

Lemma parseDOM_cached (platform : Platform) (content : string)
  (s s' : State) (dom : list ref) :
  process_wf s ->
  parseDOM platform content true s = (s', Some (inr dom)) ->
  heap_wf (heap s') /\
  (exists root, dom = _children (nodeat (heap s') root)) /\
  DOM_CACHE s' !! md5 platform content = Some dom.
Proof.
  intros [Hwf Hc]. unfold parseDOM. cbn [negb].
  destruct (DOM_CACHE s !! md5 platform content) as [d|] eqn:Hd.
  - intros [= <- <-]. split; [exact Hwf|]. split; [eapply Hc, Hd|exact Hd].
  - unfold parse_and_store.
    destruct (parse content (heap s) (pstate s)) as [[st [e|[d h]]]|] eqn:Hp;
      try discriminate.
    intros [= <- <-]. cbn [heap DOM_CACHE].
    destruct (heap_wf_parse _ _ _ _ _ _ Hp Hwf) as [Hwf' Hdom].
    split; [exact Hwf'|]. split; [eauto|]. apply lookup_insert_eq.
Qed.

Lemma Engine_render_dom (runner : Runner) (platform : Platform)
  (fuel this : nat) (options : Options) (content : string)
  (context : Context) (s s' : State) (dom : list ref) :
  parseDOM platform content (cache options) s = (s', Some (inr dom)) ->
  Engine_render platform (parseElement runner platform fuel) this options
    content context s
  = render_dom runner platform fuel this options dom context s'.
Proof.
  intros H. unfold Engine_render, render_dom. rewrite H. reflexivity.
Qed.

Lemma run_engine_dom (runner : Runner) (platform : Platform)
  (fuel : nat) (options : Options) (content : string)
  (context : Context) (s s' : State) (dom : list ref) :
  parseDOM platform content (cache options) (snd (Engine_new s))
  = (s', Some (inr dom)) ->
  run_engine runner platform fuel content context options s
  = settle
      (snd (render_dom runner platform fuel (fst (Engine_new s)) options dom
              context s'))
      (fst (render_dom runner platform fuel (fst (Engine_new s)) options dom
              context s')).
Proof.
  intros H. unfold run_engine.
  change (Engine_new s) with (fst (Engine_new s), snd (Engine_new s)) at 1.
  cbv beta iota. rewrite (Engine_render_dom _ _ _ _ _ _ _ _ _ _ H).
  destruct (render_dom _ _ _ _ _ _ _ _); reflexivity.
Qed.

Lemma run_engine_parsed (runner : Runner) (platform : Platform)
  (fuel : nat) (options : Options) (content : string)
  (context : Context) (s s1 : State) (out : string) :
  run_engine runner platform fuel content context options s
  = (s1, Some (inr out)) ->
  exists s' dom,
    parseDOM platform content (cache options) (snd (Engine_new s))
    = (s', Some (inr dom)).
Proof.
  unfold run_engine.
  change (Engine_new s) with (fst (Engine_new s), snd (Engine_new s)) at 1.
  cbv beta iota. unfold Engine_render.
  destruct (parseDOM _ _ _ _) as [s' [[e|dom]|]]; cbn [settle];
    try discriminate.
  eauto.
Qed.

Lemma parseDOM_Engine_new (platform : Platform) (content : string)
  (c : bool) (s : State) :
  parseDOM platform content c (snd (Engine_new s))
  = (snd (Engine_new (fst (parseDOM platform content c s))),
     snd (parseDOM platform content c s)).
Proof.
  unfold parseDOM, parse_and_store, Engine_new. cbn [snd heap pstate DOM_CACHE].
  destruct (negb c).
  - destruct (parse content (heap s) (pstate s)) as [[st [e|[d h]]]|];
      reflexivity.
  - destruct (DOM_CACHE s !! md5 platform content); [reflexivity|].
    destruct (parse content (heap s) (pstate s)) as [[st [e|[d h]]]|];
      reflexivity.
Qed.

(** ** The parser leaves the nodes of earlier trees alone *)

(** The nodes below [L] are those of [h]. *)
Definition agree_below (L : nat) (h h' : Heap) : Prop :=
  forall x, x < L -> h' !! x = h !! x.

(** The nodes from [L] on have their parent from [L] on. *)
Definition parents_from (L : nat) (h : Heap) : Prop :=
  forall x n p, h !! x = Some n -> L <= x -> _parent n = Some p -> L <= p.

Lemma agree_below_trans (L : nat) (h1 h2 h3 : Heap) :
  agree_below L h1 h2 -> agree_below L h2 h3 -> agree_below L h1 h3.
Proof. intros H12 H23 x Hx. rewrite (H23 x Hx). apply H12, Hx. Qed.

Lemma update_length (r : ref) (f : Node -> Node) (h : Heap) :
  List.length (update r f h) = List.length h.
Proof.
  unfold update. destruct (h !! r); [apply length_insert|reflexivity].
Qed.

Lemma agree_below_update (L r : nat) (f : Node -> Node) (h : Heap) :
  L <= r -> agree_below L h (update r f h).
Proof.
  intros Hr x Hx. rewrite update_lookup.
  destruct (decide (x = r)); [lia|reflexivity].
Qed.

Lemma parents_from_update (L r : nat) (f : Node -> Node) (h : Heap) :
  (forall n p, _parent (f n) = Some p -> _parent n = Some p \/ L <= p) ->
  parents_from L h -> parents_from L (update r f h).
Proof.
  intros Hf Hh x n p Hx HL Hp. rewrite update_lookup in Hx.
  destruct (decide (x = r)) as [->|]; [|eapply Hh; eassumption].
  destruct (h !! r) as [m|] eqn:Hm; [|discriminate].
  injection Hx as <-. destruct (Hf m p Hp) as [Hp'|Hp']; [|exact Hp'].
  eapply Hh; eassumption.
Qed.

Lemma appendChild_below (L this node : nat) (h : Heap) :
  L <= this -> L <= node -> parents_from L h ->
  agree_below L h (appendChild this node h) /\
  List.length (appendChild this node h) = List.length h /\
  parents_from L (appendChild this node h).
Proof.
  intros Ht Hn Hp. unfold appendChild.
  destruct (h !! this) as [t|];
    [|split; [intros x _; reflexivity|split; [reflexivity|exact Hp]]].
  split; [|split].
  - eapply agree_below_trans; apply agree_below_update; assumption.
  - rewrite !update_length. reflexivity.
  - apply parents_from_update; [intros n p E; left; exact E|].
    apply parents_from_update; [|exact Hp].
    intros n p E. right. cbn in E. injection E as <-. exact Ht.
Qed.

Lemma alloc_below (L : nat) (n : Node) (h : Heap) :
  L <= List.length h -> _parent n = None -> parents_from L h ->
  agree_below L h (snd (alloc n h)) /\
  L <= fst (alloc n h) /\
  List.length (snd (alloc n h)) = S (List.length h) /\
  parents_from L (snd (alloc n h)).
Proof.
  intros HL Hn Hp. cbn [alloc fst snd]. split; [|split; [exact HL|split]].
  - intros x Hx. apply lookup_app_l. lia.
  - rewrite length_app. cbn. lia.
  - intros x m p Hx Hle Hm. apply lookup_app_Some in Hx as [Hx|[_ Hx]].
    + eapply Hp; eassumption.
    + destruct (x - List.length h) as [|k]; [|destruct k; discriminate].
      injection Hx as <-. congruence.
Qed.

(** What the loop of [parse] keeps, for the nodes below [L]. *)
Record loop_inv (L : nat) (h0 : Heap) (stack : list ref)
  (cur : option ref) (h : Heap) : Prop := mk_loop_inv {
  li_agree : agree_below L h0 h;
  li_length : L <= List.length h;
  li_stack : Forall (le L) stack;
  li_cur : forall c, cur = Some c -> L <= c;
  li_parents : parents_from L h
}.

Lemma loop_inv_loop_body L h0 entity stack cur h st stack1 cur1 h1 st1 :
  loop_body entity stack cur h st = (st1, inr (stack1, cur1, h1)) ->
  loop_inv L h0 stack cur h -> loop_inv L h0 stack1 cur1 h1.
Proof.
  unfold loop_body, sbind, sret. intros Hb [Hag Hlen Hst Hcur Hpar].
  destruct (Node_new entity st) as [st0 [e|n]] eqn:Hn; [discriminate|].
  apply Node_new_links in Hn as [Hp Hc].
  destruct (alloc_below L n h Hlen Hp Hpar) as [Ha [Hnode [Hl Hpa]]].
  destruct (alloc n h) as [node ha]. cbn [fst snd] in *.
  assert (Happ : forall this, L <= this ->
            forall stack' cur',
              Forall (le L) stack' -> (forall c, cur' = Some c -> L <= c) ->
              loop_inv L h0 stack' cur' (appendChild this node ha)).
  { intros this Hthis stack' cur' Hs' Hc'.
    destruct (appendChild_below L this node ha Hthis Hnode Hpa)
      as [Hag' [Hlen' Hpar']].
    split; try assumption.
    - eapply agree_below_trans; [|exact Hag'].
      eapply agree_below_trans; eassumption.
    - lia. }
  assert (Hclose : forall c, L <= c ->
            forall stack' cur',
              Forall (le L) stack' -> (forall c, cur' = Some c -> L <= c) ->
              loop_inv L h0 stack' cur' (update c (with_closed true) ha)).
  { intros c Hle stack' cur' Hs' Hc'. split; try assumption.
    - eapply agree_below_trans; [|apply agree_below_update, Hle].
      eapply agree_below_trans; eassumption.
    - rewrite update_length. lia.
    - apply parents_from_update; [intros m p E; left; exact E|exact Hpa]. }
  assert (Hnew : forall c, Some node = Some c -> L <= c).
  { intros c [= <-]. exact Hnode. }
  revert Hb. unfold undefined_read, throw. destruct (negb _).
  - destruct cur as [c|]; [|intros E; discriminate E].
    intros [= <- <- <- <-]. apply Happ; auto.
  - destruct cur as [c|]; [|intros E; discriminate E].
    pose proof (Hcur c eq_refl) as Hc0.
    destruct (_closed _).
    + destruct (_parent (default _ _)) as [p|] eqn:Hpp;
        [|intros E; discriminate E].
      intros [= <- <- <- <-]. apply Happ; auto.
      destruct (ha !! c) as [cn|] eqn:Hcn; [|discriminate].
      eapply Hpa; eassumption.
    + destruct (e_state entity) as [[|]|].
      * intros [= <- <- <- <-]. apply Happ; auto.
      * destruct stack as [|top stack'];
          intros [= <- <- <- <-]; apply Hclose; auto.
        -- intros c' [=].
        -- apply Forall_cons in Hst as [_ Hst]. exact Hst.
        -- intros c' [= <-]. apply Forall_cons in Hst as [Hst _]. exact Hst.
      * destruct stack as [|top stack'];
          intros [= <- <- <- <-]; apply Hclose; auto.
        -- intros c' [=].
        -- apply Forall_cons in Hst as [_ Hst]. exact Hst.
        -- intros c' [= <-]. apply Forall_cons in Hst as [Hst _]. exact Hst.
Qed.

Lemma loop_inv_parse_loop L h0 fuel :
  forall rest stack cur h st h1 st1,
    parse_loop fuel rest stack cur h st = Some (st1, inr h1) ->
    loop_inv L h0 stack cur h -> agree_below L h0 h1.
Proof.
  induction fuel as [|fuel IH]; intros rest stack cur h st h1 st1;
    destruct rest as [|c rest]; cbn [parse_loop]; try discriminate.
  - intros [= <- <-] [H _ _ _ _]. exact H.
  - intros [= <- <-] [H _ _ _ _]. exact H.
  - destruct (loop_body _ _ _ _ _) as [st2 [e|[[stack2 cur2] h2]]] eqn:Hb;
      [discriminate|].
    intros H Hinv. eapply IH; [exact H|].
    eapply loop_inv_loop_body; eassumption.
Qed.

(** The nodes that were on the heap before [parse] are there afterwards,
    as they were. *)
Lemma parse_keeps_nodes content h st dom h1 st1 :
  parse content h st = Some (st1, inr (dom, h1)) ->
  forall x n, h !! x = Some n -> h1 !! x = Some n.
Proof.
  unfold parse. intros Hp x n Hx.
  destruct (alloc_below (List.length h) Node_empty h (le_n _) eq_refl)
    as [Ha [_ [Hl Hpa]]].
  { intros y m p Hy Hle _. apply lookup_lt_Some in Hy. lia. }
  cbn [alloc fst snd] in *.
  destruct (preProcess content st) as [st0 [e|masked]]; [discriminate|].
  destruct (parse_loop _ _ _ _ _ _) as [[st2 [e|h2]]|] eqn:Hl2;
    try discriminate.
  injection Hp as <- <- <-.
  pose proof (loop_inv_parse_loop (List.length h) (h ++ [Node_empty])%list
                _ _ _ _ _ _ _ _ Hl2) as Hag.
  rewrite Hag.
  - rewrite Ha; [exact Hx|]. eapply lookup_lt_Some, Hx.
  - split.
    + intros y _. reflexivity.
    + lia.
    + constructor; [lia|constructor].
    + intros c [= <-]. lia.
    + exact Hpa.
  - eapply lookup_lt_Some, Hx.
Qed.

(** ** Well-formed process states are kept *)

Lemma process_wf_fields (s s' : State) :
  heap s' = heap s -> DOM_CACHE s' = DOM_CACHE s ->
  process_wf s -> process_wf s'.
Proof.
  intros Eh Ed [Hwf Hc]. split; rewrite ?Eh, ?Ed; assumption.
Qed.

Lemma process_wf_condition (s : State) (nx : ref) (b : bool) :
  process_wf s ->
  process_wf (set_heap (update nx (with_condition b) (heap s)) s).
Proof.
  intros [Hwf Hc]. split; cbn [set_heap heap DOM_CACHE].
  - apply heap_wf_update; [reflexivity|exact Hwf].
  - intros k dom Hk. destruct (Hc k dom Hk) as [root ->]. exists root.
    change (_children (erase (nodeat (heap s) root))
            = _children (erase (nodeat (update nx (with_condition b) (heap s))
                                  root))).
    rewrite <- !nodeat_shape, shape_update_condition. reflexivity.
Qed.

Lemma process_wf_parse_and_store (platform : Platform) (content : string)
  (store : bool) (s : State) :
  process_wf s ->
  process_wf (fst (parse_and_store platform content store s)).
Proof.
  intros Hs. pose proof Hs as [Hwf Hc]. unfold parse_and_store.
  destruct (parse content (heap s) (pstate s)) as [[st [e|[dom h]]]|] eqn:Hp;
    cbn [fst]; try exact Hs.
  - eapply process_wf_fields; [| |exact Hs]; reflexivity.
  - destruct (heap_wf_parse _ _ _ _ _ _ Hp Hwf) as [Hwf' Hdom].
    assert (Hold : forall k d, DOM_CACHE s !! k = Some d ->
              exists root, d = _children (nodeat h root)).
    { intros k d Hk. destruct (Hc k d Hk) as [root ->]. unfold nodeat.
      destruct (heap s !! root) as [n|] eqn:Hn.
      - exists root. rewrite (parse_keeps_nodes _ _ _ _ _ _ Hp root n Hn).
        reflexivity.
      - exists (List.length h).
        rewrite (lookup_ge_None_2 h (List.length h)) by lia. reflexivity. }
    split; cbn [heap DOM_CACHE]; [exact Hwf'|].
    destruct store; [|exact Hold].
    intros k d Hk. apply lookup_insert_Some in Hk as [[_ <-]|[_ Hk]].
    + eauto.
    + eapply Hold, Hk.
Qed.

Lemma process_wf_parseDOM (platform : Platform) (content : string)
  (cache : bool) (s : State) :
  process_wf s -> process_wf (fst (parseDOM platform content cache s)).
Proof.
  intros Hs. unfold parseDOM.
  destruct (negb cache); [apply process_wf_parse_and_store, Hs|].
  destruct (DOM_CACHE s !! _);
    [exact Hs|apply process_wf_parse_and_store, Hs].
Qed.

(** Every render leaves the process in a well-formed state, whether it
    returns or is rejected. *)
Lemma process_wf_run_engine (runner : Runner) (platform : Platform)
  (fuel : nat) (content : string) (context : Context) (options : Options)
  (s : State) :
  process_wf s ->
  process_wf (fst (run_engine runner platform fuel content context options s)).
Proof.
  apply run_engine_keeps.
  - intros s0 nx b. apply process_wf_condition.
  - intros s0 this t. apply process_wf_fields; reflexivity.
  - intros s0. apply process_wf_fields; reflexivity.
  - intros s0. apply process_wf_fields; reflexivity.
  - intros s0. apply process_wf_fields; reflexivity.
  - intros c0 cache s0. apply process_wf_parseDOM.
Qed.

Lemma process_wf_run_render (runner : Runner) (platform : Platform)
  (fuel : nat) (file : string) (context : Context) (options : Options)
  (s : State) :
  process_wf s ->
  process_wf (fst (run_render runner platform fuel file context options s)).
Proof.
  intros Hs. unfold run_render.
  assert (Hfields : forall s0 s', heap s' = heap s0 ->
            DOM_CACHE s' = DOM_CACHE s0 -> process_wf s0 -> process_wf s').
  { intros s0 s'. apply process_wf_fields. }
  destruct (render_keeps platform process_wf
              ltac:(intros s0; apply Hfields; reflexivity)
              ltac:(intros s0; apply Hfields; reflexivity)
              ltac:(intros c0 cache s0; apply process_wf_parseDOM)
              (parseElement runner platform fuel)
              ltac:(intros this0 options0 r0 context0;
                    apply parseElement_keeps;
                    [ intros s0 nx b; apply process_wf_condition
                    | intros s0 this1 t; apply Hfields; reflexivity
                    | intros s0; apply Hfields; reflexivity
                    | intros s0; apply Hfields; reflexivity
                    | intros s0; apply Hfields; reflexivity
                    | intros c0 cache s0; apply process_wf_parseDOM ])
              file context options s Hs) as [H1 Hp].
  destruct (render _ _ _ _ _ s) as [s1 p]. cbn [fst snd] in *.
  apply settle_keeps; assumption.
Qed.

(** * Further properties of the code *)

(** ** Characters of a text *)

(** Every character of the string satisfies [p]. *)
Fixpoint all_chars (p : ascii -> bool) (s : string) : bool :=
  match s with
  | EmptyString => true
  | String c r => p c && all_chars p r
  end.

(** No character of the string satisfies [p]. *)
Definition no_char (p : ascii -> bool) : string -> bool :=
  all_chars (fun c => negb (p c)).

Lemma all_chars_append (p : ascii -> bool) (a b : string) :
  all_chars p (a +:+ b) = all_chars p a && all_chars p b.
Proof.
  induction a as [|c a IH]; unfold_append; simpl; [reflexivity|].
  rewrite IH, andb_assoc. reflexivity.
Qed.

Lemma span_append (p : ascii -> bool) (a b : string) :
  all_chars p a = true ->
  match b with EmptyString => True | String c _ => p c = false end ->
  Str.span p (a +:+ b) = (a, b).
Proof.
  intros Ha Hb. induction a as [|c a IH]; unfold_append; simpl in *.
  - destruct b as [|c b]; [reflexivity|]. simpl. rewrite Hb. reflexivity.
  - apply andb_true_iff in Ha as [Hc Ha]. rewrite Hc, (IH Ha). reflexivity.
Qed.

(** ** The tokenizer *)

Lemma scan_prefix (s : string) :
  forall lt empty,
    scan lt empty s +:+ Str.drop (String.length (scan lt empty s)) s = s.
Proof.
  induction s as [|c s IH]; intros lt empty; simpl; [reflexivity|].
  destruct (Ascii.eqb c "<").
  - destruct (negb empty); unfold_append; simpl; [reflexivity|].
    f_equal. apply IH.
  - destruct (Ascii.eqb c ">" && lt); unfold_append; simpl; [reflexivity|].
    f_equal. apply IH.
Qed.

Lemma scan_no_lt (s : string) :
  forall lt, no_char (fun c => Ascii.eqb c "<") (scan lt false s) = true.
Proof.
  unfold no_char. induction s as [|c s IH]; intros lt; simpl; [reflexivity|].
  destruct (Ascii.eqb c "<") eqn:E; simpl; [reflexivity|].
  destruct (Ascii.eqb c ">" && lt); simpl; rewrite E; simpl;
    [reflexivity|apply IH].
Qed.

(** X1: the entity that [getNextEntity] reads off a text that is not empty
    is a prefix of the text, one character at least: the tokenizer makes
    progress and loses no character. *)
Theorem getNextEntity_takes_prefix (c : ascii) (rest : string) :
  let data := e_data (getNextEntity (String c rest)) in
  1 <= String.length data /\
  data +:+ Str.drop (String.length data) (String c rest) = String c rest.
Proof.
  cbn zeta. unfold getNextEntity, Entity_new. cbn [e_data].
  split; [apply scan_progress|apply scan_prefix].
Qed.

(** X2: an entity holds no [<] after its first character: a text entity
    ends before the next [<], and a tag holds no second [<]. *)
Theorem entity_has_no_inner_lt (rest : string) :
  match e_data (getNextEntity rest) with
  | EmptyString => True
  | String _ d => no_char (fun c => Ascii.eqb c "<") d = true
  end.
Proof.
  unfold getNextEntity, Entity_new. cbn [e_data].
  destruct rest as [|c s]; [exact Logic.I|]. simpl.
  destruct (Ascii.eqb c "<"); simpl.
  - apply scan_no_lt.
  - destruct (Ascii.eqb c ">" && false) eqn:E; [reflexivity|apply scan_no_lt].
Qed.

(** ** Global replacement *)

Section GsubFacts.
Context {S : Type}.
Variable matcher : string -> option (string * string).
Variable callback : string -> string -> SRes S string.

Lemma gsub_skip_all (s : string) :
  forall skip st,
    String.length s <= skip ->
    gsub matcher callback skip s st = (st, inr EmptyString).
Proof.
  induction s as [|c s IH]; intros skip st H; [reflexivity|].
  destruct skip as [|k]; simpl in H; [lia|]. cbn [gsub]. apply IH. lia.
Qed.

Lemma gsub_state_kept :
  (forall input cap st, fst (callback input cap st) = st) ->
  forall s skip st, fst (gsub matcher callback skip s st) = st.
Proof.
  intros Hcb. induction s as [|c s IH]; intros skip st; [reflexivity|].
  cbn [gsub]. destruct skip as [|k]; [|apply IH].
  destruct (matcher (String c s)) as [[input cap]|]; unfold sbind, sret.
  - pose proof (Hcb input cap st) as H1.
    destruct (callback input cap st) as [st1 [e|r]]; cbn [fst] in *;
      [exact H1|]. subst st1.
    pose proof (IH (String.length input - 1) st) as H2.
    destruct (gsub matcher callback _ s st) as [st2 [e|out]]; exact H2.
  - pose proof (IH 0 st) as H2.
    destruct (gsub matcher callback 0 s st) as [st2 [e|out]]; exact H2.
Qed.

(** Where the matcher matches at no position, the text is copied. *)
Lemma gsub_no_match (s : string) :
  (forall k, matcher (Str.drop k s) = None) ->
  forall st, gsub matcher callback 0 s st = (st, inr s).
Proof.
  induction s as [|c s IH]; intros Hm st; [reflexivity|].
  cbn [gsub]. pose proof (Hm 0) as H0. cbn [Str.drop] in H0. rewrite H0.
  unfold sbind, sret.
  rewrite IH; [reflexivity|]. intros k. apply (Hm (Datatypes.S k)).
Qed.
End GsubFacts.

Lemma find_None_starts (ci : bool) (p s : string) :
  Str.find ci p s = None -> forall k, Str.starts ci p (Str.drop k s) = false.
Proof.
  induction s as [|c s IH]; intros H k.
  - simpl in H. destruct (Str.starts ci p EmptyString) eqn:E; [discriminate|].
    destruct k; exact E.
  - simpl in H. destruct (Str.starts ci p (String c s)) eqn:E; [discriminate|].
    destruct (Str.find ci p s) eqn:F; [discriminate|].
    destruct k as [|k]; [exact E|]. simpl. apply IH. reflexivity.
Qed.

(** ** The placeholder table *)

Lemma decode_reads (text : option string) (st : PState) :
  fst (decode text false st) = st.
Proof.
  destruct text as [t|]; [|reflexivity]. unfold decode, replace_all.
  apply gsub_state_kept. reflexivity.
Qed.

(** X8: [decode] without removal reads the table and leaves it and the
    counter as they are, whatever the text. *)
Theorem decode_keeps_table (text : option string) (st : PState) :
  fst (decode text false st) = st.
Proof. apply decode_reads. Qed.

(** X9: a text without the opening delimiter of a placeholder is returned
    by [decode] as it is, and the table is not touched, with removal or
    without. *)
Theorem decode_plain_text (t : string) (remove : bool) (st : PState) :
  Str.find false "_@#!" t = None ->
  decode (Some t) remove st = (st, inr t).
Proof.
  intros H. unfold decode, replace_all. apply gsub_no_match.
  intros k. unfold m_placeholder.
  rewrite (find_None_starts false "_@#!" t H k). reflexivity.
Qed.

Lemma decode_plain_text_witness :
  decode (Some "<p>text</p>") true initial_pstate
  = (initial_pstate, inr "<p>text</p>").
Proof.
  apply (decode_plain_text "<p>text</p>" true initial_pstate). reflexivity.
Defined.

Lemma pretty_N_char_digit (x : N) : Str.is_digit (pretty_N_char x) = true.
Proof. unfold pretty_N_char. repeat case_match; reflexivity. Qed.

Lemma pretty_N_go_digits (x : N) :
  forall s, all_chars Str.is_digit s = true ->
            all_chars Str.is_digit (pretty_N_go x s) = true /\
            String.length s <= String.length (pretty_N_go x s).
Proof.
  induction (N.lt_wf_0 x) as [x _ IH]; intros s Hs.
  destruct (decide (x = 0%N)) as [->|Hx].
  - rewrite pretty_N_go_0. auto.
  - rewrite pretty_N_go_step by lia.
    destruct (IH (x `div` 10)%N ltac:(apply N.div_lt; lia)
                 (String (pretty_N_char (x `mod` 10)) s)) as [H1 H2].
    + simpl. rewrite pretty_N_char_digit, Hs. reflexivity.
    + split; [exact H1|]. simpl in H2. lia.
Qed.

(** The decimal text of a number: digits, one at least. *)
Lemma pretty_N_digits (x : N) :
  all_chars Str.is_digit (pretty x) = true /\ 1 <= String.length (pretty x).
Proof.
  unfold pretty, pretty_N. destruct (decide (x = 0%N)) as [->|Hx].
  - split; [reflexivity|simpl; lia].
  - rewrite pretty_N_go_step by lia.
    destruct (pretty_N_go_digits (x `div` 10)%N
                (String (pretty_N_char (x `mod` 10)) EmptyString)) as [H1 H2].
    + simpl. rewrite pretty_N_char_digit. reflexivity.
    + split; [exact H1|]. simpl in H2. lia.
Qed.

(** The matcher of [decode] takes a whole token. *)
Lemma m_placeholder_token (i : N) :
  m_placeholder ("_@#!" +:+ pretty i +:+ "!#@_")
  = Some ("_@#!" +:+ pretty i +:+ "!#@_", EmptyString).
Proof.
  destruct (pretty_N_digits i) as [Hd Hl].
  unfold m_placeholder. unfold_append. cbn [Str.starts Str.eqc Ascii.eqb Bool.eqb andb Str.drop].
  rewrite (span_append Str.is_digit (pretty i) "!#@_" Hd eq_refl).
  destruct (pretty i) as [|d ds] eqn:E; [simpl in Hl; lia|].
  cbn [Str.starts Str.eqc Ascii.eqb Bool.eqb andb].
  rewrite <- E. f_equal. f_equal.
  change (Str.take (4 + String.length (pretty i) + 4)
            ("_@#!" +:+ pretty i +:+ "!#@_")
          = "_@#!" +:+ pretty i +:+ "!#@_").
  apply take_all. rewrite !append_length. simpl. lia.
Qed.

(** X7: the token that [mask] returns decodes to the text it was bound
    to.  Without removal the table stays as [mask] left it; with removal
    the binding is deleted, and decoding the token once more gives the
    text [undefined]. *)
Theorem mask_decode_round_trip (stored : string) (st : PState) :
  let token := fst (getPlaceholder st) in
  let st1 := fst (mask EmptyString stored st) in
  let st2 := mkPState (delete token (PLACEHOLDERS st1)) (placeholderIndex st1) in
  snd (mask EmptyString stored st) = inr token /\
  decode (Some token) false st1 = (st1, inr stored) /\
  decode (Some token) true st1 = (st2, inr stored) /\
  decode (Some token) true st2 = (st2, inr "undefined").
Proof.
  cbn zeta. unfold mask, getPlaceholder. cbn [fst snd PLACEHOLDERS placeholderIndex].
  set (i := (placeholderIndex st + 1)%N).
  set (token := "_@#!" +:+ pretty i +:+ "!#@_").
  assert (Hgo : forall (cb : string -> string -> SRes PState string) st0 st1 v,
            cb token EmptyString st0 = (st1, inr v) ->
            replace_all m_placeholder cb token st0 = (st1, inr v)).
  { intros cb st0 st1 v Hcb. unfold replace_all.
    pose proof (m_placeholder_token i) as Hm. fold token in Hm.
    assert (Ht : exists c t, token = String c t) by (eexists _, _; reflexivity).
    destruct Ht as [c [t Ht]]. rewrite Ht in *. cbn [gsub]. rewrite Hm.
    unfold sbind, sret. rewrite Hcb.
    rewrite gsub_skip_all by (simpl; lia). rewrite append_empty_r.
    reflexivity. }
  split; [reflexivity|]. unfold decode.
  split; [|split]; apply Hgo; cbn [PLACEHOLDERS placeholderIndex].
  - rewrite lookup_insert_eq. reflexivity.
  - rewrite lookup_insert_eq. reflexivity.
  - rewrite lookup_delete_eq. cbn [default]. rewrite delete_delete_eq.
    reflexivity.
Qed.

(** X6: two calls of [getPlaceholder] return the same token only when the
    counter stood at the same number; since every call increments the
    counter, no token is handed out twice in a process. *)
Theorem placeholder_tokens_distinct (st1 st2 : PState) :
  placeholderIndex st1 <> placeholderIndex st2 ->
  fst (getPlaceholder st1) <> fst (getPlaceholder st2).
Proof.
  intros Hne Heq. unfold getPlaceholder in Heq. cbn [fst] in Heq.
  apply (append_inj_length "_@#!" _ "_@#!" _ eq_refl) in Heq as [_ Heq].
  assert (Hlen : String.length (pretty (placeholderIndex st1 + 1)%N)
                 = String.length (pretty (placeholderIndex st2 + 1)%N)).
  { apply (f_equal String.length) in Heq. rewrite !append_length in Heq.
    simpl in Heq. lia. }
  apply (append_inj_length _ _ _ _ Hlen) in Heq as [Heq _].
  apply (inj pretty) in Heq. lia.
Qed.

Lemma placeholder_tokens_distinct_witness :
  fst (getPlaceholder initial_pstate)
  <> fst (getPlaceholder (snd (getPlaceholder initial_pstate))).
Proof.
  apply (placeholder_tokens_distinct initial_pstate
           (snd (getPlaceholder initial_pstate))).
  intros H. discriminate H.
Defined.

Lemma gsub_returns {S : Type} (matcher : string -> option (string * string))
  (callback : string -> string -> SRes S string) :
  (forall input cap st, exists r, snd (callback input cap st) = inr r) ->
  forall s skip st, exists out, snd (gsub matcher callback skip s st) = inr out.
Proof.
  intros Hcb. induction s as [|c s IH]; intros skip st;
    [eexists; reflexivity|].
  cbn [gsub]. destruct skip as [|k]; [|apply IH].
  destruct (matcher (String c s)) as [[input cap]|]; unfold sbind, sret.
  - destruct (Hcb input cap st) as [r Hr].
    destruct (callback input cap st) as [st1 [e|r']]; [discriminate|].
    destruct (IH (String.length input - 1) st1) as [out Hout].
    destruct (gsub matcher callback _ s st1) as [st2 [e|out']];
      [discriminate|]. eexists; reflexivity.
  - destruct (IH 0 st) as [out Hout].
    destruct (gsub matcher callback 0 s st) as [st2 [e|out']];
      [discriminate|]. eexists; reflexivity.
Qed.

(** [decode] of a text does not throw. *)
Lemma decode_returns (t : string) (remove : bool) (st : PState) :
  exists out, snd (decode (Some t) remove st) = inr out.
Proof.
  unfold decode, replace_all. apply gsub_returns.
  intros input cap st0. eexists; reflexivity.
Qed.

Definition replace_of_undefined : Exn :=
  TypeError "Cannot read properties of undefined (reading 'replace')".

(** The value group of the match is a key of the table; a group that did
    not take part reads the key [undefined]. *)
Definition value_bound (st : PState) (m : string * option string) : Prop :=
  is_Some (PLACEHOLDERS st !! default "undefined" (snd m)).

(** The error of [decode] on what the table gives for a key that is not
    bound: a method or the prototype, inherited from [Object.prototype],
    has no [replace]; [undefined] has no properties. *)
Definition unbound_error (key : string) : Exn :=
  if inherited key then TypeError "text.replace is not a function"
  else replace_of_undefined.

Lemma resolve_attrs_step (name : string) (value : option string) (v : string)
  (ms : list (string * option string)) (attrs : list (string * string))
  (st : PState) :
  PLACEHOLDERS st !! default "undefined" value = Some v ->
  exists out,
    resolve_attrs ((name, value) :: ms) attrs st
    = resolve_attrs ms (Obj.set name out attrs) st.
Proof.
  intros Hv. cbn [resolve_attrs]. unfold slot. rewrite Hv.
  cbn [decode_slot]. unfold sbind.
  pose proof (decode_reads (Some v) st) as Hk.
  destruct (decode_returns v false st) as [out Hout].
  destruct (decode (Some v) false st) as [st1 [e|out']];
    cbn [fst snd] in *; [discriminate|]. subst st1. eauto.
Qed.

(** X10: the attribute loop of [_resolve] throws at the first attribute
    whose value is no key of the placeholder table, as an attribute
    without a value or with a value that is not quoted has: reading
    [replace] off [undefined] fails, and when the value names a property
    that the table inherits from [Object.prototype], what is read has no
    [replace] method.  The table is left as it was. *)
Theorem resolve_attrs_unbound (ms1 ms2 : list (string * option string))
  (name : string) (value : option string)
  (attrs : list (string * string)) (st : PState) :
  Forall (value_bound st) ms1 ->
  ~ value_bound st (name, value) ->
  resolve_attrs (ms1 ++ (name, value) :: ms2) attrs st
  = (st, inl (unbound_error (default "undefined" value))).
Proof.
  intros H Hm. revert attrs.
  induction H as [|[name1 value1] ms1 [v Hv] _ IH]; intros attrs.
  - cbn [app resolve_attrs]. unfold slot, unbound_error, value_bound in *.
    cbn [snd] in Hm.
    destruct (PLACEHOLDERS st !! default "undefined" value) as [v|];
      [destruct Hm; eauto|].
    destruct (inherited (default "undefined" value)); reflexivity.
  - cbn [snd] in Hv. cbn [app].
    destruct (resolve_attrs_step name1 value1 v
                (ms1 ++ (name, value) :: ms2) attrs st Hv) as [out ->].
    apply IH.
Qed.

Lemma resolve_attrs_unbound_witness :
  resolve_attrs [("disabled", None)] [] initial_pstate
  = (initial_pstate, inl replace_of_undefined) /\
  resolve_attrs [("b", Some "constructor")] [] initial_pstate
  = (initial_pstate, inl (TypeError "text.replace is not a function")).
Proof.
  assert (Hempty : forall m, ~ value_bound initial_pstate m).
  { intros m [v Hv]. change (PLACEHOLDERS initial_pstate)
      with (∅ : gmap string string) in Hv.
    rewrite lookup_empty in Hv. discriminate Hv. }
  split.
  - apply (resolve_attrs_unbound [] [] "disabled" None [] initial_pstate
             (List.Forall_nil _) (Hempty _)).
  - apply (resolve_attrs_unbound [] [] "b" (Some "constructor") []
             initial_pstate (List.Forall_nil _) (Hempty _)).
Defined.

(** X11: when every attribute has its value in the table, the attribute
    loop returns and leaves the table as it was: attribute values are
    read without removal, and their bindings stay in the table. *)
Theorem resolve_attrs_bound (ms : list (string * option string))
  (attrs : list (string * string)) (st : PState) :
  Forall (value_bound st) ms ->
  exists attrs', resolve_attrs ms attrs st = (st, inr attrs').
Proof.
  intros H. revert attrs. induction H as [|[name value] ms [v Hv] _ IH];
    intros attrs; [eexists; reflexivity|].
  cbn [snd] in Hv.
  destruct (resolve_attrs_step name value v ms attrs st Hv) as [out ->].
  apply IH.
Qed.

Lemma resolve_attrs_bound_witness :
  exists attrs',
    resolve_attrs [("class", Some "_@#!1!#@_")] []
      (fst (mask "=" "a" initial_pstate))
    = (fst (mask "=" "a" initial_pstate), inr attrs').
Proof.
  apply (resolve_attrs_bound [("class", Some "_@#!1!#@_")] []
           (fst (mask "=" "a" initial_pstate))).
  apply List.Forall_cons; [|apply List.Forall_nil].
  exists "a". unfold value_bound, mask, getPlaceholder.
  cbn [fst snd default PLACEHOLDERS placeholderIndex].
  apply lookup_insert_eq.
Defined.

(** ** The tree builder *)

(** X3: the loop of [parse] ends, for every text, heap and table: [parse]
    returns a forest or throws. *)
Theorem parse_ends (content : string) (h : Heap) (st : PState) :
  exists st' r, parse content h st = Some (st', r).
Proof.
  pose proof (parse_terminates content h st) as H.
  destruct (parse content h st) as [[st' r]|]; [eauto|congruence].
Qed.

(** X4: on a well-formed heap [parse] builds a well-formed heap: every
    node that [appendChild] has attached is, in the children of its
    [_parent], at its [_index], and every child names its parent.  The
    forest returned is the list of children of the synthetic root, and
    each of its members is a node whose parent is that root. *)
Theorem parse_builds_tree (content : string) (h h1 : Heap) (st st1 : PState)
  (dom : list ref) :
  heap_wf h ->
  parse content h st = Some (st1, inr (dom, h1)) ->
  heap_wf h1 /\
  dom = _children (nodeat h1 (List.length h)) /\
  forall i x, dom !! i = Some x ->
    exists n, h1 !! x = Some n /\ _parent n = Some (List.length h) /\
              _index n = i.
Proof.
  intros Hwf Hp. destruct (heap_wf_parse _ _ _ _ _ _ Hp Hwf) as [Hwf1 Hdom].
  split; [exact Hwf1|]. split; [exact Hdom|].
  intros i x Hx. rewrite Hdom in Hx. unfold nodeat in Hx.
  destruct (h1 !! List.length h) as [root|] eqn:Hroot; [|discriminate].
  exact (wf_child h1 Hwf1 _ _ _ _ Hroot Hx).
Qed.

(** What [parse] returns on the heap [h] with the table [st]: the table,
    the forest and the heap; the arguments when it throws. *)
Definition parsed (content : string) (h : Heap) (st : PState)
  : PState * list ref * Heap :=
  match parse content h st with
  | Some (st1, inr (dom, h1)) => (st1, dom, h1)
  | _ => (st, [], h)
  end.

Lemma parsed_wf (content : string) (h : Heap) (st : PState) :
  heap_wf h -> heap_wf (snd (parsed content h st)).
Proof.
  intros Hwf. unfold parsed.
  destruct (parse content h st) as [[st1 [e|[dom h1]]]|] eqn:Hp;
    try exact Hwf.
  apply (heap_wf_parse _ _ _ _ _ _ Hp Hwf).
Qed.

Lemma parse_builds_tree_witness :
  heap_wf (snd (parsed "<p>a</p>b" [] initial_pstate)).
Proof.
  refine (proj1 (parse_builds_tree "<p>a</p>b" [] _ initial_pstate
                   (fst (fst (parsed "<p>a</p>b" [] initial_pstate)))
                   (snd (fst (parsed "<p>a</p>b" [] initial_pstate)))
                   heap_wf_nil _)).
  vm_compute. reflexivity.
Defined.

(** The synthetic root is a new node. *)
Lemma parse_grows (content : string) (h h1 : Heap) (st st1 : PState)
  (dom : list ref) :
  parse content h st = Some (st1, inr (dom, h1)) ->
  List.length h < List.length h1.
Proof.
  intros Hp. unfold parse in Hp. cbn [alloc] in Hp.
  destruct (preProcess content st) as [st0 [e|masked]]; [discriminate|].
  destruct (parse_loop _ _ _ _ _ _) as [[st2 [e|h2]]|] eqn:Hl;
    try discriminate.
  injection Hp as <- <- <-.
  destruct (conditions_kept_parse_loop _ _ _ _ _ _ _ _ Hl (List.length h)
              Node_empty) as [n' [Hn' _]].
  { rewrite lookup_app_r by lia. rewrite Nat.sub_diag. reflexivity. }
  apply lookup_lt_Some in Hn'. exact Hn'.
Qed.

(** X5: [parse] adds nodes to the heap and leaves the nodes of earlier
    trees as they are: a tree kept in the cache is not changed by a
    later parse. *)
Theorem parse_keeps_earlier_trees (content : string) (h h1 : Heap)
  (st st1 : PState) (dom : list ref) :
  parse content h st = Some (st1, inr (dom, h1)) ->
  List.length h < List.length h1 /\
  forall x n, h !! x = Some n -> h1 !! x = Some n.
Proof.
  intros Hp. split; [exact (parse_grows _ _ _ _ _ _ Hp)|].
  exact (parse_keeps_nodes _ _ _ _ _ _ Hp).
Qed.

Lemma parse_keeps_earlier_trees_witness :
  let first := parsed "<p>a</p>b" [] initial_pstate in
  let second := parsed "<i>c</i>" (snd first) (fst (fst first)) in
  List.length (snd first) < List.length (snd second).
Proof.
  refine (proj1 (parse_keeps_earlier_trees "<i>c</i>"
                   (snd (parsed "<p>a</p>b" [] initial_pstate)) _
                   (fst (fst (parsed "<p>a</p>b" [] initial_pstate)))
                   (fst (fst (parsed "<i>c</i>"
                                (snd (parsed "<p>a</p>b" [] initial_pstate))
                                (fst (fst (parsed "<p>a</p>b" []
                                             initial_pstate))))))
                   (snd (fst (parsed "<i>c</i>"
                                (snd (parsed "<p>a</p>b" [] initial_pstate))
                                (fst (fst (parsed "<p>a</p>b" []
                                             initial_pstate))))))
                   _)).
  vm_compute. reflexivity.
Defined.

(** ** Siblings *)

(** [get prev()]: the child at [_index - 1]; at index 0 the read of
    [_children[-1]] gives [undefined]. *)
Definition prev (h : Heap) (this : ref) : Res (option ref) :=
  match h !! this with
  | Some n =>
      match _parent n with
      | Some p =>
          match h !! p with
          | Some pn =>
              ret (match _index n with
                   | O => None
                   | S i => _children pn !! i
                   end)
          | None => ret None
          end
      | None =>
          throw (TypeError
            "Cannot read properties of undefined (reading '_children')")
      end
  | None => ret None
  end.

(** [get prevElement()]: its body reads [this.next], as the body of
    [nextElement] does. *)
Definition prevElement (h : Heap) (this : ref) : Res (option ref) :=
  let! nx := next h this in
  match nx with
  | None =>
      throw (TypeError
        "Cannot read properties of undefined (reading 'isElement')")
  | Some n =>
      if match h !! n with Some nn => isElement nn | None => false end
      then ret (Some n)
      else next h n
  end.

Lemma next_is_sibling (h : Heap) (r x : ref) :
  heap_wf h -> next h r = inr (Some x) ->
  exists n xn, h !! r = Some n /\ h !! x = Some xn /\
               _parent xn = _parent n /\ _index xn = S (_index n).
Proof.
  intros Hwf Hn.
  destruct (next_Some h r x Hn) as [n [p [pn [Hr [Hp [Hpn Hx]]]]]].
  destruct (wf_child h Hwf p pn _ x Hpn Hx) as [xn [Hxn [Hxp Hxi]]].
  exists n, xn. repeat split; try assumption; [congruence|lia].
Qed.

(** X12: in a well-formed heap [prev] undoes [next] and [next] undoes
    [prev]. *)
Theorem next_prev_round_trip (h : Heap) (r x : ref) :
  heap_wf h ->
  (next h r = inr (Some x) -> prev h x = inr (Some r)) /\
  (prev h x = inr (Some r) -> next h r = inr (Some x)).
Proof.
  intros Hwf. split.
  - intros Hn. destruct (next_is_sibling h r x Hwf Hn)
      as [n [xn [Hr [Hx [Hp Hi]]]]].
    destruct (next_Some h r x Hn) as [n' [p [pn [Hr' [Hp' [Hpn Hc]]]]]].
    assert (n' = n) by congruence. subst n'.
    unfold prev. rewrite Hx, Hp, Hp', Hpn, Hi.
    destruct (wf_parent h Hwf r n p Hr Hp') as [pn' [Hpn' Hri]].
    assert (pn' = pn) by congruence. subst pn'. rewrite Hri. reflexivity.
  - unfold prev. destruct (h !! x) as [xn|] eqn:Hx; [|discriminate].
    destruct (_parent xn) as [p|] eqn:Hp; [|discriminate].
    destruct (h !! p) as [pn|] eqn:Hpn; [|discriminate].
    destruct (_index xn) as [|i] eqn:Hi; [discriminate|].
    intros [= Hr].
    destruct (wf_child h Hwf p pn i r Hpn Hr) as [n [Hn [Hnp Hni]]].
    destruct (wf_parent h Hwf x xn p Hx Hp) as [pn' [Hpn' Hxi]].
    assert (pn' = pn) by congruence. subst pn'.
    unfold next. rewrite Hn, Hnp, Hpn, Hni. rewrite Hi in Hxi.
    replace (i + 1) with (S i) by lia. rewrite Hxi. reflexivity.
Qed.

Lemma next_prev_round_trip_witness :
  prev (snd (parsed "<p>a</p>b" [] initial_pstate)) 4 = inr (Some 1).
Proof.
  apply (proj1 (next_prev_round_trip
                  (snd (parsed "<p>a</p>b" [] initial_pstate)) 1 4
                  (parsed_wf _ _ _ heap_wf_nil))).
  vm_compute. reflexivity.
Defined.

(** X13: [prevElement] looks forward: in a well-formed heap the node it
    returns is a sibling that comes after the node it is asked of, never
    one that comes before. *)
Theorem prevElement_looks_forward (h : Heap) (r x : ref) :
  heap_wf h ->
  prevElement h r = inr (Some x) ->
  exists n xn, h !! r = Some n /\ h !! x = Some xn /\
               _parent xn = _parent n /\ _index n < _index xn.
Proof.
  intros Hwf. unfold prevElement.
  destruct (next h r) as [e|[y|]] eqn:Hy; cbn [bind]; try discriminate.
  destruct (next_is_sibling h r y Hwf Hy) as [n [yn [Hr [Hyn [Hp Hi]]]]].
  rewrite Hyn. destruct (isElement yn).
  - intros [= <-]. exists n, yn. repeat split; try assumption. lia.
  - intros Hx. destruct (next_is_sibling h y x Hwf Hx)
      as [yn' [xn [Hyn' [Hxn [Hp' Hi']]]]].
    assert (yn' = yn) by congruence. subst yn'.
    exists n, xn. repeat split; try assumption; [congruence|lia].
Qed.

Lemma prevElement_looks_forward_witness :
  exists n xn,
    snd (parsed "<i>a</i><b>c</b>" [] initial_pstate) !! 1 = Some n /\
    snd (parsed "<i>a</i><b>c</b>" [] initial_pstate) !! 4 = Some xn /\
    _parent xn = _parent n /\ _index n < _index xn.
Proof.
  apply (prevElement_looks_forward
           (snd (parsed "<i>a</i><b>c</b>" [] initial_pstate)) 1 4).
  - apply parsed_wf, heap_wf_nil.
  - vm_compute. reflexivity.
Defined.

(** ** A condition without a following sibling *)

Lemma raise_is_toString (options : Options) (node : Node) (e : Exn) :
  @raiseTemplateError string options node e = inl toString_of_undefined.
Proof. destruct e; reflexivity. Qed.

(** A directive body that is rejected at once: the handler of
    [parseElement] runs, and throws on [node.line]. *)
Lemma tagged_rejected (options : Options) (node : Node) (body : Async string)
  (s : State) (e : Exn) :
  body s = (s, Rejected e) ->
  fst (tagged options node body s) = s /\
  forall s', settle (snd (tagged options node body s)) s'
             = (s', Some (inl toString_of_undefined)).
Proof.
  intros Hb. unfold tagged. rewrite Hb. cbn [await fst snd].
  split; [reflexivity|]. intros s'.
  cbn [caught on_reject settle lift reject settled].
  rewrite raise_is_toString. reflexivity.
Qed.

(** X20: a [t-if] or [t-elif] element that is the last child of its parent
    cannot be rendered.  Whatever its attributes, the evaluator and the
    context, [parseElement] leaves the state as it is and its promise is
    rejected: when the expression has a value, [renderCondition] reads
    [nextElement], which throws on the missing sibling. *)
Theorem condition_needs_next_sibling (runner : Runner) (platform : Platform)
  (fuel this : nat) (options : Options) (r : ref) (context : Context)
  (s : State) :
  _type (node_at s r) = Some ELEMENT_NODE ->
  _tag (node_at s r) = TAGS_IF \/ _tag (node_at s r) = TAGS_ELIF ->
  next (heap s) r = inr None ->
  fst (parseElement runner platform (S fuel) this options r context s) = s /\
  forall s',
    settle (snd (parseElement runner platform (S fuel) this options r context
                   s)) s'
    = (s', Some (inl toString_of_undefined)).
Proof.
  intros Hty Htag Hnext. cbn [parseElement]. unfold parseElement_body.
  rewrite Hty. unfold dispatch.
  assert (Hc : exists e,
            renderCondition runner (parseElement runner platform fuel) this
              options r (node_at s r) context s = (s, Rejected e)).
  { unfold renderCondition, nextElement. rewrite Hnext. cbn [bind].
    destruct (getExpressionValue runner context _); eexists; reflexivity. }
  destruct Hc as [ec Hc].
  destruct Htag as [Ht|Ht]; rewrite Ht; cbn [String.eqb Ascii.eqb Bool.eqb].
  - assert (Hb : exists e,
              renderIf runner (parseElement runner platform fuel) this options
                r (node_at s r) context s = (s, Rejected e)).
    { unfold renderIf. destruct (hasOwn "on" _) as [e|[|]]; cbn [lift negb];
        eauto; eexists; reflexivity. }
    destruct Hb as [e Hb]. eapply tagged_rejected, Hb.
  - assert (Hb : exists e,
              renderElif runner (parseElement runner platform fuel) this
                options r (node_at s r) context s = (s, Rejected e)).
    { unfold renderElif. destruct (hasOwn "on" _) as [e|[|]]; cbn [lift negb];
        try (eexists; reflexivity).
      destruct (__condition__ (node_at s r)); eauto; eexists; reflexivity. }
    destruct Hb as [e Hb]. eapply tagged_rejected, Hb.
Qed.

(** A [t-if] alone, parsed in a fresh process. *)
Definition lone_if_state : State :=
  fst (parseDOM Sample.platform ("<t-if on=" +:+ quoted "x" +:+ ">A</t-if>")
         false initial_state).

Lemma condition_needs_next_sibling_witness :
  settle (snd (parseElement Sample.runner Sample.platform 1 0
                 (mkOptions false None) 1 [("x", VBool true)] lone_if_state))
         lone_if_state
  = (lone_if_state, Some (inl toString_of_undefined)).
Proof.
  apply (condition_needs_next_sibling Sample.runner Sample.platform 0 0
           (mkOptions false None) 1 [("x", VBool true)] lone_if_state).
  - vm_compute. reflexivity.
  - left. vm_compute. reflexivity.
  - vm_compute. reflexivity.
Defined.

(** ** The expression resolver *)

Lemma replaceAll_char_gone (a : ascii) (rep s : string) :
  no_char (Ascii.eqb a) rep = true ->
  no_char (Ascii.eqb a) (replaceAll (String a EmptyString) rep s) = true.
Proof.
  intros Hrep. unfold replaceAll, no_char in *.
  induction s as [|c s IH]; [reflexivity|].
  cbn [replace_go Str.starts Str.eqc String.length Nat.sub].
  destruct (Ascii.eqb a c) eqn:E; cbn [andb].
  - rewrite all_chars_append, Hrep, IH. reflexivity.
  - cbn [all_chars]. rewrite E, IH. reflexivity.
Qed.

Lemma replaceAll_char_kept (a b : ascii) (rep s : string) :
  no_char (Ascii.eqb b) rep = true ->
  no_char (Ascii.eqb b) s = true ->
  no_char (Ascii.eqb b) (replaceAll (String a EmptyString) rep s) = true.
Proof.
  intros Hrep. unfold replaceAll, no_char in *.
  induction s as [|c s IH]; intros Hs; [reflexivity|].
  cbn [all_chars] in Hs. apply andb_true_iff in Hs as [Hc Hs].
  cbn [replace_go Str.starts Str.eqc String.length Nat.sub].
  destruct (Ascii.eqb a c) eqn:E; cbn [andb].
  - rewrite all_chars_append, Hrep, (IH Hs). reflexivity.
  - cbn [all_chars]. rewrite Hc, (IH Hs). reflexivity.
Qed.

(** X15: unless the context sets [__useRawHTML], the text that a span is
    replaced by holds neither [<] nor [>], whatever the evaluator
    returns. *)
Theorem interpolate_escapes (runner : Runner) (context : Context)
  (exp text : string) :
  JS.truthy (default VUndefined (Obj.get "__useRawHTML" context)) = false ->
  interpolate runner context exp = inr text ->
  no_char (Ascii.eqb "<") text = true /\ no_char (Ascii.eqb ">") text = true.
Proof.
  intros Hraw. unfold interpolate. rewrite Hraw.
  destruct (getExpressionValue runner context _) as [e|value];
    cbn [bind]; [discriminate|].
  destruct (is_plain_object value) as [e|plain]; cbn [bind ret];
    [discriminate|].
  intros [= <-]. split.
  - apply replaceAll_char_kept; [reflexivity|].
    apply replaceAll_char_gone. reflexivity.
  - apply replaceAll_char_gone. reflexivity.
Qed.

Lemma interpolate_escapes_witness :
  no_char (Ascii.eqb "<") "&lt;b&gt;" = true /\
  no_char (Ascii.eqb ">") "&lt;b&gt;" = true.
Proof.
  apply (interpolate_escapes Sample.runner [("x", VString "<b>")] "x").
  - reflexivity.
  - vm_compute. reflexivity.
Defined.

Lemma m_expression_needs_braces (s : string) :
  Str.starts false "{{" s = false -> m_expression s = None.
Proof.
  destruct s as [|a [|b r]]; try reflexivity.
  - intros _. unfold m_expression.
    destruct a as [[] [] [] [] [] [] [] []]; reflexivity.
  - cbn [Str.starts Str.eqc].
    destruct (Ascii.eqb_spec "{" a) as [<-|Ha]; cbn [andb].
    + destruct (Ascii.eqb_spec "{" b) as [<-|Hb]; cbn [andb]; [discriminate|].
      intros _. unfold m_expression.
      destruct b as [[] [] [] [] [] [] [] []]; try reflexivity. congruence.
    + intros _. unfold m_expression.
      destruct a as [[] [] [] [] [] [] [] []]; try reflexivity. congruence.
Qed.

Lemma resolveExpression_without_span (runner : Runner) (content : string)
  (context : Context) :
  Str.find false "{{" content = None ->
  resolveExpression runner content context = inr content.
Proof.
  intros H. unfold resolveExpression, replace_all.
  rewrite gsub_no_match; [reflexivity|].
  intros k. apply m_expression_needs_braces.
  apply (find_None_starts false "{{" content H k).
Qed.

(** X16: a text without two opening braces in a row is returned by
    [resolveExpression] as it is, and the evaluator is not called:
    the result is the same for every evaluator and context. *)
Theorem resolveExpression_plain_text (runner : Runner) (content : string)
  (context : Context) :
  Str.find false "{{" content = None ->
  resolveExpression runner content context = inr content.
Proof. apply resolveExpression_without_span. Qed.

Lemma resolveExpression_plain_text_witness :
  resolveExpression Sample.runner "a { b } c" [] = inr "a { b } c".
Proof.
  apply (resolveExpression_plain_text Sample.runner "a { b } c" []).
  reflexivity.
Defined.

(** The text of a value of the evaluator, as a span is replaced by it. *)
Definition escape (text : string) : string :=
  replaceAll ">" "&gt;" (replaceAll "<" "&lt;" text).

Lemma interpolate_string (runner : Runner) (context : Context)
  (exp v : string) :
  Obj.get "__useRawHTML" context = None ->
  getExpressionValue runner context (Str.trim exp) = inr (VString v) ->
  interpolate runner context exp = inr (escape v).
Proof.
  intros Hraw Hv. unfold interpolate. rewrite Hv, Hraw. reflexivity.
Qed.

Lemma resolveExpression_one_span (runner : Runner) (context : Context)
  (c : ascii) (rest exp : string) :
  m_expression (String c rest) = Some (String c rest, exp) ->
  resolveExpression runner (String c rest) context
  = interpolate runner context exp.
Proof.
  intros Hm. unfold resolveExpression, replace_all. cbn [gsub]. rewrite Hm.
  unfold sbind, sret. destruct (interpolate runner context exp) as [e|r];
    [reflexivity|].
  rewrite gsub_skip_all by (simpl; lia). cbn [snd].
  rewrite append_empty_r. reflexivity.
Qed.

(** X17: what the children of a directive render to is resolved once
    more.  When the value of [a] is the text of a span of [b], a text
    node [{{a}}] renders to that text, but rendered as the body of a
    directive, through [parseChildren], it gives the value of [b]: a
    value that spells a span is evaluated in its turn. *)
Theorem directive_body_resolved_twice (runner : Runner) (platform : Platform)
  (fuel this : nat) (options : Options) (r : ref) (context : Context)
  (s : State) (v : string) :
  _type (node_at s r) = Some TEXT_NODE ->
  _raw (node_at s r) = "{{a}}" ->
  Obj.get "__useRawHTML" context = None ->
  getExpressionValue runner context "a" = inr (VString "{{b}}") ->
  getExpressionValue runner context "b" = inr (VString v) ->
  parseElement runner platform (S fuel) this options r context s
  = (s, Fulfilled "{{b}}") /\
  settle
    (snd (parseChildren runner (parseElement runner platform (S fuel)) this
            options [r] context s))
    (fst (parseChildren runner (parseElement runner platform (S fuel)) this
            options [r] context s))
  = (s, Some (inr (escape v))).
Proof.
  intros Hty Hraw Hctx Ha Hb.
  assert (Hnode : parseElement runner platform (S fuel) this options r
                    context s = (s, Fulfilled "{{b}}")).
  { cbn [parseElement]. unfold parseElement_body. rewrite Hty, Hraw.
    rewrite (resolveExpression_one_span runner context "{" "{a}}" "a" eq_refl).
    rewrite (interpolate_string runner context "a" "{{b}}" Hctx Ha).
    reflexivity. }
  split; [exact Hnode|].
  unfold parseChildren. cbn [start_all]. rewrite Hnode.
  cbn [await_all fst snd settle settle_all lift Str.concat].
  change ("{{b}}" +:+ EmptyString) with "{{b}}".
  rewrite (resolveExpression_one_span runner context "{" "{b}}" "b" eq_refl).
  rewrite (interpolate_string runner context "b" v Hctx Hb).
  reflexivity.
Qed.

Lemma directive_body_resolved_twice_witness :
  settle
    (snd (parseChildren Sample.runner
            (parseElement Sample.runner Sample.platform 1) 0
            (mkOptions false None) [1]
            [("a", VString "{{b}}"); ("b", VString "<i>")]
            (fst (parseDOM Sample.platform "{{a}}" false initial_state))))
    (fst (parseChildren Sample.runner
            (parseElement Sample.runner Sample.platform 1) 0
            (mkOptions false None) [1]
            [("a", VString "{{b}}"); ("b", VString "<i>")]
            (fst (parseDOM Sample.platform "{{a}}" false initial_state))))
  = (fst (parseDOM Sample.platform "{{a}}" false initial_state),
     Some (inr "&lt;i&gt;")).
Proof.
  refine (proj2 (directive_body_resolved_twice Sample.runner Sample.platform
                   0 0 (mkOptions false None) 1
                   [("a", VString "{{b}}"); ("b", VString "<i>")]
                   (fst (parseDOM Sample.platform "{{a}}" false initial_state))
                   "<i>" _ _ _ _ _)); vm_compute; reflexivity.
Defined.

(** ** The template cache *)

(** X26: the cache is keyed by the digest alone.  Once [parseDOM] with
    caching has returned a forest for a content, it returns that forest,
    and leaves the process as it is, for every content of the same
    digest: for the same content again, and for any other content whose
    digest collides. *)
Theorem parseDOM_hit_by_digest (platform : Platform)
  (content content' : string) (s s' : State) (dom : list ref) :
  parseDOM platform content true s = (s', Some (inr dom)) ->
  md5 platform content' = md5 platform content ->
  parseDOM platform content' true s' = (s', Some (inr dom)).
Proof.
  intros Hp Hd.
  assert (Hkey : DOM_CACHE s' !! md5 platform content = Some dom).
  { unfold parseDOM in Hp. cbn [negb] in Hp.
    destruct (DOM_CACHE s !! md5 platform content) as [d|] eqn:Hc.
    - injection Hp as <- <-. exact Hc.
    - unfold parse_and_store in Hp.
      destruct (parse content (heap s) (pstate s)) as [[st [e|[d h]]]|];
        try discriminate.
      injection Hp as <- <-. cbn [DOM_CACHE]. apply lookup_insert_eq. }
  unfold parseDOM. cbn [negb]. rewrite Hd, Hkey. reflexivity.
Qed.

Lemma parseDOM_hit_by_digest_witness :
  parseDOM Sample.platform "<p>a</p>" true
    (fst (parseDOM Sample.platform "<p>a</p>" true initial_state))
  = (fst (parseDOM Sample.platform "<p>a</p>" true initial_state),
     Some (inr [1])).
Proof.
  apply (parseDOM_hit_by_digest Sample.platform "<p>a</p>" "<p>a</p>"
           initial_state).
  - vm_compute. reflexivity.
  - reflexivity.
Defined.

(** X27: without caching [parseDOM] neither reads nor writes the cache: the
    cache is left as it was, and a forest it returns is freshly parsed,
    on new nodes, also when the cache holds a forest for the content. *)
Theorem parseDOM_uncached (platform : Platform) (content : string)
  (s s' : State) (dom : list ref) :
  parseDOM platform content false s = (s', Some (inr dom)) ->
  DOM_CACHE s' = DOM_CACHE s /\
  List.length (heap s) < List.length (heap s') /\
  dom = _children (nodeat (heap s') (List.length (heap s))).
Proof.
  unfold parseDOM, parse_and_store. cbn [negb].
  destruct (parse content (heap s) (pstate s)) as [[st [e|[d h]]]|] eqn:Hp;
    try discriminate.
  intros [= <- <-]. cbn [DOM_CACHE heap]. split; [reflexivity|].
  split; [apply (parse_grows _ _ _ _ _ _ Hp)|].
  unfold parse in Hp. cbn [alloc] in Hp.
  destruct (preProcess content (pstate s)) as [st0 [e|masked]];
    [discriminate|].
  destruct (parse_loop _ _ _ _ _ _) as [[st2 [e|h2]]|]; try discriminate.
  injection Hp as _ <- <-. reflexivity.
Qed.

Lemma parseDOM_uncached_witness :
  let s1 := fst (parseDOM Sample.platform "<p>a</p>" true initial_state) in
  let s2 := fst (parseDOM Sample.platform "<p>a</p>" false s1) in
  DOM_CACHE s2 = DOM_CACHE s1 /\
  List.length (heap s1) < List.length (heap s2) /\
  [5] = _children (nodeat (heap s2) (List.length (heap s1))).
Proof.
  apply (parseDOM_uncached Sample.platform "<p>a</p>"
           (fst (parseDOM Sample.platform "<p>a</p>" true initial_state))
           (fst (parseDOM Sample.platform "<p>a</p>" false
                   (fst (parseDOM Sample.platform "<p>a</p>" true
                           initial_state))))
           [5]).
  vm_compute. reflexivity.
Defined.

(** ** What a render does to the trees *)

(** Every node of [h] is on the heap of [s], the same but for its
    condition. *)
Definition nodes_kept (h : Heap) (s : State) : Prop :=
  forall x n, h !! x = Some n ->
    exists n', heap s !! x = Some n' /\ erase n' = erase n.

Lemma nodes_kept_fields (h : Heap) (s s' : State) :
  heap s' = heap s -> nodes_kept h s -> nodes_kept h s'.
Proof. intros E H x n Hx. rewrite E. apply H, Hx. Qed.

Lemma nodes_kept_condition (h : Heap) (s : State) (nx : ref) (b : bool) :
  nodes_kept h s ->
  nodes_kept h (set_heap (update nx (with_condition b) (heap s)) s).
Proof.
  intros H x n Hx. destruct (H x n Hx) as [n' [Hn' He]].
  cbn [set_heap heap]. rewrite update_lookup.
  destruct (decide (x = nx)) as [->|]; [|eauto].
  rewrite Hn'. eexists. split; [reflexivity|]. rewrite <- He. reflexivity.
Qed.

Lemma nodes_kept_parseDOM (platform : Platform) (h : Heap) (content : string)
  (cache : bool) (s : State) :
  nodes_kept h s -> nodes_kept h (fst (parseDOM platform content cache s)).
Proof.
  intros H.
  assert (Hstore : forall store,
            nodes_kept h (fst (parse_and_store platform content store s))).
  { intros store. unfold parse_and_store.
    destruct (parse content (heap s) (pstate s)) as [[st [e|[dom h1]]]|] eqn:Hp;
      cbn [fst]; try exact H.
    intros x n Hx. destruct (H x n Hx) as [n' [Hn' He]].
    exists n'. split; [|exact He]. cbn [heap].
    apply (parse_keeps_nodes _ _ _ _ _ _ Hp), Hn'. }
  unfold parseDOM. destruct (negb cache); [apply Hstore|].
  destruct (DOM_CACHE s !! _); [exact H|apply Hstore].
Qed.

(** X28: rendering changes no node of a parsed tree but in its condition.
    After any render, of whatever template, with whatever outcome, every
    node that was on the heap is still there with the children, raw
    text, type, tag, attributes and parent it had. *)
Theorem render_changes_conditions_only (runner : Runner)
  (platform : Platform) (fuel : nat) (content : string) (context : Context)
  (options : Options) (s : State) (x : ref) (n : Node) :
  heap s !! x = Some n ->
  exists n',
    heap (fst (run_engine runner platform fuel content context options s)) !! x
    = Some n' /\
    erase n' = erase n.
Proof.
  revert x n.
  apply (run_engine_keeps runner platform (nodes_kept (heap s))).
  - intros s0 nx b. apply nodes_kept_condition.
  - intros s0 this t. apply nodes_kept_fields. reflexivity.
  - intros s0. apply nodes_kept_fields. reflexivity.
  - intros s0. apply nodes_kept_fields. reflexivity.
  - intros s0. apply nodes_kept_fields. reflexivity.
  - intros c0 cache s0. apply nodes_kept_parseDOM.
  - intros x n Hx. eauto.
Qed.

Lemma render_changes_conditions_only_witness :
  exists n',
    heap (fst (run_engine Sample.runner Sample.platform 3 if_else_template
                 [("visible", VBool false)] (mkOptions true None)
                 if_else_parsed)) !! 4
    = Some n' /\
    erase n' = erase (node_at if_else_parsed 4).
Proof.
  apply (render_changes_conditions_only Sample.runner Sample.platform 3
           if_else_template [("visible", VBool false)] (mkOptions true None)
           if_else_parsed 4 (node_at if_else_parsed 4)).
  vm_compute. reflexivity.
Defined.

(** X29: every render leaves the process well formed: the heap stays well
    formed and every forest in the cache stays the list of children of a
    node of the heap, whether the render returns or is rejected. *)
Theorem render_keeps_process_wf (runner : Runner) (platform : Platform)
  (fuel : nat) (content : string) (context : Context) (options : Options)
  (s : State) :
  process_wf s ->
  process_wf (fst (run_engine runner platform fuel content context options s)).
Proof. apply process_wf_run_engine. Qed.

Lemma render_keeps_process_wf_witness :
  process_wf (fst (run_engine Sample.runner Sample.platform 3
                     if_else_template [("visible", VBool false)]
                     (mkOptions true None) initial_state)).
Proof.
  apply (render_keeps_process_wf Sample.runner Sample.platform 3
           if_else_template [("visible", VBool false)] (mkOptions true None)
           initial_state).
  apply process_wf_initial.
Defined.

(** ** Directives *)

(** X21: a [t-elif] looks at the presence of the condition propagated to
    it and never at its value: once it has received a condition, true or
    false, it renders exactly as a [t-if] with the same attributes
    would, evaluating its own expression and rendering its body when
    that is truthy, also when an earlier branch of the chain was
    taken. *)
Theorem elif_ignores_propagated_value (runner : Runner)
  (pe : nat -> Options -> ref -> Context -> Async string)
  (this : nat) (options : Options) (r : ref) (node : Node)
  (context : Context) (c : bool) :
  hasOwn "on" (_attrs node) = inr true ->
  __condition__ node = Some c ->
  renderElif runner pe this options r node context
  = renderIf runner pe this options r node context.
Proof.
  intros Hon Hc. unfold renderElif, renderIf. rewrite Hon, Hc. reflexivity.
Qed.

Lemma elif_ignores_propagated_value_witness :
  let node :=
    mkNode [] EmptyString true (Some ELEMENT_NODE) TAGS_ELIF [("on", "b")]
           false 0 None (Some false) in
  renderElif Sample.runner (parseElement Sample.runner Sample.platform 0) 0
    (mkOptions false None) 1 node []
  = renderIf Sample.runner (parseElement Sample.runner Sample.platform 0) 0
      (mkOptions false None) 1 node [].
Proof.
  apply (elif_ignores_propagated_value Sample.runner
           (parseElement Sample.runner Sample.platform 0) 0
           (mkOptions false None) 1
           (mkNode [] EmptyString true (Some ELEMENT_NODE) TAGS_ELIF
                   [("on", "b")] false 0 None (Some false))
           [] false); reflexivity.
Defined.

(** X23: when [renderTree] returns on array data, the session it has
    written under the identifier it drew is deleted again, while the
    promise it returns is still pending: for every tree, body and
    context the session exists only during the synchronous part of the
    rendering. *)
Theorem renderTree_session_is_synchronous (runner : Runner)
  (platform : Platform)
  (pe : nat -> Options -> ref -> Context -> Async string)
  (this : nat) (options : Options) (node : Node) (context : Context)
  (s : State) (items : list Value) :
  hasOwn "on" (_attrs node) = inr true ->
  Obj.get (default "undefined"
             (JS.split " as " (default "undefined" (Obj.get "on" (_attrs node)))
                !! 0))
          context
  = Some (VArray items) ->
  this < List.length (engines s) ->
  let run := renderTree runner platform pe this options node context s in
  TREE_CACHE this (fst run) !! fresh_treeId platform (draws s) = None /\
  is_pending (snd run) = true.
Proof.
  intros Hon Hdata Hlt. cbn zeta.
  destruct (renderTree_deletes_before_settling runner platform pe this options
              node context s items Hon Hdata Hlt) as [H1 [k Hk]].
  split; [exact H1|]. rewrite Hk. reflexivity.
Qed.

Lemma renderTree_session_is_synchronous_witness :
  let node :=
    mkNode [] EmptyString true (Some ELEMENT_NODE) TAGS_TREE
           [("on", "a as x")] false 0 None None in
  let run :=
    renderTree Sample.runner Sample.platform
      (parseElement Sample.runner Sample.platform 0) 0 (mkOptions false None)
      node [("a", VArray [VNumber 1])] fresh_engine in
  TREE_CACHE 0 (fst run) !! fresh_treeId Sample.platform (draws fresh_engine)
  = None /\
  is_pending (snd run) = true.
Proof.
  apply (renderTree_session_is_synchronous Sample.runner Sample.platform
           (parseElement Sample.runner Sample.platform 0) 0
           (mkOptions false None)
           (mkNode [] EmptyString true (Some ELEMENT_NODE) TAGS_TREE
                   [("on", "a as x")] false 0 None None)
           [("a", VArray [VNumber 1])] fresh_engine [VNumber 1]).
  - reflexivity.
  - vm_compute. reflexivity.
  - vm_compute. lia.
Defined.

(** *** Contexts *)

Lemma get_put {A} (k k' : string) (v : A) (o : list (string * A)) :
  Obj.get k (Obj.put k' v o)
  = if String.eqb k k' then Some v else Obj.get k o.
Proof.
  induction o as [|[k0 v0] o IH]; cbn [Obj.put Obj.get].
  - destruct (String.eqb k k'); reflexivity.
  - destruct (String.eqb_spec k' k0) as [->|Hne]; cbn [Obj.get].
    + destruct (String.eqb k k0); reflexivity.
    + rewrite IH. destruct (String.eqb_spec k k0) as [->|Hk]; [|reflexivity].
      destruct (String.eqb_spec k0 k') as [->|]; [congruence|reflexivity].
Qed.

Lemma get_absent {A} (k : string) (o : list (string * A)) :
  ~ In k (List.map fst o) -> Obj.get k o = None.
Proof.
  induction o as [|[k0 v0] o IH]; intros H; cbn [Obj.get]; [reflexivity|].
  destruct (String.eqb_spec k k0) as [->|Hne].
  - destruct H. left. reflexivity.
  - apply IH. intros Hin. apply H. right. exact Hin.
Qed.

(** [{...a, ...b}] read at a key: the value in [b], else the value in
    [a]. *)
Lemma get_spread (k : string) (b : Context) :
  NoDup (List.map fst b) ->
  forall a, Obj.get k (spread a b)
            = match Obj.get k b with
              | Some v => Some v
              | None => Obj.get k a
              end.
Proof.
  unfold spread. induction b as [|[k1 v1] b IH]; intros Hnd a;
    cbn [fold_left Obj.get List.map fst] in *; [reflexivity|].
  apply NoDup_cons in Hnd as [Hk1 Hnd]. rewrite list_elem_of_In in Hk1.
  rewrite (IH Hnd), get_put.
  destruct (String.eqb_spec k k1) as [->|Hne]; [|reflexivity].
  rewrite (get_absent k1 b Hk1). reflexivity.
Qed.

(** X24: the context that [renderTreeChildren] builds for an item,
    [{__tree_id__: treeId, ...context, [varName]: item}], carries the
    identifier of the enclosing context when that has one: inside the
    body of a tree, the items of a nested tree are rendered under the
    identifier of the outer session, not under the one that the nested
    tree has drawn. *)
Theorem tree_item_context_keeps_outer_id (treeId varName : string)
  (item outer : Value) (context : Context) :
  NoDup (List.map fst context) ->
  Obj.get "__tree_id__" context = Some outer ->
  varName <> "__tree_id__" ->
  Obj.get "__tree_id__"
    (Obj.put varName item (spread [("__tree_id__", VString treeId)] context))
  = Some outer.
Proof.
  intros Hnd Hid Hvar. rewrite get_put.
  destruct (String.eqb_spec "__tree_id__" varName) as [E|_]; [congruence|].
  rewrite (get_spread _ _ Hnd), Hid. reflexivity.
Qed.

Lemma tree_item_context_keeps_outer_id_witness :
  Obj.get "__tree_id__"
    (Obj.put "y" (VNumber 1)
       (spread [("__tree_id__", VString "17000000000007")]
               [("__tree_id__", VString "170000000000042");
                ("x", VNumber 0)]))
  = Some (VString "170000000000042").
Proof.
  apply (tree_item_context_keeps_outer_id "17000000000007" "y" (VNumber 1)
           (VString "170000000000042")
           [("__tree_id__", VString "170000000000042"); ("x", VNumber 0)]).
  - apply (bool_decide_eq_true_1 _). vm_compute. reflexivity.
  - reflexivity.
  - discriminate.
Defined.

(** X22: a [t-for] whose expression has another operator than [of] or
    [in], or none, is rejected without calling the evaluator: the loop
    data stays undefined and iterating it throws. *)
Theorem for_needs_of_or_in (runner : Runner)
  (pe : nat -> Options -> ref -> Context -> Async string)
  (this : nat) (options : Options) (node : Node) (context : Context)
  (s : State) :
  hasOwn "on" (_attrs node) = inr true ->
  JS.split " " (default "undefined" (Obj.get "on" (_attrs node))) !! 1
    <> Some "of" ->
  JS.split " " (default "undefined" (Obj.get "on" (_attrs node))) !! 1
    <> Some "in" ->
  renderFor runner pe this options node context s
  = (s, Rejected (TypeError "loopContext is not iterable")).
Proof.
  intros Hon Hof Hin. unfold renderFor. rewrite Hon. cbn [lift negb].
  destruct (JS.split " " _ !! 1) as [op|]; [|reflexivity].
  destruct (String.eqb_spec op "of") as [->|_]; [congruence|].
  destruct (String.eqb_spec op "in") as [->|_]; [congruence|].
  reflexivity.
Qed.

Lemma for_needs_of_or_in_witness :
  renderFor Sample.runner (parseElement Sample.runner Sample.platform 0) 0
    (mkOptions false None)
    (mkNode [] EmptyString true (Some ELEMENT_NODE) TAGS_FOR
            [("on", "x from xs")] false 0 None None)
    [("xs", VArray [VNumber 1])] initial_state
  = (initial_state, Rejected (TypeError "loopContext is not iterable")).
Proof.
  apply (for_needs_of_or_in Sample.runner
           (parseElement Sample.runner Sample.platform 0) 0
           (mkOptions false None)
           (mkNode [] EmptyString true (Some ELEMENT_NODE) TAGS_FOR
                   [("on", "x from xs")] false 0 None None)
           [("xs", VArray [VNumber 1])] initial_state).
  - reflexivity.
  - vm_compute. discriminate.
  - vm_compute. discriminate.
Defined.

(** ** The exported [render] *)

(** X30: the exported [render] is the engine's [render] on the text of the
    file, with the file name as [filename] unless the options give one,
    followed by the replacement of the first [@{timestamp}@] of the
    output by the elapsed time; a rejection of the engine is passed
    on. *)
Theorem render_is_engine_then_timestamp (runner : Runner)
  (platform : Platform) (fuel : nat) (file content : string)
  (context : Context) (options : Options) (s : State) :
  readFile platform file = inr content ->
  run_render runner platform fuel file context options s
  = let run :=
      run_engine runner platform fuel content context
        (mkOptions (cache options) (Some (default file (filename options))))
        (mkState (heap s) (pstate s) (DOM_CACHE s) (engines s) (draws s)
                 (S (renders s))) in
    (fst run,
     match snd run with
     | Some (inr result) =>
         Some (inr (replaceFirst "@{timestamp}@"
                      (elapsed platform (renders s)) result))
     | other => other
     end).
Proof.
  intros Hread. unfold run_render, render, run_engine. rewrite Hread.
  cbn [settled await settle lift].
  destruct (Engine_new _) as [this s2].
  destruct (Engine_render _ _ _ _ _ _ s2) as [s3 p].
  cbn [await settle fst snd].
  destruct (settle p s3) as [s4 [[e|result]|]]; reflexivity.
Qed.

(** A platform with one file. *)
Definition one_file_platform : Platform :=
  mkPlatform
    (fun _ => 1700000000000%N)
    (fun _ => 42%N)
    (fun _ file => ret (default "undefined" file))
    (fun file =>
       if String.eqb file "page.html" then ret "<p>@{timestamp}@</p>"
       else throw (Error "no such file"))
    (fun _ => "0.000123")
    (fun content => content)
    Sample.builtins.

Lemma render_is_engine_then_timestamp_witness :
  run_render Sample.runner one_file_platform 3 "page.html" []
    (mkOptions false None) initial_state
  = (fst (run_render Sample.runner one_file_platform 3 "page.html" []
            (mkOptions false None) initial_state),
     Some (inr "<p>0.000123</p>")).
Proof.
  rewrite (render_is_engine_then_timestamp Sample.runner one_file_platform 3
             "page.html" "<p>@{timestamp}@</p>" [] (mkOptions false None)
             initial_state eq_refl).
  vm_compute. reflexivity.
Defined.

(** ** Plain text *)

(** A character that no pass of the parser and no replacement of the
    engine reacts to: not a backslash, [<], [{], [}], [=] or [_]. *)
Definition plain_char (c : ascii) : bool :=
  negb (Ascii.eqb c "\" || Ascii.eqb c "<" || Ascii.eqb c "{"
        || Ascii.eqb c "}" || Ascii.eqb c "=" || Ascii.eqb c "_").

Definition plain_text : string -> bool := all_chars plain_char.

Lemma all_chars_drop (p : ascii -> bool) (s : string) :
  all_chars p s = true -> forall k, all_chars p (Str.drop k s) = true.
Proof.
  induction s as [|c s IH]; intros H k; [destruct k; exact H|].
  destruct k as [|k]; [exact H|]. cbn [Str.drop all_chars] in *.
  apply andb_true_iff in H as [_ H]. apply IH, H.
Qed.

Ltac by_first_char H :=
  match type of H with
  | plain_text (String ?c _) = true =>
      apply andb_true_iff in H as [H _];
      destruct c as [[] [] [] [] [] [] [] []];
      try reflexivity; vm_compute in H; discriminate H
  end.

Lemma m_escape_plain (s : string) : plain_text s = true -> m_escape s = None.
Proof. destruct s as [|c s]; [reflexivity|]. intros H. by_first_char H. Qed.

Lemma m_tag_block_plain (names : list string) (backref : bool) (s : string) :
  plain_text s = true -> m_tag_block names backref s = None.
Proof. destruct s as [|c s]; [reflexivity|]. intros H. by_first_char H. Qed.

Lemma m_expression_plain (s : string) :
  plain_text s = true -> m_expression s = None.
Proof. destruct s as [|c s]; [reflexivity|]. intros H. by_first_char H. Qed.

Lemma m_attr_value_plain (s : string) :
  plain_text s = true -> m_attr_value s = None.
Proof. destruct s as [|c s]; [reflexivity|]. intros H. by_first_char H. Qed.

Lemma m_placeholder_plain (s : string) :
  plain_text s = true -> m_placeholder s = None.
Proof. destruct s as [|c s]; [reflexivity|]. intros H. by_first_char H. Qed.

Lemma replace_all_plain {S : Type} (matcher : string -> option (string * string))
  (callback : string -> string -> SRes S string) (s : string) (st : S) :
  (forall t, plain_text t = true -> matcher t = None) ->
  plain_text s = true ->
  replace_all matcher callback s st = (st, inr s).
Proof.
  intros Hm Hs. unfold replace_all. apply gsub_no_match.
  intros k. apply Hm, all_chars_drop, Hs.
Qed.

Lemma preProcess_plain (content : string) (st : PState) :
  plain_text content = true -> preProcess content st = (st, inr content).
Proof.
  intros H. unfold preProcess, sbind.
  rewrite (replace_all_plain m_escape _ content st m_escape_plain H).
  rewrite (replace_all_plain m_style_script _ content st
             (m_tag_block_plain _ _) H).
  rewrite (replace_all_plain m_link_meta _ content st
             (m_tag_block_plain _ _) H).
  rewrite (replace_all_plain m_expression _ content st m_expression_plain H).
  apply (replace_all_plain m_attr_value _ content st m_attr_value_plain H).
Qed.

Lemma decode_plain (content : string) (remove : bool) (st : PState) :
  plain_text content = true ->
  decode (Some content) remove st = (st, inr content).
Proof.
  intros H. unfold decode.
  apply (replace_all_plain m_placeholder _ content st m_placeholder_plain H).
Qed.

Lemma resolveExpression_plain (runner : Runner) (content : string)
  (context : Context) :
  plain_text content = true ->
  resolveExpression runner content context = inr content.
Proof.
  intros H. unfold resolveExpression.
  rewrite (replace_all_plain m_expression _ content tt m_expression_plain H).
  reflexivity.
Qed.

Lemma scan_plain (s : string) :
  plain_text s = true -> forall empty, scan false empty s = s.
Proof.
  induction s as [|c s IH]; intros H empty; [reflexivity|].
  cbn [plain_text all_chars] in H. apply andb_true_iff in H as [Hc H].
  cbn [scan]. rewrite andb_false_r.
  assert (E : Ascii.eqb c "<" = false).
  { unfold plain_char in Hc. apply negb_true_iff in Hc.
    repeat (apply orb_false_elim in Hc as [Hc ?]). assumption. }
  rewrite E. f_equal. apply IH, H.
Qed.

Lemma Entity_new_plain (c : ascii) (s : string) :
  plain_text (String c s) = true ->
  Entity_new (String c s) = mkEntity TEXT_NODE None (String c s).
Proof. intros H. by_first_char H. Qed.

Lemma drop_all (s : string) : Str.drop (String.length s) s = EmptyString.
Proof. induction s as [|c s IH]; [reflexivity|exact IH]. Qed.

(** The text node that [new Node(entity)] builds for a plain text. *)
Definition text_node (content : string) : Node :=
  mkNode [] content false (Some TEXT_NODE) EmptyString [] false 0 None None.

Lemma Node_new_plain (c : ascii) (s : string) (st : PState) :
  plain_text (String c s) = true ->
  Node_new (Entity_new (String c s)) st = (st, inr (text_node (String c s))).
Proof.
  intros H. rewrite (Entity_new_plain c s H). unfold Node_new, sbind, sret.
  cbn [e_data e_type NODE_TYPES_eqb isElement _type _raw].
  rewrite (decode_plain _ false st H), (decode_plain _ true st H).
  reflexivity.
Qed.

(** The heap after the parse of a plain text on [h]: the synthetic root
    with one child, and the text node. *)
Definition plain_heap (h : Heap) (content : string) : Heap :=
  (h ++ [with_children [S (List.length h)] Node_empty;
         with_parent (List.length h) 0 (text_node content)])%list.

Lemma appendChild_fresh (h : Heap) (content : string) :
  appendChild (List.length h) (S (List.length h))
    ((h ++ [Node_empty]) ++ [text_node content])%list
  = plain_heap h content.
Proof.
  unfold appendChild, plain_heap, update.
  assert (H1 : forall n m : Node,
            ((h ++ [n]) ++ [m])%list !! List.length h = Some n).
  { intros n m. rewrite lookup_app_l by (rewrite length_app; simpl; lia).
    rewrite lookup_app_r by lia. rewrite Nat.sub_diag. reflexivity. }
  assert (H2 : forall n m : Node,
            ((h ++ [n]) ++ [m])%list !! S (List.length h) = Some m).
  { intros n m. rewrite lookup_app_r by (rewrite length_app; simpl; lia).
    rewrite length_app. simpl.
    replace (S (List.length h) - (List.length h + 1)) with 0 by lia.
    reflexivity. }
  rewrite H1, H2.
  assert (E1 : <[S (List.length h) :=
                   with_parent (List.length h) (List.length (_children Node_empty))
                     (text_node content)]>
                 ((h ++ [Node_empty]) ++ [text_node content])%list
               = ((h ++ [Node_empty]) ++
                  [with_parent (List.length h) 0 (text_node content)])%list).
  { replace (S (List.length h)) with (List.length (h ++ [Node_empty])%list + 0)
      by (rewrite length_app; simpl; lia).
    rewrite insert_app_r. reflexivity. }
  rewrite E1, H1.
  rewrite <- app_assoc. cbn [app].
  replace (List.length h) with (List.length h + 0) at 1 by lia.
  rewrite insert_app_r. reflexivity.
Qed.

Lemma parse_plain (c : ascii) (s : string) (h : Heap) (st : PState) :
  plain_text (String c s) = true ->
  parse (String c s) h st
  = Some (st, inr ([S (List.length h)], plain_heap h (String c s))).
Proof.
  intros H. unfold parse. cbn [alloc]. rewrite (preProcess_plain _ st H).
  cbn [String.length parse_loop]. unfold getNextEntity.
  rewrite (scan_plain _ H true). unfold loop_body, sbind, sret.
  rewrite (Node_new_plain c s st H), (Entity_new_plain c s H).
  cbn [alloc e_type e_data NODE_TYPES_eqb negb].
  rewrite length_app. cbn [List.length].
  replace (List.length h + 1) with (S (List.length h)) by lia.
  rewrite appendChild_fresh.
  change (Str.drop (String.length (String c s)) (String c s))
    with (Str.drop (String.length s) s).
  rewrite drop_all. destruct (String.length s); cbn [parse_loop];
    (f_equal; f_equal; f_equal; f_equal;
     unfold plain_heap; rewrite lookup_app_r by lia; rewrite Nat.sub_diag;
     reflexivity).
Qed.

Lemma parse_empty (h : Heap) (st : PState) :
  parse EmptyString h st = Some (st, inr ([], (h ++ [Node_empty])%list)).
Proof.
  unfold parse. cbn [alloc]. cbn.
  rewrite lookup_app_r by lia. rewrite Nat.sub_diag. reflexivity.
Qed.

Lemma replace_braces_plain (s : string) :
  plain_text s = true ->
  replaceAll "}!}" "}}" (replaceAll "{!{" "{{" s) = s.
Proof.
  intros H.
  assert (Hgo : forall pat rep,
            (forall t, plain_text t = true -> Str.starts false pat t = false) ->
            replace_go pat rep 0 s = s).
  { intros pat rep Hpat. induction s as [|c s IH]; [reflexivity|].
    cbn [replace_go]. rewrite (Hpat _ H).
    cbn [plain_text all_chars] in H. apply andb_true_iff in H as [_ H].
    f_equal. apply IH, H. }
  unfold replaceAll. rewrite (Hgo "{!{" "{{"), (Hgo "}!}" "}}");
    [reflexivity| |];
    intros [|c t] Ht; try reflexivity; by_first_char Ht.
Qed.

(** X19: a text without backslash, [<], [{], [}], [=] and [_] is rendered
    unchanged: when it is not served from the cache, the render of such
    a text returns the text itself, for every evaluator, context and
    process state, and leaves the placeholder table as it was. *)
Theorem plain_text_renders_unchanged (runner : Runner) (platform : Platform)
  (fuel : nat) (content : string) (context : Context) (options : Options)
  (s : State) :
  plain_text content = true ->
  cache options = false \/ DOM_CACHE s !! md5 platform content = None ->
  let run :=
    run_engine runner platform (S fuel) content context options s in
  snd run = Some (inr content) /\ pstate (fst run) = pstate s.
Proof.
  intros Hplain Hcache. cbn zeta. unfold run_engine.
  change (Engine_new s)
    with (List.length (engines s),
          mkState (heap s) (pstate s) (DOM_CACHE s) (engines s ++ [∅])%list
                  (draws s) (renders s)).
  cbv beta iota. unfold Engine_render.
  set (sE := mkState _ _ _ _ _ _).
  assert (Hp : exists store,
            parseDOM platform content (cache options) sE
            = parse_and_store platform content store sE).
  { unfold parseDOM. destruct Hcache as [->|Hmiss]; cbn [negb];
      [eexists; reflexivity|].
    destruct (cache options); cbn [negb]; [|eexists; reflexivity].
    change (DOM_CACHE sE) with (DOM_CACHE s). rewrite Hmiss.
    eexists; reflexivity. }
  destruct Hp as [store ->]. unfold parse_and_store.
  change (heap sE) with (heap s). change (pstate sE) with (pstate s).
  destruct content as [|c t].
  - rewrite parse_empty. cbn. auto.
  - rewrite (parse_plain c t (heap s) (pstate s) Hplain).
    set (s1 := mkState (plain_heap (heap s) (String c t)) _ _ _ _ _).
    assert (Hnode : parseElement runner platform (S fuel)
                      (List.length (engines s)) options
                      (S (List.length (heap s))) context s1
                    = (s1, Fulfilled (String c t))).
    { cbn [parseElement]. unfold parseElement_body, node_at.
      change (heap s1) with (plain_heap (heap s) (String c t)).
      unfold plain_heap. rewrite lookup_app_r by lia.
      replace (S (List.length (heap s)) - List.length (heap s)) with 1 by lia.
      cbn [lookup list_lookup]. unfold default. cbn [from_option id].
      cbn [_type with_parent text_node _raw].
      rewrite (resolveExpression_plain runner _ context Hplain).
      reflexivity. }
    cbn [start_all]. rewrite Hnode.
    cbn [await_all settle settle_all lift fulfil Str.concat fst snd].
    rewrite append_empty_r, (replace_braces_plain _ Hplain).
    split; reflexivity.
Qed.

Lemma plain_text_renders_unchanged_witness :
  snd (run_engine Sample.runner Sample.platform 1 "Hello, world > all!"
                  [] (mkOptions false None) initial_state)
  = Some (inr "Hello, world > all!").
Proof.
  apply (plain_text_renders_unchanged Sample.runner Sample.platform 0
           "Hello, world > all!" [] (mkOptions false None) initial_state).
  - reflexivity.
  - left. reflexivity.
Defined.

(** ** Printing a tree *)

(** [Node.toString(includeChildren)], with a bound on the depth of the
    recursion into the children; [None] when the tree is deeper. *)
Fixpoint Node_toString (fuel : nat) (h : Heap) (this : ref)
  (includeChildren : bool) : option string :=
  match fuel with
  | O => None
  | S fuel' =>
      let n := default Node_empty (h !! this) in
      if negb (isElement n) then Some (_raw n)
      else if negb includeChildren
      then Some ("<" +:+ _tag n +:+ attrsString n +:+ ">")
      else
        match gather (List.map (fun item => Node_toString fuel' h item true)
                               (_children n)) with
        | Some children =>
            Some ("<" +:+ _tag n +:+ attrsString n +:+ ">" +:+
                  Str.concat children +:+ "</" +:+ _tag n +:+ ">")
        | None => None
        end
  end.

(** The tree below [r], to the depth [fuel], holds elements that are no
    directives, doctypes, and text, comments and CDATA without a span;
    no attribute holds a span. *)
Fixpoint literal (fuel : nat) (h : Heap) (r : ref) : bool :=
  match fuel with
  | O => true
  | S fuel' =>
      let n := default Node_empty (h !! r) in
      match _type n with
      | Some DOCUMENT_TYPE_NODE => true
      | Some TEXT_NODE | Some COMMENT_NODE | Some CDATA_SECTION_NODE =>
          match Str.find false "{{" (_raw n) with None => true | _ => false end
      | Some ELEMENT_NODE =>
          negb (is_directive (_tag n))
          && match Str.find false "{{" (attrsString n) with
             | None => true | _ => false
             end
          && forallb (literal fuel' h) (_children n)
      | _ => false
      end
  end.

Lemma gather_ext {A} (f g : A -> option string) (l : list A) :
  (forall x, In x l -> f x = g x) ->
  gather (List.map f l) = gather (List.map g l).
Proof.
  induction l as [|x l IH]; intros H; [reflexivity|]. cbn [List.map gather].
  rewrite (H x (or_introl eq_refl)), IH; [reflexivity|].
  intros y Hy. apply H. right. exact Hy.
Qed.

Lemma reserialize_literal (runner : Runner) (context : Context) (h : Heap)
  (fuel : nat) :
  forall r, literal fuel h r = true ->
            reserialize runner h context fuel r = Node_toString fuel h r true.
Proof.
  induction fuel as [|fuel IH]; intros r H; [reflexivity|].
  cbn [literal reserialize Node_toString] in *.
  set (n := default Node_empty (h !! r)) in *. unfold isElement.
  destruct (_type n) as [[]|]; try discriminate; cbn [negb].
  - apply andb_true_iff in H as [H Hch]. apply andb_true_iff in H as [Hd Ha].
    apply negb_true_iff in Hd. rewrite Hd.
    destruct (Str.find false "{{" (attrsString n)) eqn:Hf; [discriminate|].
    rewrite (resolveExpression_without_span runner _ context Hf).
    rewrite forallb_forall in Hch.
    rewrite (gather_ext (reserialize runner h context fuel)
               (fun item => Node_toString fuel h item true) (_children n));
      [|intros x Hx; apply IH, Hch, Hx].
    destruct (gather _); reflexivity.
  - destruct (Str.find false "{{" (_raw n)) eqn:Hf; [discriminate|].
    rewrite (resolveExpression_without_span runner _ context Hf).
    reflexivity.
  - destruct (Str.find false "{{" (_raw n)) eqn:Hf; [discriminate|].
    rewrite (resolveExpression_without_span runner _ context Hf).
    reflexivity.
  - destruct (Str.find false "{{" (_raw n)) eqn:Hf; [discriminate|].
    rewrite (resolveExpression_without_span runner _ context Hf).
    reflexivity.
  - reflexivity.
Qed.

(** X14: the engine prints a tree without directives and spans as the
    parser's own [toString(true)] does: the render returns the texts of
    [toString(true)] of the nodes of the forest, joined, with the
    literal brace escapes restored, and leaves the state of the parse as
    it is. *)
Theorem literal_tree_rendered_as_printed (runner : Runner)
  (platform : Platform) (fuel : nat) (content : string) (context : Context)
  (options : Options) (s s1 : State) (dom : list ref) (outs : list string) :
  parseDOM platform content (cache options) (snd (Engine_new s))
  = (s1, Some (inr dom)) ->
  forallb (literal fuel (heap s1)) dom = true ->
  gather (List.map (fun r => Node_toString fuel (heap s1) r true) dom)
  = Some outs ->
  run_engine runner platform fuel content context options s
  = (s1, Some (inr (replaceAll "}!}" "}}"
                      (replaceAll "{!{" "{{" (Str.concat outs))))).
Proof.
  intros Hdom Hlit Hout. rewrite forallb_forall in Hlit.
  rewrite <- (gather_ext (reserialize runner (heap s1) context fuel)) in Hout
    by (intros x Hx; apply reserialize_literal, Hlit, Hx).
  unfold run_engine.
  destruct (Engine_new s) as [this s0]. cbn [snd] in Hdom.
  unfold Engine_render. rewrite Hdom.
  destruct (start_all_steady
              (fun element => parseElement runner platform fuel this options
                                element context)
              (reserialize runner (heap s1) context fuel) s1 dom outs
              ltac:(intros c o Hc; apply parseElement_plain, Hc) Hout)
    as [H1 Hps].
  destruct (start_all _ dom s1) as [s2 ps]. cbn [fst snd] in *. subst s2.
  cbn [await_all settle]. rewrite (settle_all_steady ps outs Hps s1).
  reflexivity.
Qed.

Lemma literal_tree_rendered_as_printed_witness :
  run_engine Sample.runner Sample.platform 4 plain_template []
             (mkOptions false None) initial_state
  = (fst (parseDOM Sample.platform plain_template false fresh_engine),
     Some (inr ("<p class=" +:+ quoted "a" +:+ ">x<br>y</br></p>"))).
Proof.
  apply (literal_tree_rendered_as_printed Sample.runner Sample.platform 4
           plain_template [] (mkOptions false None) initial_state
           (fst (parseDOM Sample.platform plain_template false fresh_engine))
           [1]
           ["<p class=" +:+ quoted "a" +:+ ">x<br>y</br></p>"]).
  - reflexivity.
  - vm_compute. reflexivity.
  - vm_compute. reflexivity.
Defined.

(** ** Raw HTML and leaves *)

(** X18: inside [t-html] a value is printed as it is: a span whose value
    is a text without spans of its own comes out with its [<] and [>]
    unescaped. *)
Theorem html_directive_prints_raw_value (runner : Runner)
  (platform : Platform) (fuel this : nat) (options : Options) (node : Node)
  (r : ref) (context : Context) (s : State) (v : string) :
  _children node = [r] ->
  _type (node_at s r) = Some TEXT_NODE ->
  _raw (node_at s r) = "{{a}}" ->
  getExpressionValue runner (Obj.put "__useRawHTML" (VBool true) context) "a"
  = inr (VString v) ->
  Str.find false "{{" v = None ->
  let run :=
    renderHTML runner (parseElement runner platform (S fuel)) this options
               node context s in
  settle (snd run) (fst run) = (s, Some (inr v)).
Proof.
  intros Hch Hty Hraw Ha Hv. cbn zeta. unfold renderHTML, parseChildren.
  rewrite Hch. cbn [start_all].
  set (ctx := Obj.put "__useRawHTML" (VBool true) context) in *.
  assert (Hint : interpolate runner ctx "a" = inr v).
  { unfold interpolate. change (Str.trim "a") with "a". rewrite Ha.
    cbn [bind is_plain_object ret]. unfold ctx. rewrite get_put.
    reflexivity. }
  assert (Hnode : parseElement runner platform (S fuel) this options r ctx s
                  = (s, Fulfilled v)).
  { cbn [parseElement]. unfold parseElement_body. rewrite Hty, Hraw.
    rewrite (resolveExpression_one_span runner ctx "{" "{a}}" "a" eq_refl).
    rewrite Hint. reflexivity. }
  rewrite Hnode.
  cbn [await_all await fst snd settle settle_all lift Str.concat].
  rewrite append_empty_r.
  rewrite (resolveExpression_without_span runner v ctx Hv).
  reflexivity.
Qed.

Lemma html_directive_prints_raw_value_witness :
  let s := fst (parseDOM Sample.platform "{{a}}" false initial_state) in
  let run :=
    renderHTML Sample.runner (parseElement Sample.runner Sample.platform 1) 0
      (mkOptions false None)
      (mkNode [1] EmptyString true (Some ELEMENT_NODE) TAGS_HTML [] false 0
              None None)
      [("a", VString "<b>bold</b>")] s in
  settle (snd run) (fst run) = (s, Some (inr "<b>bold</b>")).
Proof.
  apply (html_directive_prints_raw_value Sample.runner Sample.platform 0 0
           (mkOptions false None)
           (mkNode [1] EmptyString true (Some ELEMENT_NODE) TAGS_HTML [] false
                   0 None None)
           1 [("a", VString "<b>bold</b>")]
           (fst (parseDOM Sample.platform "{{a}}" false initial_state))
           "<b>bold</b>"); vm_compute; reflexivity.
Defined.

(** X25: a [t-children] reached for an item, a plain object, that has no
    property of its own under the field: when the field is no property
    of [Object.prototype] either, the item is a leaf of the data and the
    directive renders the empty text at once and starts no rendering;
    when the field names a property that every object inherits, such as
    [constructor], what is read is truthy and no array, and the promise
    returned is rejected.  The field is the attribute [field], and
    [children] when that is missing or empty. *)
Theorem children_of_leaf_render_nothing (runner : Runner)
  (platform : Platform)
  (pe : nat -> Options -> ref -> Context -> Async string)
  (this : nat) (options : Options) (node : Node) (context : Context)
  (s : State) (body : list ref) (varName : string)
  (props : list (string * Value)) :
  let field :=
    match Obj.get "field" (_attrs node) with
    | Some f => if String.eqb f EmptyString then "children" else f
    | None => "children"
    end in
  TREE_CACHE this s
    !! JS.toString (default VUndefined (Obj.get "__tree_id__" context))
  = Some (mkSession body (Some varName)) ->
  Obj.get varName context = Some (VObject props) ->
  Obj.get field props = None ->
  renderChildren runner platform pe this options node context s
  = (s, inr (if inherited field
             then Rejected (TypeError "data.map is not a function")
             else Fulfilled EmptyString)).
Proof.
  intros field Hsession Hitem Hfield.
  unfold renderChildren, renderTreeChildren, session. cbv zeta.
  fold field. rewrite Hsession. unfold default.
  cbn [from_option id]. unfold read at 1. rewrite Hitem.
  cbn [get_prop]. unfold read, ret. rewrite Hfield. unfold Object_member.
  destruct (String.eqb field "__proto__") eqn:Hproto.
  - apply String.eqb_eq in Hproto. rewrite Hproto. reflexivity.
  - destruct (inherited field) eqn:Hin; reflexivity.
Qed.

Lemma children_of_leaf_render_nothing_witness :
  let s :=
    set_TREE_CACHE 0 {["7" := mkSession [] (Some "item")]} fresh_engine in
  let context :=
    [("__tree_id__", VString "7"); ("item", VObject [("data", VNumber 1)])] in
  let t_children attrs :=
    mkNode [] EmptyString true (Some ELEMENT_NODE) TAGS_CHILDREN attrs
           false 0 None None in
  renderChildren Sample.runner Sample.platform
    (parseElement Sample.runner Sample.platform 0)
    0 (mkOptions false None) (t_children []) context s
  = (s, inr (Fulfilled EmptyString)) /\
  renderChildren Sample.runner Sample.platform
    (parseElement Sample.runner Sample.platform 0)
    0 (mkOptions false None) (t_children [("field", "constructor")]) context s
  = (s, inr (Rejected (TypeError "data.map is not a function"))).
Proof.
  intros s context t_children.
  split;
    [ apply (children_of_leaf_render_nothing Sample.runner Sample.platform
               (parseElement Sample.runner Sample.platform 0) 0
               (mkOptions false None) (t_children []) context s [] "item"
               [("data", VNumber 1)])
    | apply (children_of_leaf_render_nothing Sample.runner Sample.platform
               (parseElement Sample.runner Sample.platform 0) 0
               (mkOptions false None) (t_children [("field", "constructor")])
               context s [] "item" [("data", VNumber 1)]) ];
    first [ reflexivity | vm_compute; reflexivity ].
Defined.

(** * A span whose value is [null] *)

(** ** Promises that are never fulfilled *)

Section Never.
Variable I : State -> Prop.

(** Settled in a state that satisfies [I], the promise is not
    fulfilled. *)
Definition never {A} (p : Promise A) : Prop :=
  forall s, I s -> forall s' a, settle p s <> (s', Some (inr a)).

Lemma never_Rejected {A} (e : Exn) : never (@Rejected A e).
Proof. intros s _ s' a H. discriminate H. Qed.

Lemma never_Diverged {A} : never (@Diverged A).
Proof. intros s _ s' a H. discriminate H. Qed.

Lemma never_caught options node (p : Promise string) :
  never p -> never (caught options node p).
Proof.
  intros Hp s Hs s' a H. apply settle_caught_inv in H. exact (Hp s Hs s' a H).
Qed.

Lemma never_settle_all {A} (ps : list (Promise A)) :
  Forall (keeps I) ps -> Exists never ps ->
  forall s, I s -> forall sf l, settle_all ps s <> (sf, Some (inr l)).
Proof.
  intros Hk. induction Hk as [|p ps Hp Hps IH]; intros Hex s Hs sf l H.
  - inversion Hex.
  - apply settle_all_cons_inv in H as [s1 [a [l' [H1 [H2 _]]]]].
    apply Exists_cons in Hex as [Hn|Hex].
    + exact (Hn s Hs s1 a H1).
    + pose proof (settle_keeps I p Hp s Hs) as Hs1. rewrite H1 in Hs1.
      exact (IH Hex s1 Hs1 sf l' H2).
Qed.

Lemma never_await_all {A B} (ps : list (Promise A)) (k : list A -> Async B)
  (s0 : State) :
  Forall (keeps I) ps -> Exists never ps ->
  never (snd (await_all ps (fun r => lift r k) s0)).
Proof.
  intros Hk Hex s Hs s' b. cbn [await_all snd settle].
  pose proof (never_settle_all ps Hk Hex s Hs) as Hn.
  destruct (settle_all ps s) as [s2 [[e|l]|]]; cbn [lift reject settle];
    try discriminate.
  destruct (Hn s2 l eq_refl).
Qed.

Lemma never_await {A B} (p : Promise A) (k : A -> Async B) (s0 : State) :
  never p -> never (snd (await p (fun r => lift r k) s0)).
Proof.
  intros Hp s Hs s' b. cbn [await snd settle].
  pose proof (Hp s Hs) as Hn.
  destruct (settle p s) as [s2 [[e|a]|]]; cbn [lift reject settle];
    try discriminate.
  destruct (Hn s2 a eq_refl).
Qed.

(** The promise that the body [F] returns is never fulfilled. *)
Definition neverA {A} (F : Async A) : Prop :=
  forall s, I s -> never (snd (F s)).

Lemma never_await_then {A B} (p : Promise A) (k : A -> Async B)
  (s0 : State) :
  keeps I p ->
  (forall a, keeps_async I (k a) /\ neverA (k a)) ->
  never (snd (await p (fun r => lift r k) s0)).
Proof.
  intros Hp Hk s Hs s' b. cbn [await snd settle].
  pose proof (settle_keeps I p Hp s Hs) as Hs2.
  destruct (settle p s) as [s2 [[e|a]|]]; cbn [lift reject settle fst] in *;
    try discriminate.
  destruct (Hk a) as [Hka Hna]. specialize (Hka s2 Hs2) as [Hs3 _].
  specialize (Hna s2 Hs2). destruct (k a s2) as [s3 q]. cbn [fst snd] in *.
  apply Hna, Hs3.
Qed.

Lemma start_all_never {X A} (f : X -> Async A) (l : list X) (y : X) :
  (forall x, keeps_async I (f x)) ->
  In y l -> neverA (f y) ->
  forall s, I s -> Exists never (snd (start_all f l s)).
Proof.
  intros Hf Hin Hy. induction l as [|x l IH]; intros s Hs; [destruct Hin|].
  rewrite start_all_cons. cbn [snd]. destruct Hin as [->|Hin].
  - apply Exists_cons_hd. apply Hy, Hs.
  - apply Exists_cons_tl. apply IH; [exact Hin|]. apply Hf, Hs.
Qed.
End Never.

(** ** From the null span to the rejection of the render *)

(** The variable and the items of a [t-for]. *)
Definition loop_of (runner : Runner) (node : Node) (context : Context)
  : Res (string * list Value) :=
  let expression := default "undefined" (Obj.get "on" (_attrs node)) in
  let temp := JS.split " " expression in
  let varName := default "undefined" (temp !! 0) in
  let operator := temp !! 1 in
  let dataName := temp !! 2 in
  let loopContext : Res Value :=
    match operator with
    | Some op =>
        if String.eqb op "of" then runForOf runner context varName dataName
        else if String.eqb op "in" then runForIn runner context varName dataName
        else ret VUndefined
    | None => ret VUndefined
    end in
  let! lc := loopContext in
  let! items := JS.iterate lc in
  ret (varName, items).

(** [started runner h r c x c']: when the node [r] is rendered under the
    context [c], the node [x] is rendered under [c'] before the promise
    of [r] can be fulfilled: through the children of an element that is
    no directive, the body of a [t-html], of a [t-if] or [t-elif] whose
    expression is truthy, of a [t-for] for one of its items, and of a
    [t-with]. *)
Inductive started (runner : Runner) (h : Heap)
  : ref -> Context -> ref -> Context -> Prop :=
| started_here r c : started runner h r c r c
| started_child r c y x c' :
    dispatches (nodeat h r) = true ->
    is_directive (_tag (nodeat h r)) = false ->
    In y (_children (nodeat h r)) ->
    started runner h y c x c' ->
    started runner h r c x c'
| started_html r c y x c' :
    dispatches (nodeat h r) = true ->
    _tag (nodeat h r) = TAGS_HTML ->
    In y (_children (nodeat h r)) ->
    started runner h y (Obj.put "__useRawHTML" (VBool true) c) x c' ->
    started runner h r c x c'
| started_condition r c v y x c' :
    dispatches (nodeat h r) = true ->
    _tag (nodeat h r) = TAGS_IF \/ _tag (nodeat h r) = TAGS_ELIF ->
    getExpressionValue runner c
      (default "undefined" (Obj.get "on" (_attrs (nodeat h r)))) = inr v ->
    JS.truthy v = true ->
    In y (_children (nodeat h r)) ->
    started runner h y c x c' ->
    started runner h r c x c'
| started_for r c varName items item y x c' :
    dispatches (nodeat h r) = true ->
    _tag (nodeat h r) = TAGS_FOR ->
    loop_of runner (nodeat h r) c = inr (varName, items) ->
    In item items ->
    In y (_children (nodeat h r)) ->
    started runner h y (Obj.put varName item c) x c' ->
    started runner h r c x c'
| started_with r c alias y x c' :
    dispatches (nodeat h r) = true ->
    _tag (nodeat h r) = TAGS_WITH ->
    with_loop runner (Obj.entries (_attrs (nodeat h r))) c [] = inr alias ->
    In y (_children (nodeat h r)) ->
    started runner h y (spread c alias) x c' ->
    started runner h r c x c'.

(** The node [x] holds the text [content] where the resolver reads it: as
    the raw text of a text, a comment or a CDATA section, or as the
    attributes of an element that is no directive. *)
Definition resolved_at (h : Heap) (x : ref) (content : string) : Prop :=
  (In (_type (nodeat h x))
      [Some TEXT_NODE; Some COMMENT_NODE; Some CDATA_SECTION_NODE] /\
   _raw (nodeat h x) = content) \/
  (dispatches (nodeat h x) = true /\
   is_directive (_tag (nodeat h x)) = false /\
   attrsString (nodeat h x) = content).

Lemma nodes_kept_refl (s : State) : nodes_kept (heap s) s.
Proof. intros x n H. eauto. Qed.

Lemma nodes_kept_node (h : Heap) (s : State) (r : ref) :
  nodes_kept h s -> is_Some (h !! r) ->
  erase (node_at s r) = erase (nodeat h r).
Proof.
  intros Hk [n Hn]. destruct (Hk r n Hn) as [n' [Hn' He]].
  unfold node_at, nodeat. rewrite Hn, Hn'. exact He.
Qed.

Lemma nodeat_valid (h : Heap) (r : ref) :
  nodeat h r <> Node_empty -> is_Some (h !! r).
Proof.
  unfold nodeat. destruct (h !! r); [eauto|]. intros H. destruct H.
  reflexivity.
Qed.

Section Abort.
Variable runner : Runner.
Variable platform : Platform.
Variable h : Heap.

Let I := nodes_kept h.

Lemma parseElement_keeps_nodes fuel this options r context :
  keeps_async I (parseElement runner platform fuel this options r context).
Proof.
  apply parseElement_keeps; unfold I.
  - intros s0 nx b. apply nodes_kept_condition.
  - intros s0 this0 t. apply nodes_kept_fields. reflexivity.
  - intros s0. apply nodes_kept_fields. reflexivity.
  - intros s0. apply nodes_kept_fields. reflexivity.
  - intros s0. apply nodes_kept_fields. reflexivity.
  - intros c0 cache s0. apply nodes_kept_parseDOM.
Qed.

Section Level.
Variable pe : nat -> Options -> ref -> Context -> Async string.
Hypothesis pe_keeps : forall this options r context,
  keeps_async I (pe this options r context).
Variable this : nat.
Variable options : Options.

Lemma parseChildren_never (children : list ref) (context : Context)
  (y : ref) :
  In y children -> neverA I (pe this options y context) ->
  neverA I (parseChildren runner pe this options children context).
Proof.
  intros Hin Hy s Hs. unfold parseChildren.
  pose proof (start_all_never I
                (fun element => pe this options element context) children y
                ltac:(intros x; apply pe_keeps) Hin Hy s Hs) as Hex.
  destruct (start_all_keeps I
              (fun element => pe this options element context) children
              ltac:(intros x; apply pe_keeps) s Hs) as [_ Hks].
  destruct (start_all _ children s) as [s1 ps]. cbn [snd] in *.
  apply never_await_all; assumption.
Qed.

Lemma await_children_never (children : list ref) (context : Context)
  (y : ref) :
  In y children -> neverA I (pe this options y context) ->
  neverA I
    (fun s =>
       let '(s1, p) :=
         parseChildren runner pe this options children context s in
       await p (fun r => lift r fulfil) s1).
Proof.
  intros Hin Hy s Hs.
  pose proof (parseChildren_never children context y Hin Hy s Hs) as Hn.
  destruct (parseChildren _ _ _ _ _ _ s) as [s1 p]. cbn [snd] in *.
  apply never_await, Hn.
Qed.

Lemma for_loop_never (children : list ref) (context : Context)
  (varName : string) (item : Value) (y : ref) :
  In y children ->
  neverA I (pe this options y (Obj.put varName item context)) ->
  forall items result,
    In item items ->
    neverA I (for_loop runner pe this options children context varName items
                result).
Proof.
  intros Hin Hy. induction items as [|item' rest IH]; intros result Hitem;
    [destruct Hitem|].
  intros s Hs. cbn [for_loop].
  destruct (parseChildren_keeps runner I pe pe_keeps this options children
              (Obj.put varName item' context) s Hs) as [Hs1 Hp].
  destruct Hitem as [->|Hitem].
  - pose proof (parseChildren_never children _ y Hin Hy s Hs) as Hn.
    destruct (parseChildren _ _ _ _ _ _ s) as [s1 p]. cbn [snd] in *.
    apply never_await, Hn.
  - destruct (parseChildren _ _ _ _ _ _ s) as [s1 p]. cbn [fst snd] in *.
    apply never_await_then; [exact Hp|]. intros a. split.
    + apply (for_loop_keeps runner I pe pe_keeps).
    + apply IH, Hitem.
Qed.

Lemma tagged_never (node : Node) (body : Async string) :
  neverA I body -> neverA I (tagged options node body).
Proof.
  intros Hb s Hs. unfold tagged. specialize (Hb s Hs).
  destruct (body s) as [s1 p]. cbn [await snd] in *.
  apply never_caught.
  change (Pending ?k) with
    (snd (await p (fun r => lift r (fun children =>
            fulfil (renderTemplateTag (_tag node) children))) s1)).
  apply never_await, Hb.
Qed.

Lemma neverA_reject {A} (e : Exn) : neverA I (@reject A e).
Proof. intros s Hs. apply never_Rejected. Qed.

Lemma neverA_lift {A B} (r : Res A) (k : A -> Async B) :
  (forall a, r = inr a -> neverA I (k a)) -> neverA I (lift r k).
Proof.
  intros Hk. destruct r as [e|a]; cbn [lift];
    [apply neverA_reject|apply Hk; reflexivity].
Qed.

(** The node [r] as the state [s] has it. *)
Lemma node_in_state (r : ref) (s : State) :
  I s -> nodeat h r <> Node_empty ->
  node_at s r = recond (nodeat h r) (__condition__ (node_at s r)).
Proof.
  intros Hs Hr. apply node_recond. symmetry.
  apply nodes_kept_node; [exact Hs|apply nodeat_valid, Hr].
Qed.

Lemma has_child_valid (r y : ref) :
  In y (_children (nodeat h r)) -> nodeat h r <> Node_empty.
Proof. intros Hin E. rewrite E in Hin. destruct Hin. Qed.

Lemma body_dispatches (r : ref) (c : Context) (s : State) (cnd : option bool) :
  dispatches (nodeat h r) = true ->
  node_at s r = recond (nodeat h r) cnd ->
  parseElement_body runner platform pe this options r c s
  = dispatch runner platform pe this options r (recond (nodeat h r) cnd) c s.
Proof.
  intros Hd Hn. unfold parseElement_body. rewrite Hn. cbn [recond _type].
  unfold dispatches in Hd.
  destruct (_type (nodeat h r)) as [[]|]; try discriminate Hd; reflexivity.
Qed.

Lemma text_never (x : ref) (c : Context) (e : Exn) (s : State) :
  In (_type (nodeat h x))
     [Some TEXT_NODE; Some COMMENT_NODE; Some CDATA_SECTION_NODE] ->
  resolveExpression runner (_raw (nodeat h x)) c = inl e ->
  I s ->
  never I (snd (parseElement_body runner platform pe this options x c s)).
Proof.
  intros Hty He Hs.
  assert (Hx : nodeat h x <> Node_empty).
  { intros E. rewrite E in Hty. cbn in Hty.
    destruct Hty as [H|[H|[H|[]]]]; discriminate H. }
  unfold parseElement_body. rewrite (node_in_state x s Hs Hx).
  cbn [recond _type _raw]. rewrite He.
  destruct Hty as [<-|[<-|[<-|[]]]]; cbn [snd];
    apply never_caught, never_Rejected.
Qed.

Lemma element_never_attrs (x : ref) (c : Context) (e : Exn) (s : State) :
  dispatches (nodeat h x) = true ->
  is_directive (_tag (nodeat h x)) = false ->
  resolveExpression runner (attrsString (nodeat h x)) c = inl e ->
  I s ->
  never I (snd (parseElement_body runner platform pe this options x c s)).
Proof.
  intros Hd Hplain He Hs.
  assert (Hx : nodeat h x <> Node_empty).
  { intros E. rewrite E in He. vm_compute in He. discriminate He. }
  rewrite (body_dispatches x c s _ Hd (node_in_state x s Hs Hx)).
  rewrite dispatch_plain by exact Hplain. unfold renderElement.
  cbn [recond _children _tag].
  destruct (start_all _ (_children (nodeat h x)) s) as [s1 ps].
  cbn [await_all snd]. apply never_caught.
  intros s' Hs' sf a. cbn [settle].
  destruct (settle_all ps s') as [s2 [[e'|l]|]]; cbn [lift reject settle];
    try discriminate.
  change (attrsString (recond (nodeat h x) ?k)) with (attrsString (nodeat h x)).
  rewrite He. discriminate.
Qed.

Lemma element_never_child (r y : ref) (c : Context) (s : State) :
  dispatches (nodeat h r) = true ->
  is_directive (_tag (nodeat h r)) = false ->
  In y (_children (nodeat h r)) ->
  neverA I (pe this options y c) ->
  I s ->
  never I (snd (parseElement_body runner platform pe this options r c s)).
Proof.
  intros Hd Hplain Hin Hy Hs.
  pose proof (has_child_valid r y Hin) as Hr.
  rewrite (body_dispatches r c s _ Hd (node_in_state r s Hs Hr)).
  rewrite dispatch_plain by exact Hplain. unfold renderElement.
  cbn [recond _children _tag].
  pose proof (start_all_never I
                (fun child => pe this options child c) _ y
                ltac:(intros x; apply pe_keeps) Hin Hy s Hs) as Hex.
  destruct (start_all_keeps I
              (fun child => pe this options child c) (_children (nodeat h r))
              ltac:(intros x; apply pe_keeps) s Hs) as [_ Hks].
  destruct (start_all _ (_children (nodeat h r)) s) as [s1 ps].
  cbn [snd] in *.
  match goal with
  | |- context [await_all ps ?K s1] =>
      change (await_all ps K s1) with (s1, snd (await_all ps K s1))
  end.
  cbn [snd]. apply never_caught. apply never_await_all; assumption.
Qed.

Lemma html_never (r y : ref) (c : Context) (s : State) :
  dispatches (nodeat h r) = true ->
  _tag (nodeat h r) = TAGS_HTML ->
  In y (_children (nodeat h r)) ->
  neverA I (pe this options y (Obj.put "__useRawHTML" (VBool true) c)) ->
  I s ->
  never I (snd (parseElement_body runner platform pe this options r c s)).
Proof.
  intros Hd Htag Hin Hy Hs.
  pose proof (has_child_valid r y Hin) as Hr.
  rewrite (body_dispatches r c s _ Hd (node_in_state r s Hs Hr)).
  unfold dispatch. cbn [recond _tag]. rewrite Htag. cbn.
  apply tagged_never; [|exact Hs]. unfold renderHTML. cbn [_children].
  apply await_children_never with (y := y); assumption.
Qed.

Lemma condition_never (r y : ref) (c : Context) (v : Value) (node : Node) :
  _attrs node = _attrs (nodeat h r) ->
  _children node = _children (nodeat h r) ->
  getExpressionValue runner c
    (default "undefined" (Obj.get "on" (_attrs (nodeat h r)))) = inr v ->
  JS.truthy v = true ->
  In y (_children (nodeat h r)) ->
  neverA I (pe this options y c) ->
  neverA I (renderCondition runner pe this options r node c).
Proof.
  intros Ea Ec Hv Ht Hin Hy s Hs. unfold renderCondition.
  rewrite Ea, Hv, Ec, Ht. cbn [negb].
  destruct (nextElement (heap s) r) as [e|nextNode];
    [apply never_Rejected|].
  match goal with
  | |- context [parseChildren _ _ _ _ _ _ ?s1] =>
      assert (Hs1 : I s1)
  end.
  { destruct nextNode as [nx|]; [|exact Hs].
    destruct (_ || _); [|exact Hs]. apply nodes_kept_condition, Hs. }
  match goal with
  | |- context [parseChildren _ _ _ _ _ _ ?s1] =>
      pose proof (parseChildren_never (_children (nodeat h r)) c y Hin Hy s1
                    Hs1) as Hn;
      destruct (parseChildren runner pe this options
                  (_children (nodeat h r)) c s1) as [s2 p]
  end.
  cbn [snd] in *. apply never_await, Hn.
Qed.

Lemma if_never (r y : ref) (c : Context) (v : Value) (s : State) :
  dispatches (nodeat h r) = true ->
  _tag (nodeat h r) = TAGS_IF \/ _tag (nodeat h r) = TAGS_ELIF ->
  getExpressionValue runner c
    (default "undefined" (Obj.get "on" (_attrs (nodeat h r)))) = inr v ->
  JS.truthy v = true ->
  In y (_children (nodeat h r)) ->
  neverA I (pe this options y c) ->
  I s ->
  never I (snd (parseElement_body runner platform pe this options r c s)).
Proof.
  intros Hd Htag Hv Ht Hin Hy Hs.
  pose proof (has_child_valid r y Hin) as Hr.
  rewrite (body_dispatches r c s _ Hd (node_in_state r s Hs Hr)).
  unfold dispatch. cbn [recond _tag].
  destruct Htag as [Htag|Htag]; rewrite Htag; cbn;
    (apply tagged_never; [|exact Hs]).
  - unfold renderIf. apply neverA_lift. intros has _.
    destruct (negb has); [apply neverA_reject|].
    apply (condition_never r y c v); auto.
  - unfold renderElif. apply neverA_lift. intros has _.
    destruct (negb has); [apply neverA_reject|].
    cbn [recond __condition__].
    destruct (__condition__ (node_at s r)); [|apply neverA_reject].
    apply (condition_never r y c v); auto.
Qed.

Lemma for_never (r y : ref) (c : Context) (varName : string)
  (items : list Value) (item : Value) (s : State) :
  dispatches (nodeat h r) = true ->
  _tag (nodeat h r) = TAGS_FOR ->
  loop_of runner (nodeat h r) c = inr (varName, items) ->
  In item items ->
  In y (_children (nodeat h r)) ->
  neverA I (pe this options y (Obj.put varName item c)) ->
  I s ->
  never I (snd (parseElement_body runner platform pe this options r c s)).
Proof.
  intros Hd Htag Hloop Hitem Hin Hy Hs.
  pose proof (has_child_valid r y Hin) as Hr.
  rewrite (body_dispatches r c s _ Hd (node_in_state r s Hs Hr)).
  unfold dispatch. cbn [recond _tag]. rewrite Htag. cbn.
  apply tagged_never; [|exact Hs]. unfold renderFor.
  cbn [recond _attrs _children].
  apply neverA_lift. intros has _. destruct (negb has); [apply neverA_reject|].
  unfold loop_of in Hloop. cbv zeta in Hloop.
  apply neverA_lift. intros lc Hlc. rewrite Hlc in Hloop. cbn [bind] in Hloop.
  apply neverA_lift. intros items' Hit. rewrite Hit in Hloop.
  cbn [bind ret] in Hloop. injection Hloop as <- <-.
  apply (for_loop_never _ c _ item y); assumption.
Qed.

Lemma with_never (r y : ref) (c alias : Context) (s : State) :
  dispatches (nodeat h r) = true ->
  _tag (nodeat h r) = TAGS_WITH ->
  with_loop runner (Obj.entries (_attrs (nodeat h r))) c [] = inr alias ->
  In y (_children (nodeat h r)) ->
  neverA I (pe this options y (spread c alias)) ->
  I s ->
  never I (snd (parseElement_body runner platform pe this options r c s)).
Proof.
  intros Hd Htag Hwith Hin Hy Hs.
  pose proof (has_child_valid r y Hin) as Hr.
  rewrite (body_dispatches r c s _ Hd (node_in_state r s Hs Hr)).
  unfold dispatch. cbn [recond _tag]. rewrite Htag. cbn.
  apply tagged_never; [|exact Hs]. unfold renderWith.
  cbn [recond _attrs _children].
  destruct (Obj.entries (_attrs (nodeat h r))); [apply neverA_reject|].
  apply neverA_lift. intros has _.
  apply neverA_lift. intros alias' Ha. rewrite Ha in Hwith.
  injection Hwith as ->.
  apply await_children_never with (y := y); assumption.
Qed.
End Level.

(** A resolver that throws on the text read at [x] rejects the promise
    of [x]; a promise that is never fulfilled under the node [r] keeps
    the promise of [r] from being fulfilled. *)
Lemma started_never (context : Context) (content : string) (x : ref) :
  (exists e, resolveExpression runner content context = inl e) ->
  resolved_at h x content ->
  forall fuel this options r c,
    started runner h r c x context ->
    neverA I (parseElement runner platform fuel this options r c).
Proof.
  intros [e He] Hx fuel.
  induction fuel as [|fuel IH]; intros this options r c Hst s Hs;
    [apply never_Diverged|].
  cbn [parseElement].
  pose proof (fun this options r context =>
                parseElement_keeps_nodes fuel this options r context)
    as pe_keeps.
  inversion Hst; subst.
  - destruct Hx as [[Hty <-]|[Hd [Hplain <-]]].
    + apply text_never with (e := e); assumption.
    + apply element_never_attrs with (e := e); assumption.
  - eapply element_never_child; eauto.
  - eapply html_never; eauto.
  - eapply if_never; eauto.
  - eapply for_never; eauto.
  - eapply with_never; eauto.
Qed.
End Abort.


(** [<t-html><p title='{{ x }}'>a</p></t-html>] *)
Definition null_attribute_template : string :=
  "<t-html><p title='{{ x }}'>a</p></t-html>".


(** * The second render of cached content *)

(** ** Contexts that differ in the session identifier only *)

Definition tree_id : string := "__tree_id__".
#[global] Arguments tree_id : simpl never.

(** The same keys in the same order, and the same values except under
    [__tree_id__]. *)
Definition same_but_session (c c' : Context) : Prop :=
  Forall2 (fun x y => fst x = fst y /\ (fst x <> tree_id -> snd x = snd y))
          c c'.

(** The evaluator's results do not depend on the value of
    [__tree_id__]. *)
Definition blind (runner : Runner) : Prop :=
  forall c c', same_but_session c c' ->
    (forall e, getExpressionValue runner c e = getExpressionValue runner c' e) /\
    (forall v d, runForOf runner c v d = runForOf runner c' v d) /\
    (forall v d, runForIn runner c v d = runForIn runner c' v d) /\
    (forall code, runCode runner code c = runCode runner code c').

(** No two draws give the same session identifier. *)
Definition distinct_ids (platform : Platform) : Prop :=
  forall i j, fresh_treeId platform i = fresh_treeId platform j -> i = j.

(** The variable of a [t-for] and the item variable of a [t-tree], as
    [renderFor] and [renderTreeChildren] take them from the [on]
    attribute. *)
Definition for_var (n : Node) : string :=
  default "undefined"
    (JS.split " " (default "undefined" (Obj.get "on" (_attrs n))) !! 0).

Definition tree_var (n : Node) : string :=
  default "undefined"
    (JS.split " as " (default "undefined" (Obj.get "on" (_attrs n))) !! 1).

(** The node is no [t-include] and does not bind [__tree_id__]: not as
    the variable of a [t-for], not as an attribute of a [t-with], not as
    the item variable of a [t-tree]. *)
Definition allowed_node (n : Node) : bool :=
  let tag := _tag n in
  if String.eqb tag TAGS_INCLUDE then false
  else if String.eqb tag TAGS_FOR then negb (String.eqb (for_var n) tree_id)
  else if String.eqb tag TAGS_WITH
       then negb (Obj.hasOwnProperty tree_id (_attrs n))
  else if String.eqb tag TAGS_TREE then negb (String.eqb (tree_var n) tree_id)
  else true.

(** The nodes of the forest [dom]. *)
Inductive within (h : Heap) (dom : list ref) : ref -> Prop :=
| within_root r : In r dom -> within h dom r
| within_child p r :
    within h dom p -> In r (_children (nodeat h p)) -> within h dom r.

Lemma within_shape (h : Heap) (dom : list ref) (r : ref) :
  within (shape h) dom r <-> within h dom r.
Proof.
  split; induction 1 as [r Hr|p r _ IH Hr].
  - apply within_root, Hr.
  - apply (within_child _ _ p); [exact IH|].
    rewrite nodeat_shape in Hr. exact Hr.
  - apply within_root, Hr.
  - apply (within_child _ _ p); [exact IH|].
    rewrite nodeat_shape. exact Hr.
Qed.

(** *** Session identifiers are no property names *)

Lemma digit_not_inherited (c : ascii) (rest : string) :
  Str.is_digit c = true -> inherited (String c rest) = false.
Proof.
  intros Hd. destruct c as [[] [] [] [] [] [] [] []];
    try discriminate Hd; reflexivity.
Qed.

Lemma pretty_N_head (x : N) :
  exists c rest, pretty x = String c rest /\ Str.is_digit c = true.
Proof.
  destruct (pretty_N_digits x) as [Hall Hlen].
  destruct (pretty x) as [|c rest]; [simpl in Hlen; lia|].
  exists c, rest. split; [reflexivity|].
  unfold all_chars in Hall. cbn in Hall.
  apply andb_true_iff in Hall. apply Hall.
Qed.

Lemma fresh_treeId_head (platform : Platform) (k : nat) :
  exists c rest, fresh_treeId platform k = String c rest /\
                 Str.is_digit c = true.
Proof.
  unfold fresh_treeId, treeId_of.
  destruct (pretty_N_head (now platform k)) as [c [rest [-> Hc]]].
  exists c, (rest +:+ pretty (random platform k)). split; [reflexivity|exact Hc].
Qed.

Lemma fresh_treeId_not_inherited (platform : Platform) (k : nat) :
  inherited (fresh_treeId platform k) = false.
Proof.
  destruct (fresh_treeId_head platform k) as [c [rest [-> Hc]]].
  apply digit_not_inherited, Hc.
Qed.

Lemma fresh_treeId_not_undefined (platform : Platform) (k : nat) :
  fresh_treeId platform k <> "undefined".
Proof.
  destruct (fresh_treeId_head platform k) as [c [rest [-> Hc]]].
  intros [= -> _]. discriminate Hc.
Qed.

(** *** Related contexts *)

Section Contexts.
Variable platform : Platform.
(** The number of draws between the two renders. *)
Variable d : nat.

(** The identifiers of corresponding draws of the two renders. *)
Definition paired (a b : string) : Prop :=
  exists k, a = fresh_treeId platform k /\ b = fresh_treeId platform (k + d).

Definition erel (x y : string * Value) : Prop :=
  fst x = fst y /\
  if String.eqb (fst x) tree_id
  then exists a b, snd x = VString a /\ snd y = VString b /\ paired a b
  else snd x = snd y.

(** The contexts of the two renders: equal but for [__tree_id__], which
    holds paired identifiers. *)
Definition crel (c c' : Context) : Prop := Forall2 erel c c'.

Lemma crel_same_but (c c' : Context) :
  crel c c' -> same_but_session c c'.
Proof.
  intros H. eapply Forall2_impl; [exact H|].
  intros [k v] [k' v'] [Hk Hv]. cbn in *. subst k'.
  split; [reflexivity|]. intros Hne.
  destruct (String.eqb_spec k tree_id); [contradiction|exact Hv].
Qed.

Lemma crel_refl (c : Context) :
  Obj.get tree_id c = None -> crel c c.
Proof.
  induction c as [|[k v] c IH]; cbn [Obj.get]; [constructor|].
  destruct (String.eqb_spec tree_id k) as [E|Hne]; [discriminate|]. intros H.
  constructor; [|apply IH, H]. split; [reflexivity|]. cbn.
  destruct (String.eqb_spec k tree_id); [congruence|reflexivity].
Qed.

Lemma crel_get (k : string) (c c' : Context) :
  crel c c' ->
  match Obj.get k c, Obj.get k c' with
  | Some v, Some v' => erel (k, v) (k, v')
  | None, None => True
  | _, _ => False
  end.
Proof.
  induction 1 as [|[k1 v1] [k2 v2] c c' [Hk Hv] _ IH]; cbn [Obj.get];
    [exact Logic.I|].
  cbn in Hk, Hv. subst k2.
  destruct (String.eqb_spec k k1) as [->|Hne]; [|exact IH].
  split; [reflexivity|exact Hv].
Qed.

Lemma crel_get_ne (k : string) (c c' : Context) :
  k <> tree_id -> crel c c' -> Obj.get k c = Obj.get k c'.
Proof.
  intros Hne H. pose proof (crel_get k c c' H) as Hg.
  destruct (Obj.get k c), (Obj.get k c'); try contradiction; [|reflexivity].
  destruct Hg as [_ Hv]. cbn in Hv.
  destruct (String.eqb_spec k tree_id); [contradiction|congruence].
Qed.

Lemma crel_session (c c' : Context) :
  crel c c' ->
  (Obj.get tree_id c = None /\ Obj.get tree_id c' = None) \/
  (exists a b, Obj.get tree_id c = Some (VString a) /\
               Obj.get tree_id c' = Some (VString b) /\ paired a b).
Proof.
  intros H. pose proof (crel_get tree_id c c' H) as Hg.
  destruct (Obj.get tree_id c), (Obj.get tree_id c'); try contradiction;
    [|left; auto].
  destruct Hg as [_ [a [b [Ha [Hb Hp]]]]]. cbn in Ha, Hb. subst.
  right. eauto.
Qed.

Lemma crel_put (k : string) (v v' : Value) (c c' : Context) :
  erel (k, v) (k, v') -> crel c c' ->
  crel (Obj.put k v c) (Obj.put k v' c').
Proof.
  intros He. induction 1 as [|[k1 v1] [k2 v2] c c' [Hk Hv] Hc IH];
    cbn [Obj.put].
  - constructor; [exact He|constructor].
  - cbn in Hk, Hv. subst k2.
    destruct (String.eqb k k1).
    + constructor; [exact He|exact Hc].
    + constructor; [split; [reflexivity|exact Hv]|exact IH].
Qed.

Lemma crel_put_same (k : string) (v : Value) (c c' : Context) :
  k <> tree_id -> crel c c' -> crel (Obj.put k v c) (Obj.put k v c').
Proof.
  intros Hne. apply crel_put. split; [reflexivity|]. cbn.
  destruct (String.eqb_spec k tree_id); [contradiction|reflexivity].
Qed.

Lemma crel_spread (a a' b b' : Context) :
  crel a a' -> crel b b' -> crel (spread a b) (spread a' b').
Proof.
  unfold spread. intros Ha Hb. revert a a' Ha.
  induction Hb as [|[k v] [k' v'] b b' He _ IH]; intros a a' Ha;
    cbn [fold_left]; [exact Ha|].
  apply IH. pose proof He as [Hk _]. cbn in Hk. subst k'.
  apply crel_put; assumption.
Qed.

(** The context of an item of a tree, in the two renders. *)
Lemma crel_item (a b varName : string) (item : Value) (c c' : Context) :
  paired a b -> varName <> tree_id -> crel c c' ->
  crel (Obj.put varName item (spread [(tree_id, VString a)] c))
       (Obj.put varName item (spread [(tree_id, VString b)] c')).
Proof.
  intros Hp Hne Hc. apply crel_put_same; [exact Hne|].
  apply crel_spread; [|exact Hc].
  constructor; [|constructor]. split; [reflexivity|]. cbn [fst snd].
  rewrite String.eqb_refl. eauto.
Qed.
End Contexts.

(** *** The aliases of a [t-with] *)

Lemma insert_sorted_In {A} (e x : N * (string * A)) (l : list (N * (string * A))) :
  In x (Obj.insert_sorted e l) -> x = e \/ In x l.
Proof.
  induction l as [|y l IH]; cbn [Obj.insert_sorted].
  - intros [<-|[]]. left. reflexivity.
  - destruct (fst e <=? fst y)%N.
    + intros [<-|H]; [left; reflexivity|right; exact H].
    + intros [<-|H]; [right; left; reflexivity|].
      destruct (IH H) as [->|H']; [left; reflexivity|right; right; exact H'].
Qed.

Lemma entries_In {A} (x : string * A) (o : list (string * A)) :
  In x (Obj.entries o) -> In x o.
Proof.
  unfold Obj.entries. intros H. apply in_app_or in H as [H|H].
  - apply in_map_iff in H as [[n e] [<- H]]. cbn [snd].
    induction o as [|y o IH]; cbn [foldr] in H; [destruct H|].
    destruct (Obj.array_index (fst y)).
    + apply insert_sorted_In in H as [[= _ ->]|H];
        [left; reflexivity|right; apply IH, H].
    + right. apply IH, H.
  - apply filter_In in H as [H _]. exact H.
Qed.

Lemma get_In {A} (k : string) (v : A) (o : list (string * A)) :
  In (k, v) o -> Obj.get k o <> None.
Proof.
  induction o as [|[k1 v1] o IH]; [intros []|].
  cbn [Obj.get]. intros [[= -> ->]|H].
  - rewrite String.eqb_refl. discriminate.
  - destruct (String.eqb k k1); [discriminate|apply IH, H].
Qed.

Section Aliases.
Variable runner : Runner.
Hypothesis runner_blind : blind runner.

Lemma with_loop_blind (attrs : list (string * string)) (c c' : Context) :
  same_but_session c c' ->
  forall alias, with_loop runner attrs c alias = with_loop runner attrs c' alias.
Proof.
  intros Hc. induction attrs as [|[varName expression] rest IH]; intros alias;
    cbn [with_loop]; [reflexivity|].
  destruct (runner_blind c c' Hc) as [_ [_ [_ Hcode]]]. rewrite Hcode.
  destruct (runCode runner _ c') as [e|v]; cbn [bind]; [reflexivity|apply IH].
Qed.

Lemma with_loop_keys (attrs : list (string * string)) (c : Context) (k : string) :
  (forall e, ~ In (k, e) attrs) ->
  forall alias alias',
    Obj.get k alias = None ->
    with_loop runner attrs c alias = inr alias' ->
    Obj.get k alias' = None.
Proof.
  induction attrs as [|[varName expression] rest IH]; intros Hk alias alias' Ha;
    cbn [with_loop].
  - intros [= <-]. exact Ha.
  - destruct (runCode runner _ c) as [e|v]; cbn [bind]; [discriminate|].
    apply IH.
    + intros e He. apply (Hk e). right. exact He.
    + rewrite get_put. destruct (String.eqb_spec k varName) as [->|]; [|exact Ha].
      destruct (Hk expression). left. reflexivity.
Qed.

Lemma gsub_ext {S : Type} (matcher : string -> option (string * string))
  (f g : string -> string -> SRes S string) :
  (forall i c st, f i c st = g i c st) ->
  forall s skip st, gsub matcher f skip s st = gsub matcher g skip s st.
Proof.
  intros Hfg. induction s as [|ch s IH]; intros skip st; cbn [gsub];
    [reflexivity|].
  destruct skip as [|k]; [|apply IH].
  destruct (matcher (String ch s)) as [[input cap]|]; unfold sbind.
  - rewrite Hfg. destruct (g input cap st) as [st1 [e|r]]; [reflexivity|].
    rewrite IH. reflexivity.
  - rewrite IH. reflexivity.
Qed.

Lemma resolveExpression_blind (content : string) (c c' : Context) :
  same_but_session c c' ->
  Obj.get "__useRawHTML" c = Obj.get "__useRawHTML" c' ->
  resolveExpression runner content c = resolveExpression runner content c'.
Proof.
  intros Hc Hraw. unfold resolveExpression, replace_all. f_equal.
  apply gsub_ext. intros i exp st. f_equal. unfold interpolate.
  destruct (runner_blind c c' Hc) as [Hval _]. rewrite Hval, Hraw.
  reflexivity.
Qed.
End Aliases.

(** ** Two renders of one forest *)

Section Lockstep.
(** The node heap without the conditions, the same in both renders. *)
Variable H0 : Heap.
Hypothesis H0_wf : heap_wf H0.
Variable platform : Platform.
Hypothesis ids_distinct : distinct_ids platform.
(** The second render is [d] draws behind the first. *)
Variable d : nat.
(** The engine instances of the two renders. *)
Variables this this' : nat.
(** The forest that is rendered. *)
Variable dom : list ref.
Hypothesis dom_allowed :
  forall r, within H0 dom r -> allowed_node (nodeat H0 r) = true.

Local Abbreviation sid := (fresh_treeId platform).
Local Abbreviation paired := (paired platform d).
Local Abbreviation crel := (crel platform d).

(** A session of the first render: opened by a [t-tree] of the forest
    under a drawn identifier. *)
Definition session_ok (a : string) (sess : Session) : Prop :=
  (exists k, a = sid k) /\
  default "undefined" (s_varName sess) <> tree_id /\
  exists p, within H0 dom p /\ s_children sess = _children (nodeat H0 p).

(** The session stores of the two renders hold the same sessions under
    paired identifiers. *)
Record Sess (s t : State) : Prop := mk_Sess {
  sess_draws : draws t = draws s + d;
  sess_this : this < List.length (engines s);
  sess_this' : this' < List.length (engines t);
  sess_paired : forall k,
    TREE_CACHE this s !! sid k = TREE_CACHE this' t !! sid (k + d);
  sess_left : forall a sess,
    TREE_CACHE this s !! a = Some sess -> session_ok a sess;
  sess_right : forall b sess,
    TREE_CACHE this' t !! b = Some sess -> exists k, b = sid k
}.

(** The states of the two renders: the heaps have the shape [H0], the
    conditions differ on nodes with a writer only, and the session
    stores correspond. *)
Definition Rel (s t : State) : Prop :=
  shape (heap s) = H0 /\ shape (heap t) = H0 /\
  (forall x, cond s x <> cond t x -> has_writer H0 x) /\
  Sess s t.

(** What one render does to its state: conditions are written, on nodes
    with a writer, and identifiers are drawn. *)
Definition Un (s s' : State) : Prop :=
  pstate s' = pstate s /\ DOM_CACHE s' = DOM_CACHE s /\
  shape (heap s') = shape (heap s) /\ draws s <= draws s' /\
  forall x, cond s' x <> cond s x -> has_writer H0 x.

(** Conditions that agree still agree afterwards. *)
Definition mono (s t s1 t1 : State) : Prop :=
  forall x, cond s x = cond t x -> cond s1 x = cond t1 x.

Definition Step (s t s1 t1 : State) : Prop :=
  Un s s1 /\ shape (heap t1) = shape (heap t) /\ mono s t s1 t1 /\
  (Sess s t -> Sess s1 t1).

Definition simS {A} (p q : Promise A) : Prop :=
  forall s t, Rel s t ->
    forall sf a, settle p s = (sf, Some (inr a)) ->
      exists tf, settle q t = (tf, Some (inr a)) /\ Un s sf /\ Rel sf tf.

Lemma Un_refl s : Un s s.
Proof.
  split; [reflexivity|]. split; [reflexivity|]. split; [reflexivity|].
  split; [lia|]. intros x Hx. destruct Hx. reflexivity.
Qed.

Lemma Un_trans s1 s2 s3 :
  Un s1 s2 -> Un s2 s3 -> Un s1 s3.
Proof.
  intros [P1 [D1 [S1 [L1 W1]]]] [P2 [D2 [S2 [L2 W2]]]].
  split; [congruence|]. split; [congruence|]. split; [congruence|].
  split; [lia|].
  intros x Hx. destruct (cond_eq_dec (cond s2 x) (cond s1 x)) as [E|N].
  - apply W2. congruence.
  - apply W1, N.
Qed.

Lemma Step_refl s t : Step s t s t.
Proof.
  split; [apply Un_refl|]. split; [reflexivity|].
  split; [intros x E; exact E|auto].
Qed.

Lemma Step_trans s t s1 t1 s2 t2 :
  Step s t s1 t1 -> Step s1 t1 s2 t2 -> Step s t s2 t2.
Proof.
  intros [U1 [S1 [M1 C1]]] [U2 [S2 [M2 C2]]].
  split; [eapply Un_trans; eassumption|].
  split; [congruence|]. split; [intros x E; apply M2, M1, E|auto].
Qed.

Lemma Step_Rel s t s1 t1 : Rel s t -> Step s t s1 t1 -> Rel s1 t1.
Proof.
  intros [Hs [Ht [HU HC]]] [[_ [_ [S1 _]]] [T1 [M C]]]. split; [congruence|].
  split; [congruence|]. split; [|auto].
  intros x Hx. apply HU. intros E. apply Hx, M, E.
Qed.

Lemma simS_caught options node node' (p q : Promise string) :
  simS p q -> simS (caught options node p) (caught options node' q).
Proof.
  intros Hpq s t HR sf a Hs. apply settle_caught_inv in Hs.
  destruct (Hpq s t HR sf a Hs) as [tf [Ht [HU HR']]].
  exists tf. split; [|split; assumption]. apply settle_caught, Ht.
Qed.

Lemma simS_Rejected {A} (e : Exn) (q : Promise A) : simS (Rejected e) q.
Proof. intros s t HR sf a H. discriminate. Qed.

Lemma simS_Fulfilled {A} (a : A) : simS (Fulfilled a) (Fulfilled a).
Proof.
  intros s t HR sf b [= <- <-]. exists t.
  split; [reflexivity|]. split; [apply Un_refl|exact HR].
Qed.

Lemma simS_settle_all {A} (ps qs : list (Promise A)) :
  Forall2 simS ps qs ->
  forall s t, Rel s t ->
    forall sf l, settle_all ps s = (sf, Some (inr l)) ->
      exists tf, settle_all qs t = (tf, Some (inr l)) /\ Un s sf /\ Rel sf tf.
Proof.
  induction 1 as [|p q ps qs Hpq _ IH]; intros s t HR sf l Hs.
  - injection Hs as <- <-. exists t. split; [reflexivity|].
    split; [apply Un_refl|exact HR].
  - apply settle_all_cons_inv in Hs as [s1 [a [l' [Hp [Hps ->]]]]].
    destruct (Hpq s t HR s1 a Hp) as [t1 [Hq [U1 R1]]].
    destruct (IH s1 t1 R1 sf l' Hps) as [tf [Hqs [U2 R2]]].
    exists tf. cbn [settle_all]. rewrite Hq, Hqs.
    split; [reflexivity|]. split; [eapply Un_trans; eassumption|exact R2].
Qed.

(** A continuation [k], run on the value of an awaited promise. *)
Definition simK {A B} (k k' : A -> Async B) : Prop :=
  forall a s t, Rel s t ->
    viable (snd (k a s)) ->
    Un s (fst (k a s)) /\ Rel (fst (k a s)) (fst (k' a t)) /\
    simS (snd (k a s)) (snd (k' a t)).

Lemma simS_continue {A B} (k k' : A -> Async B) (a : A) s t sf b :
  simK k k' -> Rel s t ->
  (let '(s1, p1) := k a s in settle p1 s1) = (sf, Some (inr b)) ->
  exists tf, (let '(t1, q1) := k' a t in settle q1 t1) = (tf, Some (inr b)) /\
             Un s sf /\ Rel sf tf.
Proof.
  intros Hk HR Hs. specialize (Hk a s t HR).
  destruct (k a s) as [s1 p1]. destruct (k' a t) as [t1 q1].
  cbn [fst snd] in Hk.
  destruct (Hk ltac:(exists s1, sf, b; exact Hs)) as [U1 [R1 Hpq]].
  destruct (Hpq s1 t1 R1 sf b Hs) as [tf [Hq [U2 R2]]].
  exists tf. split; [exact Hq|]. split; [eapply Un_trans; eassumption|exact R2].
Qed.

Lemma simS_await {A B} (p q : Promise A) (k k' : A -> Async B) s0 t0 :
  simS p q -> simK k k' ->
  simS (snd (await p (fun r => lift r k) s0))
       (snd (await q (fun r => lift r k') t0)).
Proof.
  intros Hpq Hk s t HR sf b. cbn [await snd settle].
  destruct (settle p s) as [s2 [[e|a]|]] eqn:Hp; try discriminate.
  intros Hs. destruct (Hpq s t HR s2 a Hp) as [t2 [Hq [U2 R2]]].
  rewrite Hq. cbn [lift] in *.
  destruct (simS_continue k k' a s2 t2 sf b Hk R2 Hs) as [tf [Ht [U3 R3]]].
  exists tf. split; [exact Ht|]. split; [eapply Un_trans; eassumption|exact R3].
Qed.

Lemma simS_await_all {A B} (ps qs : list (Promise A))
  (k k' : list A -> Async B) s0 t0 :
  Forall2 simS ps qs -> simK k k' ->
  simS (snd (await_all ps (fun r => lift r k) s0))
       (snd (await_all qs (fun r => lift r k') t0)).
Proof.
  intros Hpq Hk s t HR sf b. cbn [await_all snd settle].
  destruct (settle_all ps s) as [s2 [[e|a]|]] eqn:Hp; try discriminate.
  intros Hs. destruct (simS_settle_all ps qs Hpq s t HR s2 a Hp)
    as [t2 [Hq [U2 R2]]].
  rewrite Hq. cbn [lift] in *.
  destruct (simS_continue k k' a s2 t2 sf b Hk R2 Hs) as [tf [Ht [U3 R3]]].
  exists tf. split; [exact Ht|]. split; [eapply Un_trans; eassumption|exact R3].
Qed.

(** *** One pass over a list of children *)

(** What a reader needs: its own condition agrees in the two states. *)
Definition Pre (r : ref) (s t : State) : Prop :=
  else_tag (_tag (nodeat H0 r)) = true -> cond s r = cond t r.

(** What a writer leaves: the condition of its target agrees. *)
Definition Post (r : ref) (s t : State) : Prop :=
  writer_node (nodeat H0 r) = true ->
  forall y, nextElement H0 r = inr (Some y) ->
            else_tag (_tag (nodeat H0 y)) = true ->
            cond s y = cond t y.

(** The two renders of the node [r], by [f] and by [f'], keep step. *)
Definition ok {A} (f f' : ref -> Async A) (r : ref) : Prop :=
  forall s t, Rel s t -> Pre r s t -> viable (snd (f r s)) ->
    Step s t (fst (f r s)) (fst (f' r t)) /\
    Post r (fst (f r s)) (fst (f' r t)) /\
    simS (snd (f r s)) (snd (f' r t)).

Lemma Post_mono r s t s1 t1 :
  Post r s t -> mono s t s1 t1 -> Post r s1 t1.
Proof. intros HP HM Hc y Hy He. apply HM, HP; assumption. Qed.

(** Every reader finds the condition that its writer, earlier in the
    pass, has left. *)
Lemma pass_sim {A} (f f' : ref -> Async A) (p : ref) :
  forall (todo done : list ref) (s t : State),
    _children (nodeat H0 p) = (done ++ todo)%list ->
    (forall r, In r todo -> ok f f' r) ->
    Rel s t ->
    (forall r, In r done -> Post r s t) ->
    Forall viable (snd (start_all f todo s)) ->
    Step s t (fst (start_all f todo s)) (fst (start_all f' todo t)) /\
    Forall2 simS (snd (start_all f todo s)) (snd (start_all f' todo t)).
Proof.
  induction todo as [|x todo IH]; intros done s t HL Hok HR Hdone Hv.
  - cbn [start_all fst snd]. split; [apply Step_refl|constructor].
  - rewrite start_all_cons in Hv |- *. rewrite (start_all_cons f' x todo t).
    cbn [fst snd] in *. apply Forall_cons in Hv as [Hvx Hv].
    assert (Hpre : Pre x s t).
    { intros Helse. destruct (cond_eq_dec (cond s x) (cond t x)) as [E|N];
        [exact E|].
      destruct HR as [_ [_ [HU _]]]. destruct (HU x N) as [_ [r [Hc Hn]]].
      pose proof (writer_precedes H0 p r x done todo H0_wf HL Hn) as Hin.
      apply (Hdone r Hin Hc x Hn Helse). }
    destruct (Hok x ltac:(left; reflexivity) s t HR Hpre Hvx)
      as [Hstep [Hpost Hsim]].
    pose proof (Step_Rel _ _ _ _ HR Hstep) as HR1.
    destruct (IH (done ++ [x])%list (fst (f x s)) (fst (f' x t))) as [Hstep2 Hsims].
    + rewrite HL, <- app_assoc. reflexivity.
    + intros r Hr. apply Hok. right. exact Hr.
    + exact HR1.
    + intros r Hr. apply in_app_or in Hr as [Hr|[<-|[]]].
      * eapply Post_mono; [apply Hdone, Hr|]. apply Hstep.
      * exact Hpost.
    + exact Hv.
    + split; [eapply Step_trans; eassumption|]. constructor; assumption.
Qed.

(** *** Bodies of [async] functions *)

(** The two renders, one running [F] and the other [F'], keep step and
    leave [P]. *)
Definition okA {A} (P : State -> State -> Prop) (F F' : Async A) : Prop :=
  forall s t, Rel s t -> viable (snd (F s)) ->
    Step s t (fst (F s)) (fst (F' t)) /\
    P (fst (F s)) (fst (F' t)) /\
    simS (snd (F s)) (snd (F' t)).

Definition any : State -> State -> Prop := fun _ _ => True.

Lemma okA_fulfil {A} (a : A) : okA any (fulfil a) (fulfil a).
Proof.
  intros s t HR _. split; [apply Step_refl|]. split; [exact Logic.I|].
  apply simS_Fulfilled.
Qed.

Lemma okA_reject {A} P (e : Exn) (F' : Async A) : okA P (reject e) F'.
Proof. intros s t HR Hv. destruct (not_viable_Rejected e Hv). Qed.

Lemma okA_lift {A B} P (r : Res A) (k k' : A -> Async B) :
  (forall a, r = inr a -> okA P (k a) (k' a)) -> okA P (lift r k) (lift r k').
Proof.
  intros Hk. destruct r; cbn [lift]; [apply okA_reject|apply Hk; reflexivity].
Qed.

Lemma okA_weaken {A} (P Q : State -> State -> Prop) (F F' : Async A) :
  (forall s t, P s t -> Q s t) -> okA P F F' -> okA Q F F'.
Proof.
  intros HPQ HF s t HR Hv. destruct (HF s t HR Hv) as [H1 [H2 H3]].
  split; [exact H1|]. split; [apply HPQ, H2|exact H3].
Qed.

Lemma simK_of_okA {A B} (k k' : A -> Async B) :
  (forall a, okA any (k a) (k' a)) -> simK k k'.
Proof.
  intros Hk a s t HR Hv. destruct (Hk a s t HR Hv) as [Hstep [_ Hsim]].
  split; [apply Hstep|]. split; [eapply Step_Rel; eassumption|exact Hsim].
Qed.

(** A body followed by [await] and a continuation. *)
Lemma okA_await {A B} P (F F' : Async A) (k k' : A -> Async B) :
  okA P F F' -> simK k k' ->
  okA P (fun s => let '(s1, p) := F s in await p (fun r => lift r k) s1)
        (fun s => let '(s1, p) := F' s in await p (fun r => lift r k') s1).
Proof.
  intros HF Hk s t HR Hv.
  specialize (HF s t HR). destruct (F s) as [s1 p]. destruct (F' t) as [t1 q].
  cbn [fst snd] in *. apply viable_await in Hv as Hp.
  destruct (HF Hp) as [Hstep [HP Hsim]].
  split; [exact Hstep|]. split; [exact HP|]. apply simS_await; assumption.
Qed.

Lemma okA_tagged P (options : Options) (node : Node) (F F' : Async string) :
  okA P F F' -> okA P (tagged options node F) (tagged options node F').
Proof.
  intros HF s t HR Hv. unfold tagged in *.
  specialize (HF s t HR). destruct (F s) as [s1 p]. destruct (F' t) as [t1 q].
  cbn [await fst snd] in *. apply viable_caught in Hv.
  change (Pending ?k) with
    (snd (await p (fun r => lift r (fun children =>
            fulfil (renderTemplateTag (_tag node) children))) s1)) in Hv.
  apply viable_await in Hv as Hp.
  destruct (HF Hp) as [Hstep [HP Hsim]].
  split; [exact Hstep|]. split; [exact HP|]. apply simS_caught.
  apply (simS_await p q _ _ s1 t1 Hsim).
  apply simK_of_okA. intros a. apply okA_fulfil.
Qed.

(** The same body started on each member of a list. *)
Lemma start_all_okA {X A} (F F' : X -> Async A) (items : list X) :
  (forall x, okA any (F x) (F' x)) ->
  forall s t, Rel s t ->
    Forall viable (snd (start_all F items s)) ->
    Step s t (fst (start_all F items s)) (fst (start_all F' items t)) /\
    Forall2 simS (snd (start_all F items s)) (snd (start_all F' items t)).
Proof.
  intros HF. induction items as [|x items IH]; intros s t HR Hv.
  - cbn [start_all fst snd]. split; [apply Step_refl|constructor].
  - rewrite start_all_cons in Hv |- *. rewrite (start_all_cons F' x items t).
    cbn [fst snd] in *. apply Forall_cons in Hv as [Hvx Hv].
    destruct (HF x s t HR Hvx) as [Hstep [_ Hsim]].
    pose proof (Step_Rel _ _ _ _ HR Hstep) as HR1.
    destruct (IH _ _ HR1 Hv) as [Hstep2 Hsims].
    split; [eapply Step_trans; eassumption|]. constructor; assumption.
Qed.

(** *** Steps on the stores *)

Lemma Rel_node (s t : State) (r : ref) :
  Rel s t ->
  erase (node_at s r) = nodeat H0 r /\ erase (node_at t r) = nodeat H0 r.
Proof.
  intros [Hs [Ht _]]. unfold node_at.
  change (default Node_empty (heap s !! r)) with (nodeat (heap s) r).
  change (default Node_empty (heap t !! r)) with (nodeat (heap t) r).
  rewrite <- !nodeat_shape, Hs, Ht. auto.
Qed.

Lemma Rel_nextElement (s t : State) (r : ref) :
  Rel s t ->
  nextElement (heap s) r = nextElement H0 r /\
  nextElement (heap t) r = nextElement H0 r.
Proof.
  intros [Hs [Ht _]]. rewrite <- (nextElement_shape (heap s)), Hs.
  rewrite <- (nextElement_shape (heap t)), Ht. auto.
Qed.

Lemma Rel_tag (s t : State) (x : ref) :
  Rel s t ->
  _tag (node_at s x) = _tag (nodeat H0 x) /\
  _tag (node_at t x) = _tag (nodeat H0 x).
Proof.
  intros HR. destruct (Rel_node s t x HR) as [E1 E2].
  rewrite <- E1 at 1. rewrite <- E2. auto.
Qed.

Lemma Sess_fields (s t s1 t1 : State) :
  draws s1 = draws s -> engines s1 = engines s ->
  draws t1 = draws t -> engines t1 = engines t ->
  Sess s t -> Sess s1 t1.
Proof.
  intros D1 E1 D2 E2 [H1 H2 H3 H4 H5 H6].
  split; unfold TREE_CACHE in *; rewrite ?D1, ?E1, ?D2, ?E2; assumption.
Qed.

(** The same condition written on a node with a writer, in both
    renders. *)
Lemma write_step (s t : State) (nx : ref) (b : bool) :
  Rel s t -> has_writer H0 nx ->
  Step s t (set_heap (update nx (with_condition b) (heap s)) s)
           (set_heap (update nx (with_condition b) (heap t)) t) /\
  cond (set_heap (update nx (with_condition b) (heap s)) s) nx
  = cond (set_heap (update nx (with_condition b) (heap t)) t) nx.
Proof.
  intros [Hs [Ht [HU HC]]] Hw.
  assert (Hvalid : is_Some (heap s !! nx) <-> is_Some (heap t !! nx)).
  { split; apply shape_valid; congruence. }
  split; [split; [|split; [|split]]|].
  - split; [reflexivity|]. split; [reflexivity|].
    split; [apply shape_update_condition|]. split; [reflexivity|].
    intros x Hx. rewrite cond_update in Hx.
    destruct (heap s !! nx); [|destruct Hx; reflexivity].
    destruct (decide (x = nx)) as [->|]; [exact Hw|destruct Hx; reflexivity].
  - apply shape_update_condition.
  - intros x E. rewrite !cond_update.
    destruct (heap s !! nx) as [n|] eqn:Hn.
    + destruct (proj1 Hvalid ltac:(eauto)) as [m ->].
      destruct (decide (x = nx)); [reflexivity|exact E].
    + destruct (heap t !! nx) as [m|] eqn:Hm; [|exact E].
      destruct (proj2 Hvalid ltac:(eauto)) as [n' Hn']. congruence.
  - apply Sess_fields; reflexivity.
  - rewrite !cond_update.
    destruct (heap s !! nx) as [n|] eqn:Hn.
    + destruct (proj1 Hvalid ltac:(eauto)) as [m ->].
      destruct (decide (nx = nx)); [reflexivity|congruence].
    + destruct (heap t !! nx) as [m|] eqn:Hm.
      * destruct (proj2 Hvalid ltac:(eauto)) as [n' Hn']. congruence.
      * destruct Hw as [Hw _]. unfold nodeat in Hw.
        assert (Hnone : H0 !! nx = None).
        { rewrite <- Hs, shape_lookup, Hn. reflexivity. }
        rewrite Hnone in Hw. discriminate.
Qed.

(** A step that leaves the heaps alone. *)
Lemma store_step (s t s1 t1 : State) :
  heap s1 = heap s -> pstate s1 = pstate s -> DOM_CACHE s1 = DOM_CACHE s ->
  heap t1 = heap t -> draws s <= draws s1 ->
  (Sess s t -> Sess s1 t1) ->
  Step s t s1 t1.
Proof.
  intros Eh Ep Ed Et Hd HC. unfold Step, Un, mono, cond, node_at.
  rewrite Eh, Et.
  split; [split; [exact Ep|split; [exact Ed|split; [reflexivity|
    split; [exact Hd|]]]]|].
  - intros x Hx. destruct Hx. reflexivity.
  - split; [reflexivity|]. split; [intros x E; exact E|exact HC].
Qed.

(** [this.TREE_CACHE[treeId] = {children, varName}] after the draw, in
    both renders. *)
Definition opened (this : nat) (sess : Session) (s : State) : State :=
  let s0 :=
    mkState (heap s) (pstate s) (DOM_CACHE s) (engines s) (S (draws s))
            (renders s) in
  set_TREE_CACHE this (<[sid (draws s) := sess]> (TREE_CACHE this s0)) s0.

Definition closed (this : nat) (treeId : string) (s : State) : State :=
  set_TREE_CACHE this (delete treeId (TREE_CACHE this s)) s.

Lemma paired_inj (k k' : nat) : sid (k + d) = sid (k' + d) -> k = k'.
Proof. intros H. apply ids_distinct in H. lia. Qed.

Lemma open_step (s t : State) (sess : Session) :
  Rel s t -> session_ok (sid (draws s)) sess ->
  Step s t (opened this sess s) (opened this' sess t) /\
  paired (sid (draws s)) (sid (draws t)).
Proof.
  intros [_ [_ [_ HC]]] Hok. pose proof HC as [H1 H2 H3 H4 H5 H6]. split.
  - apply store_step; [reflexivity|reflexivity|reflexivity|reflexivity|
                      cbn; lia|].
    intros _. unfold opened. split.
    + cbn. lia.
    + cbn. rewrite length_insert. exact H2.
    + cbn. rewrite length_insert. exact H3.
    + intros k. rewrite !TREE_CACHE_set by assumption.
      change (TREE_CACHE this (mkState _ _ _ (engines s) _ _))
        with (TREE_CACHE this s).
      change (TREE_CACHE this' (mkState _ _ _ (engines t) _ _))
        with (TREE_CACHE this' t).
      cbn [draws]. rewrite H1.
      destruct (decide (k = draws s)) as [->|Hne].
      * rewrite !lookup_insert_eq. reflexivity.
      * rewrite !lookup_insert_ne; [apply H4| |].
        -- intros E. apply paired_inj in E. congruence.
        -- intros E. apply ids_distinct in E. congruence.
    + intros a sess0. rewrite TREE_CACHE_set by assumption.
      change (TREE_CACHE this (mkState _ _ _ (engines s) _ _))
        with (TREE_CACHE this s).
      cbn [draws]. intros Hl.
      apply lookup_insert_Some in Hl as [[<- <-]|[_ Hl]];
        [exact Hok|eapply H5, Hl].
    + intros b sess0. rewrite TREE_CACHE_set by assumption.
      change (TREE_CACHE this' (mkState _ _ _ (engines t) _ _))
        with (TREE_CACHE this' t).
      cbn [draws]. intros Hl.
      apply lookup_insert_Some in Hl as [[<- <-]|[_ Hl]];
        [eauto|eapply H6, Hl].
  - exists (draws s). split; [reflexivity|]. rewrite H1. reflexivity.
Qed.

Lemma close_step (s t : State) (a b : string) :
  Rel s t -> paired a b ->
  Step s t (closed this a s) (closed this' b t).
Proof.
  intros [_ [_ [_ HC]]] [k0 [-> ->]]. pose proof HC as [H1 H2 H3 H4 H5 H6].
  apply store_step; [reflexivity|reflexivity|reflexivity|reflexivity|
                    cbn; lia|].
  intros _. unfold closed. split.
  - exact H1.
  - cbn. rewrite length_insert. exact H2.
  - cbn. rewrite length_insert. exact H3.
  - intros k. rewrite !TREE_CACHE_set by assumption.
    destruct (decide (k = k0)) as [->|Hne].
    + rewrite !lookup_delete_eq. reflexivity.
    + rewrite !lookup_delete_ne; [apply H4| |].
      * intros E. apply paired_inj in E. congruence.
      * intros E. apply ids_distinct in E. congruence.
  - intros a sess0. rewrite TREE_CACHE_set by assumption. intros Hl.
    apply lookup_delete_Some in Hl as [_ Hl]. eapply H5, Hl.
  - intros b sess0. rewrite TREE_CACHE_set by assumption. intros Hl.
    apply lookup_delete_Some in Hl as [_ Hl]. eapply H6, Hl.
Qed.

(** [this.TREE_CACHE[treeId]] read under paired identifiers. *)
Lemma session_paired (s t : State) (a b : string) :
  Rel s t -> paired a b ->
  session (TREE_CACHE this' t) b = session (TREE_CACHE this s) a /\
  match session (TREE_CACHE this s) a with
  | Some (children, varName) =>
      exists ch, children = Some ch /\ session_ok a (mkSession ch varName)
  | None => True
  end.
Proof.
  intros [_ [_ [_ HC]]] [k [-> ->]]. destruct HC as [H1 H2 H3 H4 H5 H6].
  unfold session. rewrite <- H4, !fresh_treeId_not_inherited.
  split; [reflexivity|].
  destruct (TREE_CACHE this s !! sid k) as [[ch vn]|] eqn:Hl; [|exact Logic.I].
  exists ch. split; [reflexivity|]. eapply H5, Hl.
Qed.

(** [this.TREE_CACHE[undefined]] *)
Lemma session_undefined (s t : State) :
  Rel s t ->
  session (TREE_CACHE this s) "undefined" = None.
Proof.
  intros [_ [_ [_ HC]]]. destruct HC as [H1 H2 H3 H4 H5 H6].
  unfold session.
  destruct (TREE_CACHE this s !! "undefined") as [sess|] eqn:Hl; [|reflexivity].
  destruct (H5 _ _ Hl) as [[k Hk] _].
  destruct (fresh_treeId_not_undefined platform k). symmetry. exact Hk.
Qed.

(** *** The directives *)

Variable runner : Runner.
Hypothesis runner_blind : blind runner.
Variable options : Options.

Section Level.
(** [parseElement] of the two renders, for the recursive calls. *)
Variables pe pe' : nat -> Options -> ref -> Context -> Async string.
Hypothesis pe_ok : forall r, within H0 dom r ->
  forall c c', crel c c' ->
    ok (fun x => pe this options x c) (fun x => pe' this' options x c') r.

Lemma raw_key_ne : "__useRawHTML" <> tree_id.
Proof. discriminate. Qed.

Lemma resolveExpression_crel (content : string) (c c' : Context) :
  crel c c' ->
  resolveExpression runner content c' = resolveExpression runner content c.
Proof.
  intros Hc. symmetry.
  apply (resolveExpression_blind runner runner_blind);
    [apply (crel_same_but platform d), Hc|].
  apply (crel_get_ne platform d); [exact raw_key_ne|exact Hc].
Qed.

Section Children.
(** The node whose children are rendered. *)
Variable parent : ref.
Hypothesis parent_within : within H0 dom parent.

Lemma parseChildren_ok (c c' : Context) :
  crel c c' ->
  okA any (parseChildren runner pe this options
             (_children (nodeat H0 parent)) c)
          (parseChildren runner pe' this' options
             (_children (nodeat H0 parent)) c').
Proof.
  intros Hc s t HR Hv. unfold parseChildren in *.
  pose proof (pass_sim
                (fun element => pe this options element c)
                (fun element => pe' this' options element c') parent
                (_children (nodeat H0 parent)) [] s t eq_refl
                ltac:(intros r Hr; apply pe_ok;
                      [apply (within_child _ _ parent); assumption|exact Hc])
                HR ltac:(intros r []))
    as Hpass.
  destruct (start_all _ (_children (nodeat H0 parent)) s) as [s1 ps].
  destruct (start_all _ (_children (nodeat H0 parent)) t) as [t1 qs].
  cbn [fst snd] in *.
  apply viable_await_all in Hv as Hps.
  destruct (Hpass Hps) as [Hstep Hsims].
  split; [exact Hstep|]. split; [exact Logic.I|].
  apply simS_await_all; [exact Hsims|].
  apply simK_of_okA. intros temp.
  rewrite (resolveExpression_crel _ c c' Hc).
  apply okA_lift. intros a _. apply okA_fulfil.
Qed.

Lemma await_children_ok (c c' : Context) :
  crel c c' ->
  okA any
    (fun s =>
       let '(s1, p) :=
         parseChildren runner pe this options
           (_children (nodeat H0 parent)) c s in
       await p (fun r => lift r fulfil) s1)
    (fun s =>
       let '(s1, p) :=
         parseChildren runner pe' this' options
           (_children (nodeat H0 parent)) c' s in
       await p (fun r => lift r fulfil) s1).
Proof.
  intros Hc.
  apply (okA_await any _ _ fulfil fulfil); [apply parseChildren_ok, Hc|].
  apply simK_of_okA. intros a. apply okA_fulfil.
Qed.

Lemma for_loop_ok (c c' : Context) (varName : string)
  (items : list Value) :
  crel c c' -> varName <> tree_id ->
  forall result,
    okA any (for_loop runner pe this options
               (_children (nodeat H0 parent)) c varName items result)
            (for_loop runner pe' this' options
               (_children (nodeat H0 parent)) c' varName items result).
Proof.
  intros Hc Hne. induction items as [|item rest IH]; intros result;
    cbn [for_loop].
  - apply okA_fulfil.
  - apply (okA_await any
             (parseChildren runner pe this options
                (_children (nodeat H0 parent))
                (Obj.put varName item c))
             (parseChildren runner pe' this' options
                (_children (nodeat H0 parent))
                (Obj.put varName item c'))
             (fun parsedChildren =>
                for_loop runner pe this options
                  (_children (nodeat H0 parent)) c varName rest
                  (result ++ [parsedChildren])%list)
             (fun parsedChildren =>
                for_loop runner pe' this' options
                  (_children (nodeat H0 parent)) c' varName rest
                  (result ++ [parsedChildren])%list)).
    + apply parseChildren_ok, crel_put_same; assumption.
    + apply simK_of_okA. intros a. apply IH.
Qed.

End Children.

(** [renderTreeChildren] under paired identifiers. *)
Lemma renderTreeChildren_ok (data : Got) (a b : string) (c c' : Context) :
  paired a b -> crel c c' ->
  okA any (renderTreeChildren runner pe this options data a c)
          (renderTreeChildren runner pe' this' options data b c').
Proof.
  intros Hab Hc s t HR Hv. unfold renderTreeChildren in *.
  destruct (session_paired s t a b HR Hab) as [-> Hsess].
  destruct (session (TREE_CACHE this s) a) as [[children varName]|];
    [|destruct (not_viable_Rejected _ Hv)].
  destruct Hsess as [ch [-> [_ [Hvar [p [Hp Hch]]]]]].
  cbn [s_children s_varName] in Hvar, Hch.
  destruct (elements data) as [items|];
    [|destruct (not_viable_Rejected _ Hv)].
  assert (Hitem : forall item,
            okA any
              (parseChildren runner pe this options ch
                 (Obj.put (default "undefined" varName) item
                    (spread [("__tree_id__", VString a)] c)))
              (parseChildren runner pe' this' options ch
                 (Obj.put (default "undefined" varName) item
                    (spread [("__tree_id__", VString b)] c')))).
  { intros item. rewrite Hch. apply (parseChildren_ok p Hp).
    apply (crel_item platform d); assumption. }
  pose proof (start_all_okA _ _ items Hitem s t HR) as Hall.
  destruct (start_all _ items s) as [s1 ps].
  destruct (start_all _ items t) as [t1 qs].
  cbn [fst snd] in *.
  apply viable_await_all in Hv as Hps.
  destruct (Hall Hps) as [Hstep Hsims].
  split; [exact Hstep|]. split; [exact Logic.I|].
  apply simS_await_all; [exact Hsims|].
  apply simK_of_okA. intros temp. apply okA_fulfil.
Qed.

Lemma allowed_for (n : Node) :
  allowed_node n = true -> _tag n = TAGS_FOR -> for_var n <> tree_id.
Proof.
  unfold allowed_node. intros H E. rewrite E in H. cbn in H.
  apply negb_true_iff, String.eqb_neq in H. exact H.
Qed.

Lemma allowed_with (n : Node) :
  allowed_node n = true -> _tag n = TAGS_WITH ->
  Obj.get tree_id (_attrs n) = None.
Proof.
  unfold allowed_node. intros H E. rewrite E in H. cbn in H.
  apply negb_true_iff in H. unfold Obj.hasOwnProperty in H.
  destruct (Obj.get tree_id (_attrs n)); [discriminate|reflexivity].
Qed.

Lemma allowed_tree (n : Node) :
  allowed_node n = true -> _tag n = TAGS_TREE -> tree_var n <> tree_id.
Proof.
  unfold allowed_node. intros H E. rewrite E in H. cbn in H.
  apply negb_true_iff, String.eqb_neq in H. exact H.
Qed.

Lemma allowed_include (n : Node) :
  allowed_node n = true -> String.eqb (_tag n) TAGS_INCLUDE = false.
Proof.
  unfold allowed_node. destruct (String.eqb (_tag n) TAGS_INCLUDE);
    [discriminate|reflexivity].
Qed.

Section Node.
Variable r : ref.
Hypothesis r_within : within H0 dom r.
Variable node : Node.
Hypothesis Hnode : erase node = nodeat H0 r.

Lemma children_of_node : _children node = _children (nodeat H0 r).
Proof. rewrite <- Hnode. reflexivity. Qed.

Lemma tag_of_node : _tag node = _tag (nodeat H0 r).
Proof. rewrite <- Hnode. reflexivity. Qed.

Lemma node_allowed : allowed_node node = true.
Proof.
  rewrite <- (dom_allowed r r_within), <- Hnode. reflexivity.
Qed.

Lemma renderFor_ok (c c' : Context) :
  crel c c' -> _tag node = TAGS_FOR ->
  okA any (renderFor runner pe this options node c)
          (renderFor runner pe' this' options node c').
Proof.
  intros Hc Htag. unfold renderFor. apply okA_lift. intros has _.
  destruct (negb has); [apply okA_reject|].
  destruct (runner_blind c c' (crel_same_but platform d c c' Hc))
    as [_ [Hof [Hin _]]].
  rewrite <- ?Hof, <- ?Hin.
  apply okA_lift. intros lc _. apply okA_lift. intros items _.
  rewrite children_of_node. apply for_loop_ok; [exact r_within|exact Hc|].
  apply (allowed_for node node_allowed Htag).
Qed.

Lemma renderElse_ok (c c' : Context) :
  crel c c' ->
  okA any (renderElse runner pe this options node c)
          (renderElse runner pe' this' options node c').
Proof.
  intros Hc. unfold renderElse. destruct (__condition__ node) as [[|]|].
  - rewrite children_of_node. apply await_children_ok; assumption.
  - apply okA_fulfil.
  - apply okA_reject.
Qed.

Lemma renderWith_ok (c c' : Context) :
  crel c c' -> _tag node = TAGS_WITH ->
  okA any (renderWith runner pe this options node c)
          (renderWith runner pe' this' options node c').
Proof.
  intros Hc Htag. unfold renderWith.
  destruct (Obj.entries (_attrs node)) as [|e es] eqn:He;
    [apply okA_reject|].
  apply okA_lift. intros _ _.
  rewrite <- (with_loop_blind runner runner_blind _ c c'
                (crel_same_but platform d c c' Hc)).
  apply okA_lift. intros alias Halias.
  rewrite children_of_node. apply await_children_ok; [exact r_within|].
  apply crel_spread; [exact Hc|]. apply crel_refl.
  apply (with_loop_keys runner (e :: es) c tree_id) with (alias := []);
    [|reflexivity|exact Halias].
  intros x Hx. rewrite <- He in Hx. apply entries_In, get_In in Hx.
  apply Hx, (allowed_with node node_allowed Htag).
Qed.

Lemma renderHTML_ok (c c' : Context) :
  crel c c' ->
  okA any (renderHTML runner pe this options node c)
          (renderHTML runner pe' this' options node c').
Proof.
  intros Hc. unfold renderHTML. rewrite children_of_node.
  apply await_children_ok; [exact r_within|].
  apply crel_put_same; [exact raw_key_ne|exact Hc].
Qed.

Lemma renderCondition_ok (c c' : Context) :
  crel c c' ->
  writer_node (nodeat H0 r) = true ->
  okA (Post r) (renderCondition runner pe this options r node c)
               (renderCondition runner pe' this' options r node c').
Proof.
  intros Hc Hw s t HR Hv. unfold renderCondition in *.
  destruct (runner_blind c c' (crel_same_but platform d c c' Hc))
    as [Hval _].
  rewrite <- Hval.
  destruct (getExpressionValue runner c _) as [e|result];
    [destruct (not_viable_Rejected e Hv)|].
  destruct (Rel_nextElement s t r HR) as [Es Et]. rewrite Es in *.
  rewrite Et.
  destruct (nextElement H0 r) as [e|nextNode] eqn:Hnext;
    [destruct (not_viable_Rejected e Hv)|].
  set (s1 := match nextNode with
             | Some nx =>
                 if String.eqb (_tag (node_at s nx)) TAGS_ELSE
                    || String.eqb (_tag (node_at s nx)) TAGS_ELIF
                 then set_heap (update nx (with_condition (negb (JS.truthy result)))
                                       (heap s)) s
                 else s
             | None => s
             end) in *.
  set (t1 := match nextNode with
             | Some nx =>
                 if String.eqb (_tag (node_at t nx)) TAGS_ELSE
                    || String.eqb (_tag (node_at t nx)) TAGS_ELIF
                 then set_heap (update nx (with_condition (negb (JS.truthy result)))
                                       (heap t)) t
                 else t
             | None => t
             end).
  assert (Hwrite : Step s t s1 t1 /\ Post r s1 t1).
  { subst s1 t1. destruct nextNode as [nx|].
    - destruct (Rel_tag s t nx HR) as [-> ->].
      fold (else_tag (_tag (nodeat H0 nx))).
      destruct (else_tag (_tag (nodeat H0 nx))) eqn:Helse.
      + destruct (write_step s t nx (negb (JS.truthy result)) HR
                    ltac:(split; [exact Helse|exists r; auto])) as [Hstep Heq].
        split; [exact Hstep|]. intros _ y Hy _. rewrite Hnext in Hy.
        injection Hy as <-. exact Heq.
      + split; [apply Step_refl|]. intros _ y Hy He. rewrite Hnext in Hy.
        injection Hy as <-. congruence.
    - split; [apply Step_refl|]. intros _ y Hy. rewrite Hnext in Hy.
      discriminate. }
  destruct Hwrite as [Hstep HPost].
  pose proof (Step_Rel _ _ _ _ HR Hstep) as HR1.
  destruct (negb (JS.truthy result)).
  - cbn [fst snd]. split; [exact Hstep|]. split; [exact HPost|].
    apply simS_Fulfilled.
  - pose proof (await_children_ok r r_within c c' Hc s1 t1 HR1) as Hch.
    rewrite <- children_of_node in Hch. specialize (Hch Hv).
    destruct Hch as [Hstep2 [_ Hsim]].
    split; [eapply Step_trans; eassumption|].
    split; [eapply Post_mono; [exact HPost|apply Hstep2]|exact Hsim].
Qed.

Lemma renderIf_ok (c c' : Context) :
  crel c c' ->
  writer_node (nodeat H0 r) = true ->
  okA (Post r) (renderIf runner pe this options r node c)
               (renderIf runner pe' this' options r node c').
Proof.
  intros Hc Hw. unfold renderIf. apply okA_lift. intros has _.
  destruct (negb has); [apply okA_reject|apply renderCondition_ok; assumption].
Qed.

Lemma renderElif_ok (c c' : Context) :
  crel c c' ->
  writer_node (nodeat H0 r) = true ->
  okA (Post r) (renderElif runner pe this options r node c)
               (renderElif runner pe' this' options r node c').
Proof.
  intros Hc Hw. unfold renderElif. apply okA_lift. intros has _.
  destruct (negb has); [apply okA_reject|].
  destruct (__condition__ node);
    [apply renderCondition_ok; assumption|apply okA_reject].
Qed.

Lemma renderElement_ok (c c' : Context) :
  crel c c' ->
  okA any (renderElement runner pe this options node c)
          (renderElement runner pe' this' options node c').
Proof.
  intros Hc s t HR Hv. unfold renderElement in *. rewrite children_of_node in *.
  rewrite (resolveExpression_crel _ c c' Hc).
  pose proof (pass_sim
                (fun child => pe this options child c)
                (fun child => pe' this' options child c') r
                (_children (nodeat H0 r)) [] s t eq_refl
                ltac:(intros x Hx; apply pe_ok;
                      [apply (within_child _ _ r); assumption|exact Hc])
                HR ltac:(intros x []))
    as Hpass.
  destruct (start_all _ (_children (nodeat H0 r)) s) as [s1 ps].
  destruct (start_all _ (_children (nodeat H0 r)) t) as [t1 qs].
  match goal with
  | |- context [await_all ps ?K s1] =>
      pose proof (eq_refl : await_all ps K s1 = (s1, snd (await_all ps K s1)))
        as E1;
      pose proof (eq_refl : await_all qs K t1 = (t1, snd (await_all qs K t1)))
        as E2;
      rewrite E1 in *; rewrite E2
  end.
  cbn [fst snd] in *. apply viable_caught in Hv.
  apply viable_await_all in Hv as Hps.
  destruct (Hpass Hps) as [Hstep Hsims].
  split; [exact Hstep|]. split; [exact Logic.I|]. apply simS_caught.
  apply simS_await_all; [exact Hsims|].
  apply simK_of_okA. intros a. apply okA_lift. intros b _.
  apply okA_fulfil.
Qed.

(** An array read off the context is the same in both renders. *)
Lemma crel_get_array (k : string) (items : list Value) (c c' : Context) :
  crel c c' -> Obj.get k c = Some (VArray items) ->
  Obj.get k c' = Some (VArray items).
Proof.
  intros Hc Hg. pose proof (crel_get platform d k c c' Hc) as H.
  rewrite Hg in H. destruct (Obj.get k c') as [v'|]; [|contradiction].
  destruct H as [_ H]. cbn [fst snd] in H.
  destruct (String.eqb k tree_id).
  - destruct H as [a [b [Ha _]]]. discriminate.
  - congruence.
Qed.

Lemma renderTree_ok (c c' : Context) :
  crel c c' -> _tag node = TAGS_TREE ->
  okA any (renderTree runner platform pe this options node c)
          (renderTree runner platform pe' this' options node c').
Proof.
  intros Hc Htag. unfold renderTree. apply okA_lift. intros has _.
  destruct (negb has); [apply okA_reject|].
  set (treeName := default "undefined"
         (JS.split " as " (default "undefined" (Obj.get "on" (_attrs node))) !! 0)).
  set (varName := JS.split " as " (default "undefined" (Obj.get "on" (_attrs node))) !! 1).
  destruct (Obj.get treeName c) as [v|] eqn:Hg; [|apply okA_reject].
  destruct v as [| | | | |items|]; try apply okA_reject.
  rewrite (crel_get_array treeName items c c' Hc Hg).
  intros s t HR Hv.
  assert (Hsess : session_ok (sid (draws s)) (mkSession (_children node) varName)).
  { split; [eauto|]. split.
    - apply (allowed_tree node node_allowed Htag).
    - exists r. split; [exact r_within|apply children_of_node]. }
  destruct (open_step s t _ HR Hsess) as [Hstep1 Hpair].
  fold (opened this (mkSession (_children node) varName) s) in *.
  fold (opened this' (mkSession (_children node) varName) t).
  pose proof (Step_Rel _ _ _ _ HR Hstep1) as HR1.
  pose proof (renderTreeChildren_ok (got (VArray items)) _ _ c c' Hpair Hc
                _ _ HR1) as Hbody.
  destruct (renderTreeChildren runner pe this options _ _ c
              (opened this _ s)) as [s2 p].
  destruct (renderTreeChildren runner pe' this' options _ _ c'
              (opened this' _ t)) as [t2 q].
  cbn [fst snd] in *.
  destruct (Hbody Hv) as [Hstep2 [_ Hsim]].
  pose proof (Step_Rel _ _ _ _ HR1 Hstep2) as HR2.
  pose proof (close_step s2 t2 _ _ HR2 Hpair) as Hstep3.
  split; [|split; [exact Logic.I|exact Hsim]].
  eapply Step_trans; [exact Hstep1|]. eapply Step_trans; eassumption.
Qed.

Lemma returnChildren_ok (c c' : Context) :
  crel c c' ->
  okA any (returnChildren runner platform pe this options node c)
          (returnChildren runner platform pe' this' options node c').
Proof.
  intros Hc s t HR Hv. unfold returnChildren, renderChildren in *.
  cbv zeta in *. change "__tree_id__" with tree_id in *.
  destruct (crel_session platform d c c' Hc)
    as [[Hn Hn']|[a [b [Ha [Hb Hab]]]]].
  - rewrite Hn in *.
    change (JS.toString (default VUndefined None)) with "undefined" in *.
    rewrite (session_undefined s t HR) in Hv. cbn [snd] in Hv.
    apply viable_caught in Hv. destruct (not_viable_Rejected _ Hv).
  - rewrite Ha in *. rewrite Hb.
    change (JS.toString (default VUndefined (Some (VString a)))) with a in *.
    change (JS.toString (default VUndefined (Some (VString b)))) with b.
    destruct (session_paired s t a b HR Hab) as [-> Hsess].
    destruct (session (TREE_CACHE this s) a) as [[children varName]|];
      [|cbn [snd] in Hv; apply viable_caught in Hv;
        destruct (not_viable_Rejected _ Hv)].
    destruct Hsess as [ch [-> [_ [Hvar _]]]]. cbn [s_varName] in Hvar.
    assert (Eread : read c' (default "undefined" varName)
                    = read c (default "undefined" varName)).
    { unfold read.
      rewrite (crel_get_ne platform d _ c c' Hvar Hc). reflexivity. }
    rewrite Eread.
    destruct (get_prop platform _ _) as [e|data];
      [cbn [snd] in Hv; apply viable_caught in Hv;
       destruct (not_viable_Rejected _ Hv)|].
    destruct (negb (truthy data)).
    + cbn [ret fst snd]. split; [apply Step_refl|].
      split; [exact Logic.I|apply simS_Fulfilled].
    + pose proof (renderTreeChildren_ok data a b c c' Hab Hc s t HR) as Hbody.
      destruct (renderTreeChildren runner pe this options data a c s)
        as [s1 p].
      destruct (renderTreeChildren runner pe' this' options data b c' t)
        as [t1 q].
      cbn [ret fst snd] in *. apply Hbody, Hv.
Qed.
End Node.

Lemma Post_trivial (r : ref) :
  writer_node (nodeat H0 r) = false -> forall s t, Post r s t.
Proof. intros Hw s t Hw'. congruence. Qed.

Lemma dispatch_ok (r : ref) (node : Node) (c c' : Context) :
  within H0 dom r ->
  erase node = nodeat H0 r ->
  crel c c' ->
  dispatches (nodeat H0 r) = true ->
  okA (Post r)
    (dispatch runner platform pe this options r node c)
    (dispatch runner platform pe' this' options r node c').
Proof.
  intros Hr Hnode Hc Hd.
  pose proof (tag_of_node r node Hnode) as Htag.
  assert (Hw : writer_node (nodeat H0 r) = cond_tag (_tag node)).
  { unfold writer_node. rewrite Hd, Htag. reflexivity. }
  pose proof (allowed_include node (node_allowed r Hr node Hnode)) as Hinclude.
  unfold dispatch. rewrite Hinclude.
  unfold cond_tag in Hw.
  destruct (String.eqb (_tag node) TAGS_FOR) eqn:E1.
  { apply String.eqb_eq in E1. rewrite E1 in Hw. cbn in Hw.
    apply okA_tagged, (okA_weaken any);
      [intros; apply (Post_trivial r), Hw|].
    apply (renderFor_ok r Hr node Hnode c c' Hc E1). }
  destruct (String.eqb (_tag node) TAGS_IF) eqn:E2.
  { apply okA_tagged, (renderIf_ok r Hr node Hnode c c' Hc).
    rewrite Hw. reflexivity. }
  destruct (String.eqb (_tag node) TAGS_ELIF) eqn:E3.
  { apply okA_tagged, (renderElif_ok r Hr node Hnode c c' Hc).
    rewrite Hw. reflexivity. }
  cbn [orb] in Hw.
  destruct (String.eqb (_tag node) TAGS_ELSE) eqn:E4.
  { apply okA_tagged, (okA_weaken any);
      [intros; apply (Post_trivial r), Hw|].
    apply (renderElse_ok r Hr node Hnode c c' Hc). }
  destruct (String.eqb (_tag node) TAGS_WITH) eqn:E5.
  { apply String.eqb_eq in E5.
    apply okA_tagged, (okA_weaken any);
      [intros; apply (Post_trivial r), Hw|].
    apply (renderWith_ok r Hr node Hnode c c' Hc E5). }
  destruct (String.eqb (_tag node) TAGS_TREE) eqn:E6.
  { apply String.eqb_eq in E6.
    apply okA_tagged, (okA_weaken any);
      [intros; apply (Post_trivial r), Hw|].
    apply (renderTree_ok r Hr node Hnode c c' Hc E6). }
  destruct (String.eqb (_tag node) TAGS_CHILDREN) eqn:E7.
  { apply (okA_weaken any); [intros; apply (Post_trivial r), Hw|].
    apply (returnChildren_ok node c c' Hc). }
  destruct (String.eqb (_tag node) TAGS_HTML) eqn:E8.
  { apply okA_tagged, (okA_weaken any);
      [intros; apply (Post_trivial r), Hw|].
    apply (renderHTML_ok r Hr node Hnode c c' Hc). }
  apply (okA_weaken any); [intros; apply (Post_trivial r), Hw|].
  apply (renderElement_ok r Hr node Hnode c c' Hc).
Qed.

Lemma parseElement_body_ok (r : ref) (c c' : Context) :
  within H0 dom r ->
  crel c c' ->
  ok (fun x => parseElement_body runner platform pe this options x c)
     (fun x => parseElement_body runner platform pe' this' options x c')
     r.
Proof.
  intros Hr Hc s t HR Hpre Hv. unfold parseElement_body in *.
  destruct (Rel_node s t r HR) as [En Em].
  set (n := node_at s r) in *. set (m := node_at t r) in *.
  assert (Ety : _type m = _type n).
  { change (_type (erase m) = _type (erase n)). congruence. }
  assert (Eraw : _raw m = _raw n).
  { change (_raw (erase m) = _raw (erase n)). congruence. }
  assert (Hplain : dispatches (nodeat H0 r) = false ->
            forall p q : Promise string,
              simS p q ->
              Step s t (fst (s, p)) (fst (t, q)) /\
              Post r (fst (s, p)) (fst (t, q)) /\
              simS (snd (s, p)) (snd (t, q))).
  { intros Hd p q Hpq. split; [apply Step_refl|]. split; [|exact Hpq].
    apply Post_trivial. unfold writer_node. rewrite Hd. reflexivity. }
  assert (Hdisp : dispatches (nodeat H0 r) = true ->
            viable (snd (dispatch runner platform pe this options r n c s)) ->
            Step s t
              (fst (dispatch runner platform pe this options r n c s))
              (fst (dispatch runner platform pe' this' options r m c' t)) /\
            Post r
              (fst (dispatch runner platform pe this options r n c s))
              (fst (dispatch runner platform pe' this' options r m c' t)) /\
            simS
              (snd (dispatch runner platform pe this options r n c s))
              (snd (dispatch runner platform pe' this' options r m c' t))).
  { intros Hd Hv'.
    assert (Hm : dispatch runner platform pe' this' options r m c'
                 = dispatch runner platform pe' this' options r n c').
    { rewrite (node_recond n m) by congruence.
      destruct (else_tag (_tag n)) eqn:Helse.
      - change (__condition__ m) with (cond t r).
        rewrite <- (Hpre ltac:(rewrite <- En; exact Helse)).
        change (cond s r) with (__condition__ n).
        rewrite recond_same. reflexivity.
      - apply dispatch_recond, Helse. }
    rewrite Hm. apply (dispatch_ok r n c c' Hr En Hc Hd s t HR Hv'). }
  assert (Hdn : dispatches (nodeat H0 r) = dispatches n).
  { rewrite <- En. reflexivity. }
  rewrite Ety, Eraw, (resolveExpression_crel _ c c' Hc).
  unfold dispatches in Hdn.
  destruct (_type n) as [[]|];
    try (apply Hdisp; [exact Hdn|exact Hv]);
    apply (Hplain Hdn).
  - apply simS_caught.
    destruct (resolveExpression runner (_raw n) c);
      [apply simS_Rejected|apply simS_Fulfilled].
  - apply simS_caught.
    destruct (resolveExpression runner (_raw n) c);
      [apply simS_Rejected|apply simS_Fulfilled].
  - apply simS_caught.
    destruct (resolveExpression runner (_raw n) c);
      [apply simS_Rejected|apply simS_Fulfilled].
  - apply simS_Fulfilled.
Qed.
End Level.

Lemma parseElement_ok (fuel : nat) :
  forall r, within H0 dom r ->
    forall c c', crel c c' ->
      ok (fun x => parseElement runner platform fuel this options x c)
         (fun x => parseElement runner platform fuel this' options x c')
         r.
Proof.
  induction fuel as [|fuel IH]; intros r Hr c c' Hc.
  - intros s t HR Hpre Hv. destruct (not_viable_Diverged Hv).
  - apply (parseElement_body_ok (parseElement runner platform fuel)
             (parseElement runner platform fuel) IH r c c' Hr Hc).
Qed.

Lemma render_dom_ok (fuel : nat) (root : ref) (c c' : Context) :
  dom = _children (nodeat H0 root) ->
  crel c c' ->
  okA any (render_dom runner platform fuel this options dom c)
          (render_dom runner platform fuel this' options dom c').
Proof.
  intros Hroot Hc s t HR Hv. unfold render_dom in *.
  pose proof (pass_sim
                (fun element =>
                   parseElement runner platform fuel this options element c)
                (fun element =>
                   parseElement runner platform fuel this' options element c')
                root dom [] s t (eq_sym Hroot)
                ltac:(intros r Hr; apply parseElement_ok;
                      [apply within_root, Hr|exact Hc]) HR
                ltac:(intros r []))
    as Hpass.
  destruct (start_all _ dom s) as [s1 ps].
  destruct (start_all _ dom t) as [t1 qs].
  cbn [fst snd] in *.
  apply viable_await_all in Hv as Hps.
  destruct (Hpass Hps) as [Hstep Hsims].
  split; [exact Hstep|]. split; [exact Logic.I|].
  apply simS_await_all; [exact Hsims|].
  apply simK_of_okA. intros a. apply okA_fulfil.
Qed.
End Lockstep.

(** ** The second render of cached content *)

(** What a body that keeps step with itself does to the state. *)
Lemma okA_unary {A} (H0 : Heap) (platform : Platform) (this : nat)
  (dom : list ref) (F : Async A) (s sf : State) (a : A) :
  okA H0 platform 0 this this dom any F F ->
  shape (heap s) = H0 ->
  this < List.length (engines s) ->
  TREE_CACHE this s = ∅ ->
  settle (snd (F s)) (fst (F s)) = (sf, Some (inr a)) ->
  Un H0 s sf.
Proof.
  intros HF Hs Hlt Hempty Hset.
  assert (HR : Rel H0 platform 0 this this dom s s).
  { split; [exact Hs|]. split; [exact Hs|]. split.
    - intros x Hx. destruct Hx. reflexivity.
    - split; try assumption.
      + lia.
      + intros k. rewrite Nat.add_0_r. reflexivity.
      + intros b sess. rewrite Hempty, lookup_empty. discriminate.
      + intros b sess. rewrite Hempty, lookup_empty. discriminate. }
  destruct (HF s s HR ltac:(eexists _, _, _; exact Hset))
    as [Hstep [_ Hsim]].
  pose proof (Step_Rel _ _ _ _ _ _ _ _ _ _ HR Hstep) as HR1.
  destruct (Hsim _ _ HR1 sf a Hset) as [tf [_ [HU _]]].
  eapply Un_trans; [apply Hstep|exact HU].
Qed.

Lemma parseDOM_engines (platform : Platform) (content : string) (c : bool)
  (s : State) :
  engines (fst (parseDOM platform content c s)) = engines s /\
  draws (fst (parseDOM platform content c s)) = draws s.
Proof.
  unfold parseDOM, parse_and_store.
  destruct (negb c).
  - destruct (parse content (heap s) (pstate s)) as [[st [e|[dm h]]]|];
      split; reflexivity.
  - destruct (DOM_CACHE s !! md5 platform content); [split; reflexivity|].
    destruct (parse content (heap s) (pstate s)) as [[st [e|[dm h]]]|];
      split; reflexivity.
Qed.

Lemma TREE_CACHE_new (s : State) :
  TREE_CACHE (fst (Engine_new s)) (snd (Engine_new s)) = ∅ /\
  fst (Engine_new s) < List.length (engines (snd (Engine_new s))).
Proof.
  unfold TREE_CACHE, Engine_new. cbn [fst snd engines]. split.
  - rewrite lookup_app_r by lia.
    replace (List.length (engines s) - List.length (engines s)) with 0 by lia.
    reflexivity.
  - rewrite length_app. cbn. lia.
Qed.


(** ** Samples *)

(** An evaluator that is kept from reading [__tree_id__]: it sees
    [undefined] there. *)
Definition blank (c : Context) : Context :=
  List.map (fun '(k, v) => (k, if String.eqb k tree_id then VUndefined else v))
           c.

Definition unaware (runner : Runner) : Runner :=
  mkRunner
    (fun c e => getExpressionValue runner (blank c) e)
    (fun c v d => runForOf runner (blank c) v d)
    (fun c v d => runForIn runner (blank c) v d)
    (fun code c => runCode runner code (blank c)).

Lemma blank_same (c c' : Context) :
  same_but_session c c' -> blank c = blank c'.
Proof.
  induction 1 as [|[k v] [k' v'] c c' [Hk Hv] _ IH]; [reflexivity|].
  cbn in Hk, Hv. subst k'. cbn [blank List.map]. fold (blank c) (blank c').
  rewrite IH. destruct (String.eqb_spec k tree_id) as [E|Hne];
    [reflexivity|]. rewrite (Hv Hne). reflexivity.
Qed.

Lemma unaware_blind (runner : Runner) : blind (unaware runner).
Proof.
  intros c c' Hc. cbn. rewrite (blank_same c c' Hc). repeat split.
Qed.

(** A platform whose clock advances by a millisecond from one draw to
    the next, with one file; the elapsed time that the exported
    [render] prints differs between its first call and the later
    ones. *)
Definition ticking : Platform :=
  mkPlatform
    (fun k => (1700000000000 + N.of_nat k)%N)
    (fun _ => 42%N)
    (fun _ file => ret (default "undefined" file))
    (fun file =>
       if String.eqb file "page.html" then ret "<p>@{timestamp}@</p>"
       else throw (Error "no such file"))
    (fun k => if Nat.eqb k 0 then "0.000123" else "0.000456")
    (fun content => content)
    Sample.builtins.

Lemma ticking_distinct : distinct_ids ticking.
Proof.
  intros i j H. unfold fresh_treeId, treeId_of in H. cbn [now random ticking] in H.
  assert (Hlen : String.length (pretty (1700000000000 + N.of_nat i)%N)
                 = String.length (pretty (1700000000000 + N.of_nat j)%N)).
  { apply (f_equal String.length) in H. rewrite !append_length in H. lia. }
  destruct (append_inj_length _ _ _ _ Hlen H) as [Ht _].
  apply (inj pretty) in Ht. lia.
Qed.

(** A check of [allowed_node] on the nodes down to a depth. *)
Fixpoint covered (fuel : nat) (h : Heap) (r : ref) : bool :=
  match fuel with
  | O => false
  | S fuel' =>
      allowed_node (nodeat h r)
      && forallb (covered fuel' h) (_children (nodeat h r))
  end.

Lemma covered_within (fuel : nat) (h : Heap) (dom : list ref) :
  forallb (covered fuel h) dom = true ->
  forall r, within h dom r -> allowed_node (nodeat h r) = true.
Proof.
  intros Hdom r Hr.
  assert (H : exists n, covered n h r = true).
  { induction Hr as [r Hr|p r _ [n Hn] Hr].
    - exists fuel. rewrite forallb_forall in Hdom. apply Hdom, Hr.
    - destruct n as [|n]; [discriminate|]. cbn [covered] in Hn.
      apply andb_true_iff in Hn as [_ Hn]. rewrite forallb_forall in Hn.
      exists n. apply Hn, Hr. }
  destruct H as [[|n] Hn]; [discriminate|]. cbn [covered] in Hn.
  apply andb_true_iff in Hn as [Hn _]. exact Hn.
Qed.

(** The tree of the specification's example. *)
Definition tree_template : string :=
  "<t-tree on=" +:+ quoted "tree as item" +:+
  ">{{item.data}}<t-children></t-children></t-tree>".

Definition tree_context : Context :=
  [("tree", VArray [VObject [("data", VNumber 1);
                             ("children", VArray [VObject [("data", VNumber 2)]])]])].

Definition tree_run : State -> State * option (Res string) :=
  run_engine (unaware Sample.runner) ticking 6 tree_template tree_context
    (mkOptions true None).


(** A platform whose first two random draws are equal and whose later
    draws all differ; the clock stands still. *)
Definition colliding_once : Platform :=
  mkPlatform
    (fun _ => 1700000000000%N)
    (fun k => if Nat.ltb k 2 then 42%N else N.of_nat k)
    (fun _ _ => throw (Error "no such file"))
    (fun _ => throw (Error "no such file"))
    (fun _ => "0.000000")
    (fun content => content)
    Sample.builtins.

(** A [t-tree] whose body holds another [t-tree] and then its own
    [t-children]. *)
Definition nested_trees_template : string :=
  "<t-tree on='a as x'><t-tree on='b as y'></t-tree>" +:+
  "<t-children></t-children></t-tree>".

Definition nested_trees_context : Context :=
  [("a", VArray [VObject [("children", VArray [])]]); ("b", VArray [])].

Definition nested_trees_run : State -> State * option (Res string) :=
  run_engine Sample.runner colliding_once 5 nested_trees_template
    nested_trees_context (mkOptions true None).

(** An input tag with an attribute that has no value: the parser throws
    on it. *)
Definition valueless_attribute_template : string :=
  "<input value='1' disabled>".

Definition valueless_attribute_run : State -> State * option (Res string) :=
  run_engine Sample.runner Sample.platform 5 valueless_attribute_template []
    (mkOptions true None).

(** A [t-include] of the file whose content is [<p>@{timestamp}@</p>]. *)
Definition include_run : State -> State * option (Res string) :=
  run_engine (unaware Sample.runner) ticking 6
    "<t-include file='page.html'></t-include>" []
    (mkOptions true (Some "index.html")).

(** A [t-tree] that prints its session identifier, under an evaluator
    that reads it. *)
Definition printed_id_run : State -> State * option (Res string) :=
  run_engine Sample.runner ticking 6
    "<t-tree on='a as x'>{{__tree_id__}}</t-tree>"
    [("a", VArray [VNumber 1])] (mkOptions true None).

(** A [t-with] that binds [__tree_id__] to a text of the context, which
    is the identifier of the first draw. *)
Definition bound_id_run : State -> State * option (Res string) :=
  run_engine (unaware Sample.runner) ticking 6
    ("<t-tree on='a as x'><t-with __tree_id__='k'>" +:+
     "<t-children></t-children></t-with></t-tree>")
    [("a", VArray [VObject [("children", VArray [])]]);
     ("k", VString "170000000000042")]
    (mkOptions true None).

(** A context with a property [__tree_id__] of its own, the identifier
    of the first draw. *)
Definition own_id_run : State -> State * option (Res string) :=
  run_engine (unaware Sample.runner) ticking 6
    "<t-tree on='a as x'><t-children></t-children></t-tree>"
    [("a", VArray [VObject [("children", VArray [])]]);
     ("__tree_id__", VString "170000000000042")]
    (mkOptions true None).

